(** * Neurostudio: the numeric engine of [src/App.tsx]

    A shallow embedding of the deterministic random source, the dataset
    factory and the multi-layer perceptron hook [useMLP] (forward pass,
    batch gradients, gradient-descent step), with the properties the
    specification states about them.

    Conventions of the embedding.
    - A JavaScript [number] is an element of a type [num] that carries the
      arithmetic the source uses (class [Number]).  Every definition of the
      engine is written once, over any such type, with the operands in the
      order the source has them.  Two instances are given: the real numbers
      (exact arithmetic, used for statements about order and derivatives) and
      the binary64 floating-point numbers of the kernel (used to evaluate what
      IEEE arithmetic does with a division by zero).
    - Arrays are lists.  A read [arr[i]] is the checked lookup [arr !! i]; a
      read outside the array ends the run of the model with [None] (the
      source would continue with [undefined], hence [NaN], or raise a
      [TypeError]).  The source raises no exception of its own anywhere.
    - Loops are [for_up]/[for_down] over the loop variable, the mutated
      locals being the loop state.
    - [Math.random()] is an outside source of values: the model receives the
      values it will return as a list, and hands back the unread rest.
    - The components of the app around the engine (the batch and the metric
      of [App], [LossChart], [NetworkDiagram], [DecisionCanvas]) are embedded
      as the numbers they compute; the markup they return is left out. *)

From Stdlib Require Import Floats.
From Stdlib Require Import ZArith QArith Reals Lra Lia String.
From stdpp Require Import base option list.

(* ------------------------------------------------------------------ *)
(** * Numbers *)

(** The operations of JavaScript numbers the engine uses. [lit] is a numeric
    literal, [strict_eq] is [===], [gtb] is [>]; the
    functions named [Math_*] are the ones of the [Math] object. *)
Class Number (num : Type) : Type := {
  lit : Q -> num;
  add : num -> num -> num;
  sub : num -> num -> num;
  mul : num -> num -> num;
  div : num -> num -> num;
  neg : num -> num;
  strict_eq : num -> num -> bool;
  gtb : num -> num -> bool;
  Math_exp : num -> num;
  Math_log : num -> num;
  Math_tanh : num -> num;
  Math_sqrt : num -> num;
  Math_cos : num -> num;
  Math_sin : num -> num;
  Math_hypot : num -> num -> num;
  Math_PI : num
}.

Declare Scope js_scope.
Delimit Scope js_scope with js.
Infix "+" := add : js_scope.
Infix "-" := sub : js_scope.
Infix "*" := mul : js_scope.
Infix "/" := div : js_scope.
Notation "- x" := (neg x) : js_scope.

(** An integer used as a number (a loop index, an array length). *)
Definition int {num : Type} `{!Number num} (z : Z) : num := lit (inject_Z z).
Definition of_nat {num : Type} `{!Number num} (n : nat) : num := int (Z.of_nat n).
Definition zero {num : Type} `{!Number num} : num := lit 0.
Definition one {num : Type} `{!Number num} : num := lit 1.

(** Exact arithmetic: the real numbers. Two things differ from the numbers
    of the source beyond rounding. A division by 0 has the value 0 of the
    library's total division, where IEEE arithmetic gives an infinity or
    [NaN]: what the source does on an empty batch is stated on the
    binary64 instance below, not on this one. The exponential and the
    hyperbolic tangent never reach their limits, where the rounded ones
    do: bounds on activations and predictions are stated with [<=]. *)
Definition real_number : Number R := {|
  lit := Q2R;
  add := Rplus;
  sub := Rminus;
  mul := Rmult;
  div := Rdiv;
  neg := Ropp;
  strict_eq := fun a b => if Req_dec_T a b then true else false;
  gtb := fun a b => if Rlt_dec b a then true else false;
  Math_exp := exp;
  Math_log := ln;
  Math_tanh := tanh;
  Math_sqrt := sqrt;
  Math_cos := cos;
  Math_sin := sin;
  Math_hypot := fun a b => sqrt (a * a + b * b);
  Math_PI := PI
|}.

(** IEEE binary64 arithmetic: the kernel's floating-point numbers. The
    functions of [Math] that ECMAScript leaves implementation-approximated
    are parameters of the instance. *)
Definition float_of_Z (z : Z) : float :=
  if (z <? 0)%Z then PrimFloat.opp (PrimFloat.of_uint63 (Uint63.of_Z (- z)))
  else PrimFloat.of_uint63 (Uint63.of_Z z).

Record MathLib : Type := {
  lib_exp : float -> float;
  lib_log : float -> float;
  lib_tanh : float -> float;
  lib_cos : float -> float;
  lib_sin : float -> float;
  lib_hypot : float -> float -> float;
  lib_PI : float
}.

Definition float_number (M : MathLib) : Number float := {|
  lit := fun q => PrimFloat.div (float_of_Z (Qnum q)) (float_of_Z (Zpos (Qden q)));
  add := PrimFloat.add;
  sub := PrimFloat.sub;
  mul := PrimFloat.mul;
  div := PrimFloat.div;
  neg := PrimFloat.opp;
  strict_eq := PrimFloat.eqb;
  gtb := fun a b => PrimFloat.ltb b a;
  Math_exp := lib_exp M;
  Math_log := lib_log M;
  Math_tanh := lib_tanh M;
  Math_sqrt := PrimFloat.sqrt;
  Math_cos := lib_cos M;
  Math_sin := lib_sin M;
  Math_hypot := lib_hypot M;
  Math_PI := lib_PI M
|}.

(* ------------------------------------------------------------------ *)
(** * Loops *)

(** [for (let i = lo; i < lo + cnt; i++) s = body(i, s)]: the body may stop
    the run ([None]). *)
Fixpoint for_up {S : Type} (lo cnt : nat) (body : nat -> S -> option S) (s : S)
  : option S :=
  match cnt with
  | O => Some s
  | Datatypes.S k => s' ← body lo s; for_up (Datatypes.S lo) k body s'
  end.

(** [for (let l = cnt - 1; l >= 0; l--) s = body(l, s)]. *)
Fixpoint for_down {S : Type} (cnt : nat) (body : nat -> S -> option S) (s : S)
  : option S :=
  match cnt with
  | O => Some s
  | Datatypes.S k => s' ← body k s; for_down k body s'
  end.

(** [arr.map((v, i) => f(v, i))] where [f] may stop the run. *)
Fixpoint imapM {A B : Type} (f : nat -> A -> option B) (i : nat) (arr : list A)
  : option (list B) :=
  match arr with
  | [] => Some []
  | v :: rest => b ← f i v; bs ← imapM f (Datatypes.S i) rest; Some (b :: bs)
  end.

(* ------------------------------------------------------------------ *)
(** * The seeded uniform generator *)

(** [seededRandom(seed)] for an integer [seed]. The closure it returns
    captures the local [s]; [seededRandom] is the initial value of that
    local, [rng] one call of the closure (the new [s] and the returned
    number). On integers below [2^53] the operations [%], [*] and [+] of the
    source are exact, and [%] is the truncated remainder [Z.rem]. *)
Definition seededRandom (seed : Z) : Z :=
  let s := Z.rem seed 2147483647 in
  if (s <=? 0)%Z then (s + 2147483646)%Z else s.

Definition rng_state (s : Z) : Z := Z.rem (s * 16807) 2147483647.

Definition rng {num : Type} `{!Number num} (s : Z) : num * Z :=
  let s' := rng_state s in ((int s' / int 2147483647)%js, s').

(** The state after [k] calls, and the number the [k]-th call returns
    (calls counted from 0). *)
Fixpoint rng_iter (k : nat) (s : Z) : Z :=
  match k with O => s | Datatypes.S k' => rng_iter k' (rng_state s) end.

Definition rng_output {num : Type} `{!Number num} (seed : Z) (k : nat) : num :=
  fst (rng (rng_iter k (seededRandom seed))).

(* ------------------------------------------------------------------ *)
(** * [Math.random] and the Gaussian sampler *)

(** A computation that calls [Math.random()]: it is given the values the
    coming calls return and hands back the ones it did not read. [None]: the
    given values did not suffice (the source's [Math.random] never runs out). *)
Definition Rand (num A : Type) : Type := list num -> option (A * list num).

Definition rret {num A : Type} (a : A) : Rand num A := fun src => Some (a, src).

Definition rbind {num A B : Type} (m : Rand num A) (k : A -> Rand num B)
  : Rand num B :=
  fun src => match m src with Some (a, src') => k a src' | None => None end.

Notation "x <~ m ;; k" := (rbind m (fun x => k))
  (at level 100, m at next level, right associativity, only parsing).

(** A [for] loop whose body calls [Math.random()]. *)
Definition for_rand {num S : Type} (lo cnt : nat) (body : nat -> S -> Rand num S)
  (s : S) : Rand num S :=
  fun src => for_up lo cnt (fun i st => body i (fst st) (snd st)) (s, src).

(** [Array.from({ length: n }, () => g())]. *)
Fixpoint Array_from {num A : Type} (n : nat) (g : Rand num A) : Rand num (list A) :=
  match n with
  | O => rret []
  | Datatypes.S k => a <~ g ;; rest <~ Array_from k g ;; rret (a :: rest)
  end.

Section MathUtils.
Context {num : Type} `{!Number num}.
Local Open Scope js_scope.

(** [let u = 0; while (u === 0) u = Math.random();] *)
Fixpoint Math_random_nonzero (src : list num) : option (num * list num) :=
  match src with
  | [] => None
  | u :: rest =>
      if strict_eq u zero then Math_random_nonzero rest else Some (u, rest)
  end.

Definition randn : Rand num num :=
  u <~ Math_random_nonzero ;;
  v <~ Math_random_nonzero ;;
  rret (Math_sqrt (- lit 2 * Math_log u) * Math_cos (lit 2 * Math_PI * v)).
End MathUtils.

(* ------------------------------------------------------------------ *)
(** * Activations *)

Record activation (num : Type) : Type := {
  f : num -> num;
  df : num -> num;
  name : string
}.
Arguments f {num}. Arguments df {num}. Arguments name {num}.

Module act.
Section Act.
Context {num : Type} `{!Number num}.
Local Open Scope js_scope.

Definition tanh : activation num := {|
  f := fun x => Math_tanh x;
  df := fun x => one - Math_tanh x * Math_tanh x;
  name := "tanh"
|}.

Definition relu : activation num := {|
  f := fun x => if gtb x zero then x else zero;
  df := fun x => if gtb x zero then one else zero;
  name := "ReLU"
|}.
End Act.
End act.

(* ------------------------------------------------------------------ *)
(** * The dataset factory *)

Inductive Task : Type := classification | regression.

Record point (num : Type) : Type := { p_x : num; p_y : num; p_t : num }.
Arguments p_x {num}. Arguments p_y {num}. Arguments p_t {num}.

Record dataset (num : Type) : Type := {
  ds_name : string;
  ds_task : Task;
  points : list (point num)
}.
Arguments ds_name {num}. Arguments ds_task {num}. Arguments points {num}.

(** The generators of [makeDatasets]. The counter [n] is a natural number;
    [pts.push(p)] appends [p]. The loop state is the array [pts] together
    with the state [s] of the closure [rng]. *)
Module gen.
Section Gen.
Context {num : Type} `{!Number num}.
Local Open Scope js_scope.

Definition moons (n : nat) (noise : num) (seed : Z) : Rand num (dataset num) :=
  st <~ for_rand 0 n (fun i '(pts, s) =>
      let th := of_nat i / of_nat n * Math_PI in
      let '(u, s) := rng s in
      let r1 := one + (u - lit 0.5) * noise * lit 2 in
      g1 <~ randn ;;
      g2 <~ randn ;;
      rret (pts ++ [ {| p_x := r1 * Math_cos th - lit 0.2 + g1 * noise * lit 0.15;
                        p_y := r1 * Math_sin th + lit 0.1 + g2 * noise * lit 0.15;
                        p_t := zero |} ], s))
    ([], seededRandom seed) ;;
  st <~ for_rand 0 n (fun i '(pts, s) =>
      let th := of_nat i / of_nat n * Math_PI in
      let '(u, s) := rng s in
      let r2 := one + (u - lit 0.5) * noise * lit 2 in
      g1 <~ randn ;;
      g2 <~ randn ;;
      rret (pts ++ [ {| p_x := one + r2 * Math_cos th + lit 0.2 + g1 * noise * lit 0.15;
                        p_y := - r2 * Math_sin th - lit 0.1 + g2 * noise * lit 0.15;
                        p_t := one |} ], s))
    st ;;
  rret {| ds_name := "Moons (classification)"; ds_task := classification;
          points := fst st |}.

Definition circles (n : nat) (noise : num) : Rand num (dataset num) :=
  pts <~ for_rand 0 n (fun i pts =>
      let th := lit 2 * Math_PI * of_nat i / of_nat n in
      g <~ randn ;;
      let r := lit 0.6 + g * noise in
      rret (pts ++ [ {| p_x := r * Math_cos th; p_y := r * Math_sin th;
                        p_t := zero |} ]))
    [] ;;
  pts <~ for_rand 0 n (fun i pts =>
      let th := lit 2 * Math_PI * of_nat i / of_nat n in
      g <~ randn ;;
      let r := lit 1.3 + g * noise in
      rret (pts ++ [ {| p_x := r * Math_cos th; p_y := r * Math_sin th;
                        p_t := one |} ]))
    pts ;;
  rret {| ds_name := "Concentric circles (classification)";
          ds_task := classification; points := pts |}.

Definition xor (n : nat) (noise : num) (seed : Z) : Rand num (dataset num) :=
  st <~ for_rand 0 n (fun i '(pts, s) =>
      let '(u, s) := rng s in
      let x := (u * lit 2 - one) * lit 2 in
      let '(u, s) := rng s in
      let y := (u * lit 2 - one) * lit 2 in
      let t := if xorb (gtb x zero) (gtb y zero) then one else zero in
      g1 <~ randn ;;
      g2 <~ randn ;;
      rret (pts ++ [ {| p_x := x + g1 * noise; p_y := y + g2 * noise;
                        p_t := t |} ], s))
    ([], seededRandom seed) ;;
  rret {| ds_name := "XOR checkerboard (classification)";
          ds_task := classification; points := fst st |}.

Definition spirals (n : nat) (noise : num) : Rand num (dataset num) :=
  pts <~ for_rand 0 n (fun i pts =>
      let t := of_nat i / of_nat n * lit 4 * Math_PI in
      let r := lit 0.1 + t * lit 0.08 in
      g1 <~ randn ;;
      g2 <~ randn ;;
      rret (pts ++ [ {| p_x := r * Math_cos t + g1 * noise;
                        p_y := r * Math_sin t + g2 * noise;
                        p_t := zero |} ]))
    [] ;;
  pts <~ for_rand 0 n (fun i pts =>
      let t := of_nat i / of_nat n * lit 4 * Math_PI + Math_PI in
      let r := lit 0.1 + (t - Math_PI) * lit 0.08 in
      g1 <~ randn ;;
      g2 <~ randn ;;
      rret (pts ++ [ {| p_x := r * Math_cos t + g1 * noise;
                        p_y := r * Math_sin t + g2 * noise;
                        p_t := one |} ]))
    pts ;;
  rret {| ds_name := "Two spirals (classification)";
          ds_task := classification; points := pts |}.

Definition sinc (n : nat) (noise : num) (seed : Z) : Rand num (dataset num) :=
  st <~ for_rand 0 n (fun i '(pts, s) =>
      let '(u, s) := rng s in
      let x := (u * lit 2 - one) * lit 3 in
      let '(u, s) := rng s in
      let y := (u * lit 2 - one) * lit 3 in
      let r := Math_hypot x y + lit 1e-6 in
      g <~ randn ;;
      rret (pts ++ [ {| p_x := x; p_y := y;
                        p_t := Math_sin r / r + g * noise |} ], s))
    ([], seededRandom seed) ;;
  rret {| ds_name := "Sinc ripple (regression)"; ds_task := regression;
          points := fst st |}.

Definition plane (n : nat) (noise : num) (seed : Z) : Rand num (dataset num) :=
  st <~ for_rand 0 n (fun i '(pts, s) =>
      let '(u, s) := rng s in
      let x := (u * lit 2 - one) * lit 2 in
      let '(u, s) := rng s in
      let y := (u * lit 2 - one) * lit 2 in
      g <~ randn ;;
      rret (pts ++ [ {| p_x := x; p_y := y;
                        p_t := lit 0.6 * x - lit 0.3 * y + lit 0.2 + g * noise |} ], s))
    ([], seededRandom seed) ;;
  rret {| ds_name := "Noisy plane (regression)"; ds_task := regression;
          points := fst st |}.
End Gen.
End gen.

(* ------------------------------------------------------------------ *)
(** * The multi-layer perceptron [useMLP] *)

(** The two pieces of React state of the hook. *)
Record state (num : Type) : Type := {
  W : list (list (list num));
  B : list (list num)
}.
Arguments W {num}. Arguments B {num}.

(** What [forward] returns. *)
Record trace (num : Type) : Type := {
  tr_a : list (list num);
  tr_z : list (list num);
  yhat : num
}.
Arguments tr_a {num}. Arguments tr_z {num}. Arguments yhat {num}.

(** What [computeBatchGrads] returns. *)
Record grads (num : Type) : Type := {
  gW : list (list (list num));
  gB : list (list num);
  loss : num
}.
Arguments gW {num}. Arguments gB {num}. Arguments loss {num}.

(** [const sizes = [2, ...h, 1]]. *)
Definition sizes_of (h : list nat) : list nat := 2%nat :: h ++ [1%nat].

Definition rlift {num A : Type} (o : option A) : Rand num A :=
  fun src => match o with Some a => Some (a, src) | None => None end.

(** [arr.map((v, i) => g(v, i))] where [g] calls [Math.random()]. *)
Fixpoint imap_rand {num A C : Type} (g : nat -> A -> Rand num C) (i : nat)
  (arr : list A) : Rand num (list C) :=
  match arr with
  | [] => rret []
  | v :: rest =>
      c <~ g i v ;; cs <~ imap_rand g (Datatypes.S i) rest ;; rret (c :: cs)
  end.

Section Init.
Context {num : Type} `{!Number num}.
Local Open Scope js_scope.

Definition initWeights (h : list nat) : Rand num (list (list (list num))) :=
  let sizes := sizes_of h in
  imap_rand (fun l _ =>
      inS <~ rlift (sizes !! l) ;;
      outS <~ rlift (sizes !! (l + 1)%nat) ;;
      let scale := one / Math_sqrt (of_nat inS) in
      Array_from inS (Array_from outS (g <~ randn ;; rret (g * scale))))
    0 (removelast sizes).

Definition initBiases (h : list nat) : Rand num (list (list num)) :=
  let sizes := sizes_of h in
  imap_rand (fun _ outS =>
      Array_from outS (g <~ randn ;; rret (g * lit 0.05)))
    0 (tail sizes).

(** [reinit(newLayers)]: the state the two setters install. *)
Definition reinit (newLayers : list nat) : Rand num (state num) :=
  w <~ initWeights newLayers ;;
  b <~ initBiases newLayers ;;
  rret {| W := w; B := b |}.
End Init.

(** The reads [m[l][j]] and [m[l][i][j]]. *)
Definition get2 {A : Type} (m : list (list A)) (l j : nat) : option A :=
  row ← m !! l; row !! j.
Definition get3 {A : Type} (m : list (list (list A))) (l i j : nat) : option A :=
  layer ← m !! l; row ← layer !! i; row !! j.

Section useMLP.
Context {num : Type} `{!Number num}.
(** The arguments of the hook: [layers] (named [H] in the body), the
    selected activation [actFun = act[activation]] and the task. *)
Variable H : list nat.
Variable actFun : activation num.
Variable task : Task.
Local Open Scope js_scope.

Definition output_activation (v : num) : num :=
  match task with
  | classification => one / (one + Math_exp (- v))
  | regression => v
  end.

Definition forward (st : state num) (x y : num) : option (trace num) :=
  let sizes := sizes_of H in
  az ← for_up 0 (length sizes - 1) (fun l '((a, z) : list (list num) * list (list num)) =>
      inS ← sizes !! l;
      outS ← sizes !! (l + 1)%nat;
      zl ← for_up 0 outS (fun j (zl : list num) =>
          s ← get2 (B st) l j;
          s ← for_up 0 inS (fun i (s : num) =>
              ai ← get2 a l i;
              w ← get3 (W st) l i j;
              Some (s + ai * w)) s;
          Some (<[j := s]> zl)) (replicate outS zero);
      let isOut := Nat.eqb l (length sizes - 2) in
      Some (a ++ [if isOut then map output_activation zl
                  else map (f actFun) zl],
            z ++ [zl]))
    ([[x; y]], []);
  yh ← (al ← last (fst az); al !! 0%nat);
  Some {| tr_a := fst az; tr_z := snd az; yhat := yh |}.

Definition predictBatch (st : state num) (XY : list (num * num))
  : option (list num) :=
  mapM (fun p => tr ← forward st (fst p) (snd p); Some (yhat tr)) XY.

(** The term one sample adds to [loss]. *)
Definition sample_loss (yh t : num) : num :=
  match task with
  | classification =>
      - (t * Math_log (yh + lit 1e-8) + (one - t) * Math_log (one - yh + lit 1e-8))
  | regression => let e := yh - t in lit 0.5 * e * e
  end.

(** The backward pass of one sample: [deltas], filled from the last layer
    down. An entry not yet assigned is a hole of the array; a read of it
    fails, which the empty list models. *)
Definition backward (st : state num) (tr : trace num) (t : num)
  : option (list (list num)) :=
  let sizes := sizes_of H in
  let deltaL := [yhat tr - t] in
  let deltas : list (list num) := replicate (length sizes - 1) [] in
  let deltas := <[(length deltas - 1)%nat := deltaL]> deltas in
  for_down (length sizes - 2) (fun l (deltas : list (list num)) =>
      outS ← sizes !! (l + 1)%nat;
      nextS ← sizes !! (l + 2)%nat;
      dl ← for_up 0 outS (fun i (dl : list num) =>
          s ← for_up 0 nextS (fun j (s : num) =>
              d ← get2 deltas (l + 1)%nat j;
              w ← get3 (W st) (l + 1)%nat i j;
              Some (s + d * w)) zero;
          zli ← get2 (tr_z tr) l i;
          Some (<[i := s * df actFun zli]> dl)) (replicate outS zero);
      Some (<[l := dl]> deltas))
    deltas.

(** The accumulation of one sample into [gW] and [gB]. *)
Definition accumulate (tr : trace num) (deltas : list (list num))
    (g : list (list (list num)) * list (list num))
  : option (list (list (list num)) * list (list num)) :=
  let sizes := sizes_of H in
  for_up 0 (length sizes - 1) (fun l (g : list (list (list num)) * list (list num)) =>
      inS ← sizes !! l;
      outS ← sizes !! (l + 1)%nat;
      for_up 0 outS (fun j '((gW, gB) : list (list (list num)) * list (list num)) =>
          d ← get2 deltas l j;
          gb ← get2 gB l j;
          let gB := alter (<[j := gb + d]>) l gB in
          gW ← for_up 0 inS (fun i (gW : list (list (list num))) =>
              ai ← get2 (tr_a tr) l i;
              d ← get2 deltas l j;
              gw ← get3 gW l i j;
              Some (alter (alter (<[j := gw + ai * d]>) i) l gW)) gW;
          Some (gW, gB)) g)
    g.

Definition computeBatchGrads (st : state num) (XY : list (num * num))
    (yTrue : list num) : option (grads num) :=
  let gW0 := map (fun layer => map (fun row => map (fun _ => zero) row) layer) (W st) in
  let gB0 := map (fun arr => map (fun _ => zero) arr) (B st) in
  acc ← for_up 0 (length XY) (fun n '((g, loss) : (list (list (list num)) * list (list num)) * num) =>
      xy ← XY !! n;
      t ← yTrue !! n;
      tr ← forward st (fst xy) (snd xy);
      let loss := loss + sample_loss (yhat tr) t in
      deltas ← backward st tr t;
      g ← accumulate tr deltas g;
      Some (g, loss))
    ((gW0, gB0), zero);
  let n := of_nat (length XY) in
  let loss := snd acc / n in
  let gWavg := map (fun layer => map (fun row => map (fun v => v / n) row) layer)
                   (fst (fst acc)) in
  let gBavg := map (fun arr => map (fun v => v / n) arr) (snd (fst acc)) in
  Some {| gW := gWavg; gB := gBavg; loss := loss |}.

(** [step] returns the loss; the state its two setters install (from the
    current state) is returned with it. *)
Definition step (st : state num) (XY : list (num * num)) (yTrue : list num)
    (lr : num) : option (num * state num) :=
  g ← computeBatchGrads st XY yTrue;
  let scale := lr in
  w' ← imapM (fun l layer =>
          imapM (fun i row =>
            imapM (fun j (w : num) =>
              gw ← get3 (gW g) l i j;
              Some (w - scale * gw)) 0 row) 0 layer) 0 (W st);
  b' ← imapM (fun l arr =>
          imapM (fun j (bv : num) =>
            gb ← get2 (gB g) l j;
            Some (bv - scale * gb)) 0 arr) 0 (B st);
  Some (loss g, {| W := w'; B := b' |}).
End useMLP.

(* ------------------------------------------------------------------ *)
(** * Notions used by the statements *)

Section Notions.
Context {num : Type} `{!Number num}.
Local Open Scope js_scope.

(** How many of the coming values of [Math.random()] pass the test
    [u === 0] of [randn] as non-zero. *)
Definition nonzero_draws (src : list num) : nat :=
  length (filter (fun u => strict_eq u zero = false) src).

(** The computation [m] returns whenever [c] non-zero values are still to
    come, uses up exactly [c] of them, and its result satisfies [Q]. *)
Definition returns_with {A : Type} (c : nat) (Q : A -> Prop) (m : Rand num A) : Prop :=
  forall src, (c <= nonzero_draws src)%nat ->
    exists a rest, m src = Some (a, rest) /\ Q a /\
                   nonzero_draws rest = (nonzero_draws src - c)%nat.

(** A class label: the number 0 or the number 1. *)
Definition binary_label (p : point num) : Prop :=
  p_t p = zero \/ p_t p = one.

(** What the [k]-th point of [xor] takes from the seeded generator: the
    two coordinates before the jitter, and the label. *)
Definition xor_x (seed : Z) (k : nat) : num :=
  (rng_output seed (2 * k) * lit 2 - one) * lit 2.
Definition xor_y (seed : Z) (k : nat) : num :=
  (rng_output seed (2 * k + 1) * lit 2 - one) * lit 2.
Definition xor_t (seed : Z) (k : nat) : num :=
  if xorb (gtb (xor_x seed k) zero) (gtb (xor_y seed k) zero) then one else zero.

(** The value [randn] computes from the two non-zero values it read. *)
Definition box_muller (u v : num) : num :=
  Math_sqrt (- lit 2 * Math_log u) * Math_cos (lit 2 * Math_PI * v).

(** The coming values of [Math.random()] that [randn] does not throw away,
    in their order. *)
Definition nonzero_values (src : list num) : list num :=
  filter (fun u => strict_eq u zero = false) src.

(** The number that the [i]-th call of [randn] (counted from 0) returns
    when the calls of [randn] are the only readers of the values [src] of
    [Math.random()]: the Box-Muller number of the non-zero values [2 * i]
    and [2 * i + 1]. *)
Definition randn_value (src : list num) (i : nat) : num :=
  box_muller (nth (2 * i) (nonzero_values src) zero)
             (nth (2 * i + 1) (nonzero_values src) zero).

(** [p] is the [k]-th point of [xor] on the values [src] of
    [Math.random()]: the seeded label, and the seeded coordinates moved by
    the jitter [randn() * noise] of the calls [2 * k] and [2 * k + 1] of
    [randn]. *)
Definition xor_point (seed : Z) (noise : num) (src : list num) (k : nat)
    (p : point num) : Prop :=
  p_t p = xor_t seed k /\
  p_x p = xor_x seed k + randn_value src (2 * k) * noise /\
  p_y p = xor_y seed k + randn_value src (2 * k + 1) * noise.
End Notions.

(* ------------------------------------------------------------------ *)
(** * The engine in the words of the specification *)

(** The formulas of the specification, indexed by layer, against which the
    loops of [forward], [computeBatchGrads] and [step] are compared. Here
    [m[l][j]] is the total read [at2 m l j]; the statements use these
    formulas on parameters of the right shape only. *)
Section Formulas.
Context {num : Type} `{!Number num}.
Variable H : list nat.
Variable actFun : activation num.
Variable task : Task.
Local Open Scope js_scope.

Definition at1 (v : list num) (j : nat) : num := nth j v zero.
Definition at2 (m : list (list num)) (l j : nat) : num := nth j (nth l m []) zero.
Definition at3 (m : list (list (list num))) (l i j : nat) : num :=
  nth j (nth i (nth l m []) []) zero.

(** [m[l][j] = v] and [m[l][i][j] = v] on arrays of arrays. *)
Definition upd2 (m : list (list num)) (l j : nat) (v : num) : list (list num) :=
  alter (<[j := v]>) l m.
Definition upd3 (m : list (list (list num))) (l i j : nat) (v : num)
  : list (list (list num)) :=
  alter (alter (<[j := v]>) i) l m.

(** [sizes[l]]. *)
Definition size (l : nat) : nat := nth l (sizes_of H) 0%nat.

(** The number of layers of parameters, [sizes.length - 1]. *)
Definition depth : nat := (length (sizes_of H) - 1)%nat.

(** [s0 + term 0 + term 1 + ... + term (n-1)], added in this order. *)
Definition sum_from (s0 : num) (n : nat) (term : nat -> num) : num :=
  fold_left (fun s i => s + term i) (seq 0 n) s0.

(** Shape: [W[l]] is [sizes[l]] rows of [sizes[l+1]] entries and [B[l]] has
    [sizes[l+1]] entries, for every layer [l]. *)
Definition params_shape (w : list (list (list num))) (b : list (list num)) : Prop :=
  length w = depth /\ length b = depth /\
  forall l, (l < depth)%nat ->
    length (nth l w []) = size l /\
    (forall i, (i < size l)%nat -> length (nth i (nth l w []) []) = size (l + 1)) /\
    length (nth l b []) = size (l + 1).

Definition shape_ok (st : state num) : Prop := params_shape (W st) (B st).

(** [c 0 + ... + c (n-1)]. *)
Fixpoint count_to (n : nat) (c : nat -> nat) : nat :=
  match n with O => 0%nat | Datatypes.S k => (count_to k c + c k)%nat end.

(** The number of non-zero values of [Math.random()] that initialising the
    weights, the biases, and both takes: two for every entry. *)
Definition weight_draws : nat := count_to depth (fun l => (2 * (size (l + 1) * size l))%nat).
Definition bias_draws : nat := count_to depth (fun l => (2 * size (l + 1))%nat).
Definition draws_needed : nat := (weight_draws + bias_draws)%nat.

(** [g'] is [g] with [inc] added to the cells selected by [P], and equal to
    [g] on the other cells (cells within the shape). *)
Definition cells3_updated (inc : nat -> nat -> nat -> num)
    (P : nat -> nat -> nat -> Prop) (g g' : list (list (list num))) : Prop :=
  forall l i j, (l < depth)%nat -> (i < size l)%nat -> (j < size (l + 1))%nat ->
    (P l i j -> at3 g' l i j = at3 g l i j + inc l i j) /\
    (~ P l i j -> at3 g' l i j = at3 g l i j).
Definition cells2_updated (inc : nat -> nat -> num)
    (P : nat -> nat -> Prop) (g g' : list (list num)) : Prop :=
  forall l j, (l < depth)%nat -> (j < size (l + 1))%nat ->
    (P l j -> at2 g' l j = at2 g l j + inc l j) /\
    (~ P l j -> at2 g' l j = at2 g l j).

Section Sample.
Variable st : state num.
Variables x y : num.

(** [z[l][j] = B[l][j] + sum_i a[l][i] * W[l][i][j]], from the activations
    [al] of layer [l]. *)
Definition layer_z (l : nat) (al : list num) : list num :=
  map (fun j => sum_from (at2 (B st) l j) (size l)
                  (fun i => at1 al i * at3 (W st) l i j))
      (seq 0 (size (l + 1))).

(** The activation applied after layer [l]: the output activation after
    the last layer, the selected hidden activation elsewhere. *)
Definition layer_activation (l : nat) : num -> num :=
  if Nat.eqb l (depth - 1) then output_activation task else f actFun.

(** [a[l]], with [a[0]] the input. *)
Fixpoint spec_a (l : nat) : list num :=
  match l with
  | O => [x; y]
  | Datatypes.S k => map (layer_activation k) (layer_z k (spec_a k))
  end.

(** [z[l]]. *)
Definition spec_z (l : nat) : list num := layer_z l (spec_a l).

(** [yhat = a[L-1][0]]. *)
Definition spec_yhat : num := at1 (spec_a depth) 0.

(** [delta[depth - 1 - d]] for the target [t]: the output delta
    [yhat - t] for [d = 0], and below it
    [delta[l][i] = (sum_j delta[l+1][j] * W[l+1][i][j]) * df(z[l][i])]. *)
Fixpoint spec_delta_back (t : num) (d : nat) : list num :=
  match d with
  | O => [spec_yhat - t]
  | Datatypes.S d' =>
      let l := (depth - 1 - d)%nat in
      map (fun i => sum_from zero (size (l + 2))
                      (fun j => at1 (spec_delta_back t d') j * at3 (W st) (l + 1) i j)
                    * df actFun (at1 (spec_z l) i))
          (seq 0 (size (l + 1)))
  end.

(** [delta[l]]. *)
Definition spec_delta (t : num) (l : nat) : list num :=
  spec_delta_back t (depth - 1 - l).
End Sample.

(** The batch: sample [n] is the point [XY[n]] with the target
    [yTrue[n]]. *)
Section Batch.
Variable st : state num.
Variable XY : list (num * num).
Variable yTrue : list num.

Definition sample_x (n : nat) : num := fst (nth n XY (zero, zero)).
Definition sample_y (n : nat) : num := snd (nth n XY (zero, zero)).
Definition sample_t (n : nat) : num := nth n yTrue zero.

(** The accumulators after the whole batch, before the division. *)
Definition acc_gW (l i j : nat) : num :=
  sum_from zero (length XY) (fun n =>
    at1 (spec_a st (sample_x n) (sample_y n) l) i
    * at1 (spec_delta st (sample_x n) (sample_y n) (sample_t n) l) j).
Definition acc_gB (l j : nat) : num :=
  sum_from zero (length XY) (fun n =>
    at1 (spec_delta st (sample_x n) (sample_y n) (sample_t n) l) j).
Definition acc_loss : num :=
  sum_from zero (length XY) (fun n =>
    sample_loss task (spec_yhat st (sample_x n) (sample_y n)) (sample_t n)).
End Batch.
End Formulas.

(* ------------------------------------------------------------------ *)
(** * The worked example of the specification *)

(** Architecture [[2,2,1]] (one hidden layer of two units) with
    [W = [[[1,-1],[0.5,0.5]],[[1],[1]]]] and [B = [[0,0],[0]]], in exact
    arithmetic. *)
Definition example_layers : list nat := [2%nat].
Definition example_state : state R :=
  {| W := [[[1; -1]; [0.5; 0.5]]; [[1]; [1]]]%R;
     B := [[0; 0]; [0]]%R |}.

(* ------------------------------------------------------------------ *)
(** * The cross-entropy as a function of the parameters *)

(** In exact arithmetic, for the classification task. *)
Section CrossEntropy.
#[local] Existing Instance real_number.
Variable H : list nat.
Variable actFun : activation R.
Local Open Scope R_scope.

(** The binary cross-entropy of a prediction, without the offsets [1e-8]. *)
Definition bce (yh t : R) : R := - (t * ln yh + (1 - t) * ln (1 - yh)).

(** The prediction [forward(x, y).yhat] of the network with the parameters
    [st]. *)
Definition predicted (st : state R) (x y : R) : R :=
  match forward H actFun classification st x y with
  | Some tr => yhat tr
  | None => 0
  end.

(** The mean over the batch of the cross-entropy of the predictions. *)
Definition mean_bce (XY : list (R * R)) (yTrue : list R) (st : state R) : R :=
  sum_from 0 (length XY)
    (fun k => bce (predicted st (sample_x XY k) (sample_y XY k)) (sample_t yTrue k))
  / INR (length XY).

(** The parameters [st] with one weight, or one bias, set to [v]. *)
Definition set_W (st : state R) (l i j : nat) (v : R) : state R :=
  {| W := upd3 (W st) l i j v; B := B st |}.
Definition set_B (st : state R) (l j : nat) (v : R) : state R :=
  {| W := W st; B := upd2 (B st) l j v |}.

(** The derivative that the chain rule gives when the parameters of layer
    [l] move with the rates [dW i j] and [dB j]: the sum over the units [j]
    of the layer of [delta[j]] times the rate of [z[l][j]]. *)
Definition delta_rate (l : nat) (delta al : list R)
    (dW : nat -> nat -> R) (dB : nat -> R) : R :=
  sum_from 0 (size H (l + 1))
    (fun j => at1 delta j * sum_from (dB j) (size H l) (fun i => at1 al i * dW i j)).

(** At every hidden pre-activation [z[l][i]] that [forward] computes on a
    point of the batch, the hidden activation is differentiable with
    derivative [df]. *)
Definition smooth_on_batch (st : state R) (XY : list (R * R)) : Prop :=
  forall k tr l zl i z,
    (k < length XY)%nat ->
    forward H actFun classification st (sample_x XY k) (sample_y XY k) = Some tr ->
    (l + 1 < depth H)%nat ->
    tr_z tr !! l = Some zl -> zl !! i = Some z ->
    derivable_pt_lim (f actFun) z (df actFun z).
End CrossEntropy.

(** A network [[2,1,1]] whose hidden unit has pre-activation [B[0][0]] on
    every input: all the weights into it are 0. *)
Definition kink_layers : list nat := [1%nat].
Definition kink_state : state R :=
  {| W := [[[0]; [0]]; [[1]]]%R; B := [[0]; [0]]%R |}.

(* ------------------------------------------------------------------ *)
(** * The returned loss as a function of the parameters *)

Section ReturnedLoss.
#[local] Existing Instance real_number.
Variable H : list nat.
Variable actFun : activation R.
Variable task : Task.
Local Open Scope R_scope.

(** The loss [computeBatchGrads(XY, yTrue).loss] as a function of the
    parameters, in exact arithmetic. *)
Definition returned_loss (XY : list (R * R)) (yTrue : list R) (st : state R) : R :=
  match computeBatchGrads H actFun task st XY yTrue with
  | Some g => loss g
  | None => 0
  end.

(** [smooth_on_batch] for either task. *)
Definition smooth_on_batch_for (st : state R) (XY : list (R * R)) : Prop :=
  forall k tr l zl i z,
    (k < length XY)%nat ->
    forward H actFun task st (sample_x XY k) (sample_y XY k) = Some tr ->
    (l + 1 < depth H)%nat ->
    tr_z tr !! l = Some zl -> zl !! i = Some z ->
    derivable_pt_lim (f actFun) z (df actFun z).
End ReturnedLoss.

(* ------------------------------------------------------------------ *)
(** * What the regression datasets take from the seeded generator *)

Section MoreNotions.
Context {num : Type} `{!Number num}.
Local Open Scope js_scope.

(** What the [k]-th point of [sinc] takes from the seeded generator. *)
Definition sinc_x (seed : Z) (k : nat) : num :=
  (rng_output seed (2 * k) * lit 2 - one) * lit 3.
Definition sinc_y (seed : Z) (k : nat) : num :=
  (rng_output seed (2 * k + 1) * lit 2 - one) * lit 3.

(** [p] is the [k]-th point of [plane] on the values [src] of
    [Math.random()]: the coordinates are the seeded ones of [xor], not
    moved, and the target is the plane plus the noise [randn() * noise] of
    the [k]-th call of [randn]. *)
Definition plane_point (seed : Z) (noise : num) (src : list num) (k : nat)
    (p : point num) : Prop :=
  p_x p = xor_x seed k /\ p_y p = xor_y seed k /\
  p_t p = lit 0.6 * p_x p - lit 0.3 * p_y p + lit 0.2 + randn_value src k * noise.

(** [p] is the [k]-th point of [sinc] on the values [src]. *)
Definition sinc_point (seed : Z) (noise : num) (src : list num) (k : nat)
    (p : point num) : Prop :=
  p_x p = sinc_x seed k /\ p_y p = sinc_y seed k /\
  let r := Math_hypot (p_x p) (p_y p) + lit 1e-6 in
  p_t p = Math_sin r / r + randn_value src k * noise.
End MoreNotions.

(* ------------------------------------------------------------------ *)
(** * The app around the engine *)

(** The operations on numbers that the components use besides those of the
    engine: [geb] is [>=], [truthy x] is the test that [x || y] makes on a
    number (neither 0 nor [NaN]), [Math_min_of xs] is [Math.min(...xs)]. *)
Class NumberUI (num : Type) : Type := {
  geb : num -> num -> bool;
  truthy : num -> bool;
  Math_abs : num -> num;
  Math_max : num -> num -> num;
  Math_min : num -> num -> num;
  Math_max_of : list num -> num;
  Math_min_of : list num -> num
}.

(** In exact arithmetic. [Math.min()] and [Math.max()] of no argument are
    the two infinities, which are no real numbers: the instance is meant for
    lists that are not empty. *)
Definition real_number_ui : NumberUI R := {|
  geb := fun a b => if Rle_dec b a then true else false;
  truthy := fun a => if Req_dec_T a 0 then false else true;
  Math_abs := Rabs;
  Math_max := Rmax;
  Math_min := Rmin;
  Math_max_of := fun xs => match xs with [] => 0%R | x :: rest => fold_left Rmax rest x end;
  Math_min_of := fun xs => match xs with [] => 0%R | x :: rest => fold_left Rmin rest x end
|}.

(** The keys of the object [gen] that [makeDatasets] returns. *)
Module dsKey.
Inductive t : Type := moons | circles | xor | spirals | sinc | plane.
End dsKey.

(** One entry of [lossHist]. The step number is an integer counter. *)
Module hist.
Record entry (num : Type) : Type := { step : nat; loss : num }.
Arguments step {num}. Arguments loss {num}.
End hist.

(** The value of the memo [metric]. *)
Record Metric (num : Type) : Type := { label : string; value : num }.
Arguments label {num}. Arguments value {num}.

Module App.
Section App.
Context {num : Type} `{!Number num} `{!NumberUI num}.
Local Open Scope js_scope.

(** The memo [dsObj]: [circles] and [spirals] take no seed, the third
    argument of the call is ignored. *)
Definition dsObj (key : dsKey.t) (nPerClass : nat) (noise : num) (seed : Z)
  : Rand num (dataset num) :=
  let baseN := match key with
               | dsKey.sinc | dsKey.plane => (nPerClass * 2)%nat
               | _ => nPerClass
               end in
  match key with
  | dsKey.moons => gen.moons baseN noise seed
  | dsKey.circles => gen.circles baseN noise
  | dsKey.xor => gen.xor baseN noise seed
  | dsKey.spirals => gen.spirals baseN noise
  | dsKey.sinc => gen.sinc baseN noise seed
  | dsKey.plane => gen.plane baseN noise seed
  end.

(** [data.map(({ x, y }) => ({ x, y }))] and [data.map(({ t }) => t)]. *)
Definition XY (data : list (point num)) : list (num * num) :=
  map (fun p => (p_x p, p_y p)) data.
Definition yTrue (data : list (point num)) : list num := map p_t data.

(** [layerSizes.slice(0, numLayers)]. *)
Definition activeLayers (layerSizes : list nat) (numLayers : nat) : list nat :=
  take numLayers layerSizes.

(** The updater given to [setLossHist] by [tick] and [doStep]:
    [(h) => [...h, { step: (h.at(-1)?.step ?? 0) + 1, loss: L }]]. *)
Definition lossHist_append (L : num) (h : list (hist.entry num))
  : list (hist.entry num) :=
  h ++ [ {| hist.step := (match last h with
                          | Some e => hist.step e
                          | None => 0%nat
                          end + 1)%nat;
            hist.loss := L |} ].

(** The memo [metric]. In the comparison [yTrue[i] === 1] a target that is
    missing counts as different from 1; in the subtraction
    [preds[i] - yTrue[i]] it ends the run of the model. *)
Definition metric (task : Task) (preds yTrue : list num) : option (Metric num) :=
  if Nat.eqb (length preds) 0 then
    Some {| label := match task with
                     | classification => "Accuracy"
                     | regression => "RMSE"
                     end;
            value := zero |}
  else
    match task with
    | classification =>
        correct ← for_up 0 (length preds) (fun i (correct : num) =>
            p ← preds !! i;
            let is_one := match yTrue !! i with
                          | Some t => strict_eq t one
                          | None => false
                          end in
            Some (correct + (if Bool.eqb (geb p (lit 0.5)) is_one then one else zero)))
          zero;
        Some {| label := "Accuracy"; value := correct / of_nat (length preds) |}
    | regression =>
        mse ← for_up 0 (length preds) (fun i (mse : num) =>
            p ← preds !! i;
            t ← yTrue !! i;
            let e := p - t in
            Some (mse + e * e))
          zero;
        Some {| label := "RMSE"; value := Math_sqrt (mse / of_nat (length preds)) |}
    end.
End App.
End App.

(** The component [LossChart]: the points of its polyline, as pairs of
    numbers ([None]: the history is empty and the component shows its
    placeholder instead of a chart). *)
Module LossChart.
Section LossChart.
Context {num : Type} `{!Number num} `{!NumberUI num}.
Local Open Scope js_scope.

Definition maxN : nat := 200.
Definition pad : num := lit 24.

(** [history.slice(-maxN)]. *)
Definition hist (history : list (hist.entry num)) : list (hist.entry num) :=
  drop (length history - maxN) history.

(** [a || 1] on numbers. *)
Definition or_one (a : num) : num := if truthy a then a else one.

Definition x2sx (xmin xmax width : num) (x : num) : num :=
  pad + ((x - xmin) / or_one (xmax - xmin)) * (width - lit 2 * pad).
Definition y2sy (ymin ymax height : num) (y : num) : num :=
  height - pad - ((y - ymin) / or_one (ymax - ymin)) * (height - lit 2 * pad).

End LossChart.
End LossChart.

(** The component [NetworkDiagram]: the sizes it reads off the weights, the
    places of the nodes and the widths of the edges. *)
Module NetworkDiagram.
Section NetworkDiagram.
Context {num : Type} `{!Number num} `{!NumberUI num}.
Local Open Scope js_scope.

(** [[2, ...W.map((layer) => layer[0].length)]]: the read of [.length] on
    a [layer[0]] that is missing raises a [TypeError] ([None]). *)
Definition sizes (W : list (list (list num))) : option (list nat) :=
  rest ← mapM (fun layer : list (list num) => row ← layer !! 0%nat; Some (length row)) W;
  Some (2%nat :: rest).

(** [sizes.length - 2], an integer that is negative when [W] is empty. *)
Definition hiddenCount (sizes : list nat) : Z := (Z.of_nat (length sizes) - 2)%Z.

Definition width (sizes : list nat) : num :=
  lit 100 + lit 120 * (int (hiddenCount sizes) + one).

(** [Array.from({ length: hiddenCount + 2 }, (_, i) => 50 + i * 120)]; a
    negative [length] gives the empty array. *)
Definition layerX (sizes : list nat) : list num :=
  map (fun i => lit 50 + of_nat i * lit 120)
      (seq 0 (Z.to_nat (hiddenCount sizes + 2))).

(** [Array.from({ length: n }, (_, i) => 30 + (i + 1) * (180 / (n + 1)))]. *)
Definition layerY (n : nat) : list num :=
  map (fun i => lit 30 + (of_nat i + one) * (lit 180 / (of_nat n + one))) (seq 0 n).

(** [[layerY(2), ...sizes.slice(1).map(layerY)]]. *)
Definition positions (sizes : list nat) : list (list num) :=
  layerY 2 :: map layerY (tail sizes).

(** One entry of the memo [maxPerLayer]: the largest [|layer[i][j]|], or 1
    when that is 0. *)
Definition maxOfLayer (layer : list (list num)) : option num :=
  m ← for_up 0 (length layer) (fun i (m : num) =>
        row ← layer !! i;
        for_up 0 (length row) (fun j (m : num) =>
            g ← row !! j;
            Some (Math_max m (Math_abs g))) m) zero;
  Some (if truthy m then m else one).

Definition maxPerLayer (overlayData : option (grads num)) : option (list num) :=
  match overlayData with
  | None => Some []
  | Some data => mapM maxOfLayer (gW data)
  end.


End NetworkDiagram.
End NetworkDiagram.

(** The component [DecisionCanvas]: the numbers it draws with (the colours
    apart). [predict] is the function the app passes, [predictBatch]. *)
Module DecisionCanvas.
Section DecisionCanvas.
Context {num : Type} `{!Number num} `{!NumberUI num}.
Local Open Scope js_scope.
Variable data : list (point num).
Variable predict : list (num * num) -> option (list num).
Variables width height padding : num.

Definition xs : list num := map p_x data.
Definition ys : list num := map p_y data.
Definition xmin : num := Math_min_of xs - lit 0.5.
Definition xmax : num := Math_max_of xs + lit 0.5.
Definition ymin : num := Math_min_of ys - lit 0.5.
Definition ymax : num := Math_max_of ys + lit 0.5.

Definition x2sx (x : num) : num :=
  padding + ((x - xmin) / (xmax - xmin)) * (width - lit 2 * padding).
Definition y2sy (y : num) : num :=
  height - padding - ((y - ymin) / (ymax - ymin)) * (height - lit 2 * padding).

Definition nx : nat := 90.
Definition ny : nat := 60.

(** The centre of the cell [(i, j)] of the grid. *)
Definition gx (i : nat) : num := xmin + ((of_nat i + lit 0.5) * (xmax - xmin)) / of_nat nx.
Definition gy (j : nat) : num := ymin + ((of_nat j + lit 0.5) * (ymax - ymin)) / of_nat ny.

(** The array [grid]: the cells column by column, each with the
    prediction at its centre. *)
Definition grid : option (list (num * num * num)) :=
  for_up 0 nx (fun i (grid : list (num * num * num)) =>
      for_up 0 ny (fun j (grid : list (num * num * num)) =>
          preds ← predict [(gx i, gy j)];
          p ← preds !! 0%nat;
          Some (grid ++ [(gx i, gy j, p)])) grid) [].

(** The rectangle drawn for a cell with the centre [(cx, cy)]. *)
Definition rect_x (cx : num) : num := x2sx cx - (width - lit 2 * padding) / lit 90 / lit 2.
Definition rect_y (cy : num) : num := y2sy cy - (height - lit 2 * padding) / lit 60 / lit 2.
Definition rect_width : num := (width - lit 2 * padding) / lit 90.
Definition rect_height : num := (height - lit 2 * padding) / lit 60.
End DecisionCanvas.
End DecisionCanvas.

(* ================================================================== *)
(** * Properties *)

(* ------------------------------------------------------------------ *)
(** ** Loops *)

(** The rule of a counting loop: an invariant that every iteration keeps,
    and that makes every iteration return, holds when the loop ends. *)
Lemma for_up_inv {S : Type} (P : nat -> S -> Prop) (cnt : nat) :
  forall (lo : nat) (body : nat -> S -> option S) (s : S),
    P lo s ->
    (forall i s, (lo <= i < lo + cnt)%nat -> P i s ->
       exists s', body i s = Some s' /\ P (Datatypes.S i) s') ->
    exists s', for_up lo cnt body s = Some s' /\ P (lo + cnt)%nat s'.
Proof.
  induction cnt as [|k IH]; intros lo body s Hs Hbody; simpl.
  - exists s. rewrite Nat.add_0_r. auto.
  - destruct (Hbody lo s) as (s1 & E1 & P1); [lia | assumption |].
    rewrite E1. simpl.
    destruct (IH (Datatypes.S lo) body s1 P1) as (s2 & E2 & P2).
    { intros i s' Hi. apply Hbody. lia. }
    exists s2. split; [exact E2|].
    replace (lo + Datatypes.S k)%nat with (Datatypes.S lo + k)%nat by lia.
    exact P2.
Qed.

(** The same for a loop that counts down to 0. *)
Lemma for_down_inv {S : Type} (P : nat -> S -> Prop) (cnt : nat) :
  forall (body : nat -> S -> option S) (s : S),
    P cnt s ->
    (forall i s, (i < cnt)%nat -> P (Datatypes.S i) s ->
       exists s', body i s = Some s' /\ P i s') ->
    exists s', for_down cnt body s = Some s' /\ P 0%nat s'.
Proof.
  induction cnt as [|k IH]; intros body s Hs Hbody; simpl.
  - exists s. auto.
  - destruct (Hbody k s) as (s1 & E1 & P1); [lia | assumption |].
    rewrite E1. simpl.
    apply IH; [exact P1|]. intros i s' Hi. apply Hbody. lia.
Qed.

Lemma for_up_ext {S : Type} (cnt : nat) :
  forall (lo : nat) (body body' : nat -> S -> option S) (s : S),
    (forall i s, (lo <= i < lo + cnt)%nat -> body i s = body' i s) ->
    for_up lo cnt body s = for_up lo cnt body' s.
Proof.
  induction cnt as [|k IH]; intros lo body body' s E; simpl; [reflexivity|].
  rewrite (E lo s) by lia. destruct (body' lo s) as [s1|]; simpl; [|reflexivity].
  apply IH. intros i s' Hi. apply E. lia.
Qed.

(* ------------------------------------------------------------------ *)
(** ** The seeded uniform generator *)

Lemma seededRandom_bounds (seed : Z) :
  (0 <= seededRandom seed < 2147483647)%Z.
Proof.
  unfold seededRandom.
  assert (Habs : (- 2147483647 < Z.rem seed 2147483647 < 2147483647)%Z).
  { destruct (Z.le_gt_cases 0 seed) as [Hs|Hs].
    - pose proof (Z.rem_bound_pos seed 2147483647 Hs ltac:(lia)). lia.
    - pose proof (Z.rem_bound_pos (- seed) 2147483647 ltac:(lia) ltac:(lia)) as Hn.
      rewrite Z.rem_opp_l in Hn by lia. lia. }
  destruct (Z.leb_spec (Z.rem seed 2147483647) 0); lia.
Qed.

Lemma seededRandom_zero_iff (seed : Z) :
  seededRandom seed = 0%Z <-> Z.rem seed 2147483647 = (-2147483646)%Z.
Proof.
  unfold seededRandom.
  destruct (Z.leb_spec (Z.rem seed 2147483647) 0); lia.
Qed.

(** The multiplier is invertible modulo the modulus, so the recurrence
    never reaches 0 from a state in [(0, modulus)]. *)
Lemma rng_state_pos (s : Z) :
  (0 < s < 2147483647)%Z -> (0 < rng_state s < 2147483647)%Z.
Proof.
  intros Hs. unfold rng_state.
  rewrite Z.rem_mod_nonneg by lia.
  pose proof (Z.mod_pos_bound (s * 16807) 2147483647 ltac:(lia)) as Hb.
  assert (Hnz : ((s * 16807) mod 2147483647 <> 0)%Z); [|lia].
  intros Hz.
  apply Z.mod_divide in Hz; [|lia].
  destruct Hz as [q Hq].
  assert (E : (s = 2147483647 * (q * 1407677000 - s * 11017)%Z)%Z) by lia.
  assert (0 < q * 1407677000 - s * 11017)%Z by lia.
  lia.
Qed.

Lemma rng_state_zero : rng_state 0 = 0%Z.
Proof. reflexivity. Qed.

Lemma rng_iter_pos (k : nat) :
  forall s, (0 < s < 2147483647)%Z -> (0 < rng_iter k s < 2147483647)%Z.
Proof.
  induction k as [|k IH]; intros s Hs; simpl; [exact Hs|].
  apply IH, rng_state_pos, Hs.
Qed.

Lemma rng_iter_zero (k : nat) : rng_iter k 0 = 0%Z.
Proof. induction k as [|k IH]; simpl; [reflexivity | exact IH]. Qed.

Lemma rng_iter_succ (k : nat) :
  forall s, rng_iter (Datatypes.S k) s = rng_state (rng_iter k s).
Proof. induction k as [|k IH]; intros s; simpl; [reflexivity|]. apply (IH (rng_state s)). Qed.

Section RealRng.
#[local] Existing Instance real_number.
Local Open Scope R_scope.

Lemma int_real (z : Z) : int z = IZR z.
Proof. unfold int. simpl. unfold Q2R. simpl. rewrite Rinv_1. ring. Qed.

Lemma rng_real (s : Z) :
  fst (rng s) = IZR (rng_state s) / 2147483647.
Proof. unfold rng. cbv zeta. cbn [fst]. rewrite !int_real. reflexivity. Qed.

(** From every state in [(0, modulus)] the generator returns a number
    strictly between 0 and 1. *)
Lemma rng_unit_interval (s : Z) :
  (0 < s < 2147483647)%Z -> 0 < fst (rng s) < 1.
Proof.
  intros Hs. rewrite rng_real.
  destruct (rng_state_pos s Hs) as [Hlo Hhi].
  apply IZR_lt in Hlo. apply IZR_lt in Hhi.
  split.
  - apply Rdiv_lt_0_compat; lra.
  - apply Rmult_lt_reg_r with 2147483647; [lra|].
    unfold Rdiv. rewrite Rmult_assoc, Rinv_l by lra. lra.
Qed.

(** X1. For every integer seed but those whose remainder is [-2147483646],
    the seed is normalised into [(0, modulus)], every call applies the
    recurrence, and every returned number lies strictly in [(0,1)]. *)
Lemma rng_output_unit_interval (seed : Z) (k : nat) :
  Z.rem seed 2147483647 <> (-2147483646)%Z ->
  (0 < seededRandom seed < 2147483647)%Z /\
  rng_output seed k = IZR (rng_state (rng_iter k (seededRandom seed))) / 2147483647 /\
  0 < rng_output seed k < 1.
Proof.
  intros Hseed.
  assert (H0 : (0 < seededRandom seed < 2147483647)%Z).
  { pose proof (seededRandom_bounds seed) as Hb.
    pose proof (seededRandom_zero_iff seed) as Hz.
    assert (seededRandom seed <> 0%Z) by tauto. lia. }
  split; [exact H0|]. unfold rng_output. split.
  - apply rng_real.
  - apply rng_unit_interval, rng_iter_pos, H0.
Qed.

(** C7, at the seed [-2147483646]: [seed % 2147483647] is [-2147483646],
    the normalisation [s += 2147483646] leaves the state 0, outside
    [(0, modulus)]; the recurrence keeps it at 0 and every call returns 0,
    which is not strictly inside [(0,1)]. *)
Theorem seededRandom_stuck_at_zero :
  seededRandom (-2147483646) = 0%Z /\
  forall k : nat,
    rng_iter k (seededRandom (-2147483646)) = 0%Z /\
    rng_output (-2147483646) k = 0 /\
    ~ (0 < rng_output (-2147483646) k < 1).
Proof.
  assert (E : seededRandom (-2147483646) = 0%Z) by reflexivity.
  split; [exact E|]. intros k.
  assert (Eo : rng_output (-2147483646) k = 0).
  { unfold rng_output. rewrite rng_real, E, rng_iter_zero, rng_state_zero.
    unfold Rdiv. ring. }
  split; [rewrite E; apply rng_iter_zero|].
  split; [exact Eo|]. rewrite Eo. lra.
Qed.
End RealRng.

(* ------------------------------------------------------------------ *)
(** ** [Math.random] and [randn] *)

Section RandomFacts.
Context {num : Type} `{!Number num}.

Lemma nonzero_draws_cons (u : num) (src : list num) :
  nonzero_draws (u :: src) =
  if strict_eq u zero then nonzero_draws src else Datatypes.S (nonzero_draws src).
Proof.
  unfold nonzero_draws. rewrite filter_cons.
  destruct (strict_eq u zero) eqn:E.
  - destruct (decide (true = false)) as [Hd|Hd]; [discriminate | reflexivity].
  - destruct (decide (false = false)) as [Hd|Hd]; [reflexivity | congruence].
Qed.

(** The rejection loop of [randn] returns as soon as a non-zero value
    comes, and uses up exactly one non-zero value. *)
Lemma Math_random_nonzero_some (src : list num) :
  (1 <= nonzero_draws src)%nat ->
  exists u rest, Math_random_nonzero src = Some (u, rest) /\
                 nonzero_draws rest = (nonzero_draws src - 1)%nat.
Proof.
  induction src as [|u src IH]; intros Hn.
  - unfold nonzero_draws in Hn. simpl in Hn. lia.
  - rewrite nonzero_draws_cons in *. simpl.
    destruct (strict_eq u zero).
    + apply IH, Hn.
    + exists u, src. split; [reflexivity | lia].
Qed.

Lemma randn_some (src : list num) :
  (2 <= nonzero_draws src)%nat ->
  exists g rest, randn src = Some (g, rest) /\
                 nonzero_draws rest = (nonzero_draws src - 2)%nat.
Proof.
  intros Hn. unfold randn, rbind, rret.
  destruct (Math_random_nonzero_some src) as (u & r1 & E1 & N1); [lia|].
  destruct (Math_random_nonzero_some r1) as (v & r2 & E2 & N2); [lia|].
  rewrite E1, E2. eexists _, r2. split; [reflexivity | lia].
Qed.

Lemma nonzero_values_cons (u : num) (src : list num) :
  nonzero_values (u :: src) =
  if strict_eq u zero then nonzero_values src else u :: nonzero_values src.
Proof.
  unfold nonzero_values. rewrite filter_cons.
  destruct (strict_eq u zero) eqn:E.
  - destruct (decide (true = false)) as [Hd|Hd]; [discriminate | reflexivity].
  - destruct (decide (false = false)) as [Hd|Hd]; [reflexivity | congruence].
Qed.

Lemma nth_drop_values {A : Type} (m i : nat) (l : list A) (d : A) :
  nth i (drop m l) d = nth (m + i) l d.
Proof.
  revert l. induction m as [|m IH]; intros l; [reflexivity|].
  destruct l as [|a l]; [destruct i; reflexivity|]. simpl. apply IH.
Qed.

(** The rejection loop returns the first of the non-zero values that are
    to come, and leaves the others. *)
Lemma Math_random_nonzero_value (src : list num) :
  (1 <= nonzero_draws src)%nat ->
  exists rest, Math_random_nonzero src = Some (nth 0 (nonzero_values src) zero, rest) /\
               nonzero_values rest = drop 1 (nonzero_values src).
Proof.
  induction src as [|u src IH]; intros Hn.
  - unfold nonzero_draws in Hn. simpl in Hn. lia.
  - rewrite nonzero_draws_cons in Hn. rewrite nonzero_values_cons. simpl.
    destruct (strict_eq u zero).
    + apply IH, Hn.
    + exists src. split; reflexivity.
Qed.

(** A call of [randn] returns the Box-Muller number of the first two
    non-zero values that are to come, and leaves the others. *)
Lemma randn_value_spec (src : list num) :
  (2 <= nonzero_draws src)%nat ->
  exists rest, randn src = Some (randn_value src 0, rest) /\
               nonzero_values rest = drop 2 (nonzero_values src) /\
               nonzero_draws rest = (nonzero_draws src - 2)%nat.
Proof.
  intros Hn. unfold randn, rbind, rret.
  destruct (Math_random_nonzero_value src) as (r1 & E1 & V1); [lia|].
  assert (N1 : nonzero_draws r1 = (nonzero_draws src - 1)%nat).
  { unfold nonzero_draws. fold (nonzero_values r1). fold (nonzero_values src).
    rewrite V1, length_drop. reflexivity. }
  destruct (Math_random_nonzero_value r1) as (r2 & E2 & V2); [lia|].
  rewrite E1, E2. exists r2.
  assert (V : nonzero_values r2 = drop 2 (nonzero_values src)).
  { rewrite V2, V1, drop_drop. reflexivity. }
  split; [|split; [exact V|]].
  - unfold randn_value, box_muller. rewrite V1, nth_drop_values. reflexivity.
  - unfold nonzero_draws. fold (nonzero_values r2). fold (nonzero_values src).
    rewrite V, length_drop. reflexivity.
Qed.

(** After [m] calls of [randn], the call [j] from here is the call
    [m + j] from the start. *)
Lemma randn_value_drop (src src' : list num) (m j : nat) :
  nonzero_values src' = drop (2 * m) (nonzero_values src) ->
  randn_value src' j = randn_value src (m + j).
Proof.
  intros V. unfold randn_value. rewrite V, !nth_drop_values.
  replace (2 * m + 2 * j)%nat with (2 * (m + j))%nat by lia.
  replace (2 * m + (2 * j + 1))%nat with (2 * (m + j) + 1)%nat by lia.
  reflexivity.
Qed.

(** One more call of [randn]: what it returns and what it leaves. *)
Lemma randn_next (src src' : list num) (m : nat) :
  nonzero_values src' = drop (2 * m) (nonzero_values src) ->
  (2 <= nonzero_draws src')%nat ->
  exists rest, randn src' = Some (randn_value src m, rest) /\
               nonzero_values rest = drop (2 * (m + 1)) (nonzero_values src) /\
               nonzero_draws rest = (nonzero_draws src' - 2)%nat.
Proof.
  intros V Hn. destruct (randn_value_spec src' Hn) as (rest & E & V' & N).
  exists rest. rewrite (randn_value_drop src src' m 0 V), Nat.add_0_r in E.
  split; [exact E|]. split; [|exact N].
  rewrite V', V, drop_drop. f_equal. lia.
Qed.

(** A loop that appends one point per iteration, reading [c] non-zero
    values of [Math.random()] each time: [proj] is the array [pts] inside
    the loop state. *)
Lemma push_loop {S : Type} (proj : S -> list (point num))
    (Q : point num -> Prop) (c : nat) (body : nat -> S -> Rand num S)
    (n : nat) :
  (forall i st src, (c <= nonzero_draws src)%nat ->
     exists st' rest p, body i st src = Some (st', rest) /\
       proj st' = proj st ++ [p] /\ Q p /\
       nonzero_draws rest = (nonzero_draws src - c)%nat) ->
  forall st src, (c * n <= nonzero_draws src)%nat ->
    exists st' rest pts, for_rand 0 n body st src = Some (st', rest) /\
      proj st' = proj st ++ pts /\ length pts = n /\ Forall Q pts /\
      nonzero_draws rest = (nonzero_draws src - c * n)%nat.
Proof.
  intros Hbody st src Hn. unfold for_rand.
  destruct (for_up_inv
    (fun i (s : S * list num) =>
       exists pts, proj (fst s) = proj st ++ pts /\ length pts = i /\
         Forall Q pts /\
         nonzero_draws (snd s) = (nonzero_draws src - c * i)%nat)
    n 0 (fun i s => body i (fst s) (snd s)) (st, src))
    as ([st' rest] & E & pts & Hp & Hl & HQ & Hr).
  - exists []. simpl. rewrite app_nil_r. repeat split; [constructor | lia].
  - intros i [s1 src1] Hi (pts & Hp & Hl & HQ & Hr). simpl in *.
    destruct (Hbody i s1 src1) as (s2 & r2 & p & E2 & Hp2 & Hq & Hr2); [nia|].
    exists (s2, r2). split; [exact E2|]. exists (pts ++ [p]). simpl.
    rewrite Hp2, Hp, app_assoc, length_app. simpl.
    repeat split; [lia | apply Forall_app; split; [exact HQ | repeat constructor; exact Hq] | nia].
  - exists st', rest, pts. simpl in *. auto.
Qed.
End RandomFacts.

(* ------------------------------------------------------------------ *)
(** ** The dataset generators *)

Section GenFacts.
Context {num : Type} `{!Number num}.

(** One iteration of a generator loop: it reads the seeded generator,
    calls [randn] once or twice and appends one point. *)
Ltac one_randn src Hn :=
  let g := fresh "g" in let r := fresh "r" in
  let E := fresh "E" in let N := fresh "N" in
  destruct (randn_some src) as (g & r & E & N); [lia|];
  unfold rbind at 1; rewrite E.

Ltac finish_iteration :=
  unfold rret; eexists _, _, _; split; [reflexivity|]; simpl;
  split; [reflexivity|]; split; [|lia].

Lemma moons_points (n : nat) (noise : num) (seed : Z) (src : list num) :
  (8 * n <= nonzero_draws src)%nat ->
  exists ds rest, gen.moons n noise seed src = Some (ds, rest) /\
    length (points ds) = (2 * n)%nat /\ Forall binary_label (points ds).
Proof.
  intros Hn. unfold gen.moons.
  match goal with |- context [rbind (for_rand 0 n ?b ?s0)] =>
    destruct (push_loop fst binary_label 4 b n) with (st := s0) (src := src)
      as (st1 & r1 & pts1 & E1 & P1 & L1 & Q1 & N1) end.
  { intros i [pts s] src' Hs. destruct (rng s) as [u s'].
    one_randn src' Hs. one_randn r Hs. finish_iteration. left; reflexivity. }
  { lia. }
  unfold rbind at 1. rewrite E1.
  match goal with |- context [rbind (for_rand 0 n ?b st1)] =>
    destruct (push_loop fst binary_label 4 b n) with (st := st1) (src := r1)
      as (st2 & r2 & pts2 & E2 & P2 & L2 & Q2 & N2) end.
  { intros i [pts s] src' Hs. destruct (rng s) as [u s'].
    one_randn src' Hs. one_randn r Hs. finish_iteration. right; reflexivity. }
  { lia. }
  unfold rbind at 1. rewrite E2. unfold rret. eexists _, _.
  split; [reflexivity|]. simpl in *. rewrite P2, P1. simpl.
  rewrite length_app. split; [lia|]. apply Forall_app; auto.
Qed.

Lemma circles_points (n : nat) (noise : num) (src : list num) :
  (4 * n <= nonzero_draws src)%nat ->
  exists ds rest, gen.circles n noise src = Some (ds, rest) /\
    length (points ds) = (2 * n)%nat /\ Forall binary_label (points ds).
Proof.
  intros Hn. unfold gen.circles.
  match goal with |- context [rbind (for_rand 0 n ?b ?s0)] =>
    destruct (push_loop (fun pts => pts) binary_label 2 b n) with (st := s0) (src := src)
      as (st1 & r1 & pts1 & E1 & P1 & L1 & Q1 & N1) end.
  { intros i pts src' Hs.
    one_randn src' Hs. finish_iteration. left; reflexivity. }
  { lia. }
  unfold rbind at 1. rewrite E1.
  match goal with |- context [rbind (for_rand 0 n ?b st1)] =>
    destruct (push_loop (fun pts => pts) binary_label 2 b n) with (st := st1) (src := r1)
      as (st2 & r2 & pts2 & E2 & P2 & L2 & Q2 & N2) end.
  { intros i pts src' Hs.
    one_randn src' Hs. finish_iteration. right; reflexivity. }
  { lia. }
  unfold rbind at 1. rewrite E2. unfold rret. eexists _, _.
  split; [reflexivity|]. simpl in *. rewrite P2, P1. simpl.
  rewrite length_app. split; [lia|]. apply Forall_app; auto.
Qed.

Lemma spirals_points (n : nat) (noise : num) (src : list num) :
  (8 * n <= nonzero_draws src)%nat ->
  exists ds rest, gen.spirals n noise src = Some (ds, rest) /\
    length (points ds) = (2 * n)%nat /\ Forall binary_label (points ds).
Proof.
  intros Hn. unfold gen.spirals.
  match goal with |- context [rbind (for_rand 0 n ?b ?s0)] =>
    destruct (push_loop (fun pts => pts) binary_label 4 b n) with (st := s0) (src := src)
      as (st1 & r1 & pts1 & E1 & P1 & L1 & Q1 & N1) end.
  { intros i pts src' Hs.
    one_randn src' Hs. one_randn r Hs. finish_iteration. left; reflexivity. }
  { lia. }
  unfold rbind at 1. rewrite E1.
  match goal with |- context [rbind (for_rand 0 n ?b st1)] =>
    destruct (push_loop (fun pts => pts) binary_label 4 b n) with (st := st1) (src := r1)
      as (st2 & r2 & pts2 & E2 & P2 & L2 & Q2 & N2) end.
  { intros i pts src' Hs.
    one_randn src' Hs. one_randn r Hs. finish_iteration. right; reflexivity. }
  { lia. }
  unfold rbind at 1. rewrite E2. unfold rret. eexists _, _.
  split; [reflexivity|]. simpl in *. rewrite P2, P1. simpl.
  rewrite length_app. split; [lia|]. apply Forall_app; auto.
Qed.

Lemma sinc_points (n : nat) (noise : num) (seed : Z) (src : list num) :
  (2 * n <= nonzero_draws src)%nat ->
  exists ds rest, gen.sinc n noise seed src = Some (ds, rest) /\
    length (points ds) = n.
Proof.
  intros Hn. unfold gen.sinc.
  match goal with |- context [rbind (for_rand 0 n ?b ?s0)] =>
    destruct (push_loop fst (fun _ => True) 2 b n) with (st := s0) (src := src)
      as (st1 & r1 & pts1 & E1 & P1 & L1 & Q1 & N1) end.
  { intros i [pts s] src' Hs.
    destruct (rng s) as [u s']. destruct (rng s') as [u' s''].
    one_randn src' Hs. finish_iteration. exact I. }
  { lia. }
  unfold rbind at 1. rewrite E1. unfold rret. eexists _, _.
  split; [reflexivity|]. simpl in *. rewrite P1. exact L1.
Qed.

Lemma plane_points (n : nat) (noise : num) (seed : Z) (src : list num) :
  (2 * n <= nonzero_draws src)%nat ->
  exists ds rest, gen.plane n noise seed src = Some (ds, rest) /\
    length (points ds) = n.
Proof.
  intros Hn. unfold gen.plane.
  match goal with |- context [rbind (for_rand 0 n ?b ?s0)] =>
    destruct (push_loop fst (fun _ => True) 2 b n) with (st := s0) (src := src)
      as (st1 & r1 & pts1 & E1 & P1 & L1 & Q1 & N1) end.
  { intros i [pts s] src' Hs.
    destruct (rng s) as [u s']. destruct (rng s') as [u' s''].
    one_randn src' Hs. finish_iteration. exact I. }
  { lia. }
  unfold rbind at 1. rewrite E1. unfold rret. eexists _, _.
  split; [reflexivity|]. simpl in *. rewrite P1. exact L1.
Qed.
End GenFacts.

Section XorFacts.
Context {num : Type} `{!Number num}.
Local Open Scope js_scope.

Lemma randn_cons2 (u v : num) (rest : list num) :
  strict_eq u zero = false -> strict_eq v zero = false ->
  randn (u :: v :: rest) = Some (box_muller u v, rest).
Proof.
  intros Hu Hv. unfold randn, rbind, rret. simpl. rewrite Hu. simpl.
  rewrite Hv. reflexivity.
Qed.

(** [xor] returns [n] points; the [k]-th one carries the label and the
    coordinates that the seeded generator fixes, the coordinates moved by
    the jitter of the calls [2 * k] and [2 * k + 1] of [randn]. *)
Lemma xor_spec (n : nat) (noise : num) (seed : Z) (src : list num) :
  (4 * n <= nonzero_draws src)%nat ->
  exists ds rest, gen.xor n noise seed src = Some (ds, rest) /\
    length (points ds) = n /\
    forall k, (k < n)%nat ->
      exists p, points ds !! k = Some p /\ xor_point seed noise src k p.
Proof.
  intros Hn. unfold gen.xor.
  match goal with |- context [rbind (for_rand 0 n ?b ?s0)] =>
    destruct (for_up_inv
      (fun i (st : (list (point num) * Z) * list num) =>
         snd (fst st) = rng_iter (2 * i) (seededRandom seed) /\
         length (fst (fst st)) = i /\
         (forall k, (k < i)%nat ->
            exists p, fst (fst st) !! k = Some p /\ xor_point seed noise src k p) /\
         nonzero_values (snd st) = drop (2 * (2 * i)) (nonzero_values src) /\
         nonzero_draws (snd st) = (nonzero_draws src - 4 * i)%nat)
      n 0 (fun i st => b i (fst st) (snd st)) (s0, src))
      as ([[pts s] rest] & E & Hs & Hl & Hp & Hv & Hr) end.
  - simpl. repeat split; [intros k Hk; lia | lia].
  - intros i [[pts s] src'] Hi (Hs & Hl & Hp & Hv & Hr).
    cbn [fst snd] in Hs, Hl, Hp, Hv, Hr.
    cbn [fst snd]. unfold rng at 1 2. cbv zeta.
    destruct (randn_next src src' (2 * i) Hv) as (r1 & E1 & V1 & N1); [lia|].
    destruct (randn_next src r1 (2 * i + 1) V1) as (r2 & E2 & V2 & N2); [lia|].
    unfold rbind. rewrite E1, E2. unfold rret.
    eexists. split; [reflexivity|]. cbn [fst snd].
    assert (Es1 : rng_state s = rng_iter (2 * i + 1) (seededRandom seed)).
    { rewrite Nat.add_1_r, rng_iter_succ, Hs. reflexivity. }
    split.
    { replace (2 * Datatypes.S i)%nat with (Datatypes.S (2 * i + 1)) by lia.
      rewrite rng_iter_succ, <- Es1. reflexivity. }
    split; [rewrite length_app; simpl; lia|].
    split; [|split; [rewrite V2; f_equal; lia | lia]].
    intros k Hk. destruct (decide (k = i)) as [->|Hne].
    + eexists. split.
      { rewrite lookup_app_r by lia. rewrite Hl, Nat.sub_diag. reflexivity. }
      unfold xor_point, xor_t, xor_x, xor_y, rng_output, rng. cbv zeta.
      cbn [fst snd p_x p_y p_t]. rewrite <- Hs, <- Es1.
      split; [reflexivity|]. split; reflexivity.
    + destruct (Hp k) as (p & Ek & Hk'); [lia|].
      exists p. split; [|exact Hk'].
      rewrite lookup_app_l by lia. exact Ek.
  - unfold for_rand, rbind at 1. rewrite E. unfold rret.
    eexists _, _. split; [reflexivity|]. simpl in *. auto.
Qed.

(** The labels of [xor] are the seeded ones, in order. *)
Lemma xor_labels (seed : Z) (noise : num) (src : list num) (pts : list (point num)) :
  (forall k, (k < length pts)%nat ->
     exists p, pts !! k = Some p /\ xor_point seed noise src k p) ->
  map p_t pts = map (xor_t seed) (seq 0 (length pts)).
Proof.
  intros Hp. apply list_eq. intros k.
  rewrite !list_lookup_fmap.
  destruct (decide (k < length pts)%nat) as [Hk|Hk].
  - destruct (Hp k Hk) as (p & Ek & Ht & _). rewrite Ek. simpl.
    rewrite lookup_seq_lt by exact Hk. simpl. rewrite Ht. reflexivity.
  - rewrite lookup_ge_None_2 by lia.
    rewrite lookup_seq_ge by lia. reflexivity.
Qed.
End XorFacts.

Section XorOne.
Context {num : Type} `{!Number num}.
Local Open Scope js_scope.

(** [xor] asked for one point, on four non-zero values of
    [Math.random()]. *)
Lemma xor_one (noise : num) (seed : Z) (u1 v1 u2 v2 : num) :
  strict_eq u1 zero = false -> strict_eq v1 zero = false ->
  strict_eq u2 zero = false -> strict_eq v2 zero = false ->
  gen.xor 1 noise seed [u1; v1; u2; v2] =
  Some ({| ds_name := "XOR checkerboard (classification)";
           ds_task := classification;
           points := [ {| p_x := xor_x seed 0 + box_muller u1 v1 * noise;
                          p_y := xor_y seed 0 + box_muller u2 v2 * noise;
                          p_t := xor_t seed 0 |} ] |}, []).
Proof.
  intros Hu1 Hv1 Hu2 Hv2.
  unfold gen.xor, for_rand, rbind at 1. cbn [for_up fst snd mbind option_bind].
  unfold rng at 1 2. cbv zeta. unfold rbind at 1.
  rewrite (randn_cons2 u1 v1 [u2; v2] Hu1 Hv1).
  unfold rbind at 1. rewrite (randn_cons2 u2 v2 [] Hu2 Hv2).
  reflexivity.
Qed.
End XorOne.

Section RealDatasets.
#[local] Existing Instance real_number.
Local Open Scope R_scope.

Lemma zero_real : zero = 0.
Proof. unfold zero. simpl. unfold Q2R. simpl. ring. Qed.

Lemma one_real : one = 1.
Proof. unfold one. simpl. unfold Q2R. simpl. rewrite Rinv_1. ring. Qed.

Lemma strict_eq_real_false (a : R) : a <> 0 -> strict_eq a zero = false.
Proof.
  intros Ha. rewrite zero_real. simpl.
  destruct (Req_dec_T a 0) as [E|E]; [contradiction | reflexivity].
Qed.

Lemma nonzero_draws_half (k : nat) : nonzero_draws (repeat (/ 2) k) = k.
Proof.
  induction k as [|k IH]; [reflexivity|].
  simpl repeat. rewrite nonzero_draws_cons, strict_eq_real_false, IH by lra.
  reflexivity.
Qed.

Lemma box_muller_quarter : box_muller (/ 2) (/ 4) = 0.
Proof.
  unfold box_muller. simpl. unfold Q2R. simpl.
  replace (2 * / 1 * PI * / 4) with (PI / 2) by field.
  rewrite cos_PI2. ring.
Qed.

Lemma box_muller_half : box_muller (/ 2) (/ 2) < 0.
Proof.
  unfold box_muller. simpl. unfold Q2R. simpl.
  replace (2 * / 1 * PI * / 2) with PI by field.
  rewrite cos_PI, ln_Rinv by lra.
  replace (- (2 * / 1) * - ln 2) with (2 * ln 2) by field.
  pose proof ln_lt_2 as Hln.
  assert (0 < sqrt (2 * ln 2)) by (apply sqrt_lt_R0; lra).
  lra.
Qed.
End RealDatasets.

(* ------------------------------------------------------------------ *)
(** ** The order of the classes *)

Section GenOrder.
Context {num : Type} `{!Number num}.

Ltac read_randn src Hn :=
  let g := fresh "g" in let r := fresh "r" in
  let E := fresh "E" in let N := fresh "N" in
  destruct (randn_some src) as (g & r & E & N); [lia|];
  unfold rbind at 1; rewrite E.

Ltac close_iteration :=
  unfold rret; eexists _, _, _; split; [reflexivity|]; simpl;
  split; [reflexivity|]; split; [|lia].

Lemma labels_constant (c : num) (pts : list (point num)) :
  Forall (fun p => p_t p = c) pts -> map p_t pts = replicate (length pts) c.
Proof.
  intros Q. induction Q as [|p pts E _ IH]; simpl; [reflexivity|].
  rewrite E, IH. reflexivity.
Qed.

Lemma labels_of_two_loops (n : nat) (pts1 pts2 : list (point num)) :
  length pts1 = n -> length pts2 = n ->
  Forall (fun p => p_t p = zero) pts1 -> Forall (fun p => p_t p = one) pts2 ->
  map p_t (pts1 ++ pts2) = replicate n zero ++ replicate n one.
Proof.
  intros L1 L2 Q1 Q2.
  rewrite map_app, (labels_constant zero pts1 Q1), (labels_constant one pts2 Q2), L1, L2.
  reflexivity.
Qed.

Lemma moons_classes (n : nat) (noise : num) (seed : Z) (src : list num) :
  (8 * n <= nonzero_draws src)%nat ->
  exists ds rest, gen.moons n noise seed src = Some (ds, rest) /\
    map p_t (points ds) = replicate n zero ++ replicate n one.
Proof.
  intros Hn.
  unfold gen.moons.
  match goal with |- context [rbind (for_rand 0 n ?b ?s0)] =>
    destruct (push_loop fst (fun p => p_t p = zero) 4 b n) with (st := s0) (src := src)
      as (st1 & r1 & pts1 & E1 & P1 & L1 & Q1 & N1) end.
  { intros i [pts s] src' Hs. destruct (rng s) as [u s'].
    read_randn src' Hs. read_randn r Hs. close_iteration. reflexivity. }
  { lia. }
  unfold rbind at 1. rewrite E1.
  match goal with |- context [rbind (for_rand 0 n ?b st1)] =>
    destruct (push_loop fst (fun p => p_t p = one) 4 b n) with (st := st1) (src := r1)
      as (st2 & r2 & pts2 & E2 & P2 & L2 & Q2 & N2) end.
  { intros i [pts s] src' Hs. destruct (rng s) as [u s'].
    read_randn src' Hs. read_randn r Hs. close_iteration. reflexivity. }
  { lia. }
  unfold rbind at 1. rewrite E2. unfold rret. eexists _, _.
  split; [reflexivity|]. simpl in *. rewrite P2, P1. simpl.
  apply labels_of_two_loops; assumption.
Qed.

Lemma circles_classes (n : nat) (noise : num) (src : list num) :
  (4 * n <= nonzero_draws src)%nat ->
  exists ds rest, gen.circles n noise src = Some (ds, rest) /\
    map p_t (points ds) = replicate n zero ++ replicate n one.
Proof.
  intros Hn.
  unfold gen.circles.
  match goal with |- context [rbind (for_rand 0 n ?b ?s0)] =>
    destruct (push_loop (fun pts => pts) (fun p => p_t p = zero) 2 b n)
      with (st := s0) (src := src)
      as (st1 & r1 & pts1 & E1 & P1 & L1 & Q1 & N1) end.
  { intros i pts src' Hs.
    read_randn src' Hs. close_iteration. reflexivity. }
  { lia. }
  unfold rbind at 1. rewrite E1.
  match goal with |- context [rbind (for_rand 0 n ?b st1)] =>
    destruct (push_loop (fun pts => pts) (fun p => p_t p = one) 2 b n)
      with (st := st1) (src := r1)
      as (st2 & r2 & pts2 & E2 & P2 & L2 & Q2 & N2) end.
  { intros i pts src' Hs.
    read_randn src' Hs. close_iteration. reflexivity. }
  { lia. }
  unfold rbind at 1. rewrite E2. unfold rret. eexists _, _.
  split; [reflexivity|]. simpl in *. rewrite P2, P1. simpl.
  apply labels_of_two_loops; assumption.
Qed.

Lemma spirals_classes (n : nat) (noise : num) (src : list num) :
  (8 * n <= nonzero_draws src)%nat ->
  exists ds rest, gen.spirals n noise src = Some (ds, rest) /\
    map p_t (points ds) = replicate n zero ++ replicate n one.
Proof.
  intros Hn.
  unfold gen.spirals.
  match goal with |- context [rbind (for_rand 0 n ?b ?s0)] =>
    destruct (push_loop (fun pts => pts) (fun p => p_t p = zero) 4 b n)
      with (st := s0) (src := src)
      as (st1 & r1 & pts1 & E1 & P1 & L1 & Q1 & N1) end.
  { intros i pts src' Hs.
    read_randn src' Hs. read_randn r Hs. close_iteration. reflexivity. }
  { lia. }
  unfold rbind at 1. rewrite E1.
  match goal with |- context [rbind (for_rand 0 n ?b st1)] =>
    destruct (push_loop (fun pts => pts) (fun p => p_t p = one) 4 b n)
      with (st := st1) (src := r1)
      as (st2 & r2 & pts2 & E2 & P2 & L2 & Q2 & N2) end.
  { intros i pts src' Hs.
    read_randn src' Hs. read_randn r Hs. close_iteration. reflexivity. }
  { lia. }
  unfold rbind at 1. rewrite E2. unfold rret. eexists _, _.
  split; [reflexivity|]. simpl in *. rewrite P2, P1. simpl.
  apply labels_of_two_loops; assumption.
Qed.

(** Labels that are [n] times 0 and then [n] times 1 are [2 * n] binary
    labels. *)
Lemma classes_counts (n : nat) (pts : list (point num)) :
  map p_t pts = replicate n zero ++ replicate n one ->
  length pts = (2 * n)%nat /\ Forall binary_label pts.
Proof.
  intros E. split.
  - rewrite <- (length_map p_t), E, length_app, !length_replicate. lia.
  - apply Forall_lookup. intros k p Ek.
    assert (Et : map p_t pts !! k = Some (p_t p)) by (rewrite list_lookup_fmap, Ek; reflexivity).
    rewrite E in Et. apply lookup_app_Some in Et.
    destruct Et as [Et|[_ Et]]; apply lookup_replicate in Et; destruct Et as [Et _];
      [left | right]; exact Et.
Qed.
End GenOrder.

Section DatasetClaims.
Context {num : Type} `{!Number num}.

Lemma xor_points (n : nat) (noise : num) (seed : Z) (src : list num) :
  (4 * n <= nonzero_draws src)%nat ->
  exists ds rest, gen.xor n noise seed src = Some (ds, rest) /\
    length (points ds) = n /\ Forall binary_label (points ds).
Proof.
  intros Hn. destruct (xor_spec n noise seed src Hn) as (ds & rest & E & Hl & Hp).
  exists ds, rest. split; [exact E|]. split; [exact Hl|].
  apply Forall_lookup. intros k p Ek.
  assert (Hk : (k < n)%nat) by (rewrite <- Hl; eapply lookup_lt_Some, Ek).
  destruct (Hp k Hk) as (p' & Ek' & Ht & _).
  assert (p' = p) by congruence. subst p'.
  unfold binary_label. rewrite Ht. unfold xor_t.
  destruct (xorb _ _); [right | left]; reflexivity.
Qed.

(** C9, as amended. Given enough non-zero values of [Math.random()],
    every generator returns; [moons], [circles] and [spirals] emit exactly
    [2 * count] points, [count] per class: the labels are [count] times
    the number 0 followed by [count] times the number 1; [xor] emits
    exactly [count] points, every label being the number 0 or the number
    1; [sinc] and [plane] emit exactly [count] points. *)
Theorem generator_point_counts (n : nat) (noise : num) (seed : Z)
    (src : list num) :
  (8 * n <= nonzero_draws src)%nat ->
  (exists ds rest, gen.moons n noise seed src = Some (ds, rest) /\
     length (points ds) = (2 * n)%nat /\ Forall binary_label (points ds) /\
     map p_t (points ds) = replicate n zero ++ replicate n one) /\
  (exists ds rest, gen.circles n noise src = Some (ds, rest) /\
     length (points ds) = (2 * n)%nat /\ Forall binary_label (points ds) /\
     map p_t (points ds) = replicate n zero ++ replicate n one) /\
  (exists ds rest, gen.spirals n noise src = Some (ds, rest) /\
     length (points ds) = (2 * n)%nat /\ Forall binary_label (points ds) /\
     map p_t (points ds) = replicate n zero ++ replicate n one) /\
  (exists ds rest, gen.xor n noise seed src = Some (ds, rest) /\
     length (points ds) = n /\ Forall binary_label (points ds)) /\
  (exists ds rest, gen.sinc n noise seed src = Some (ds, rest) /\
     length (points ds) = n) /\
  (exists ds rest, gen.plane n noise seed src = Some (ds, rest) /\
     length (points ds) = n).
Proof.
  intros Hn.
  split.
  { destruct (moons_classes n noise seed src Hn) as (ds & rest & E & Hc).
    destruct (classes_counts n (points ds) Hc) as (Hl & Hb). exists ds, rest. auto. }
  split.
  { destruct (circles_classes n noise src) as (ds & rest & E & Hc); [lia|].
    destruct (classes_counts n (points ds) Hc) as (Hl & Hb). exists ds, rest. auto. }
  split.
  { destruct (spirals_classes n noise src Hn) as (ds & rest & E & Hc).
    destruct (classes_counts n (points ds) Hc) as (Hl & Hb). exists ds, rest. auto. }
  split; [apply xor_points; lia|].
  split; [apply sinc_points; lia | apply plane_points; lia].
Qed.

(** C8, as amended. Two [xor] datasets generated with the same
    [(count, noise, seed)], whatever values [src1] and [src2]
    [Math.random()] returns to each, have the same number of points and
    the same labels point for point, the seeded [xor_t seed k], and their
    [k]-th points carry the same seeded coordinates [xor_x seed k] and
    [xor_y seed k], each moved by the jitter [randn() * noise] that its
    own run draws from [Math.random()]: the numbers that the calls
    [2 * k] and [2 * k + 1] of [randn] return on [src1] for the first
    dataset, on [src2] for the second. *)
Theorem xor_seeded_part_reproducible (n : nat) (noise : num) (seed : Z)
    (src1 src2 : list num) :
  (4 * n <= nonzero_draws src1)%nat ->
  (4 * n <= nonzero_draws src2)%nat ->
  exists ds1 rest1 ds2 rest2,
    gen.xor n noise seed src1 = Some (ds1, rest1) /\
    gen.xor n noise seed src2 = Some (ds2, rest2) /\
    length (points ds1) = n /\ length (points ds2) = n /\
    map p_t (points ds1) = map p_t (points ds2) /\
    forall k, (k < n)%nat ->
      exists p1 p2, points ds1 !! k = Some p1 /\ points ds2 !! k = Some p2 /\
        p_t p1 = xor_t seed k /\ p_t p2 = xor_t seed k /\
        (p_x p1 = xor_x seed k + randn_value src1 (2 * k) * noise)%js /\
        (p_y p1 = xor_y seed k + randn_value src1 (2 * k + 1) * noise)%js /\
        (p_x p2 = xor_x seed k + randn_value src2 (2 * k) * noise)%js /\
        (p_y p2 = xor_y seed k + randn_value src2 (2 * k + 1) * noise)%js.
Proof.
  intros H1 H2.
  destruct (xor_spec n noise seed src1 H1) as (ds1 & r1 & E1 & L1 & P1).
  destruct (xor_spec n noise seed src2 H2) as (ds2 & r2 & E2 & L2 & P2).
  exists ds1, r1, ds2, r2. repeat split; try assumption.
  - rewrite (xor_labels seed noise src1 (points ds1)),
      (xor_labels seed noise src2 (points ds2)).
    + rewrite L1, L2. reflexivity.
    + rewrite L2. exact P2.
    + rewrite L1. exact P1.
  - intros k Hk. destruct (P1 k Hk) as (p1 & Ek1 & X1).
    destruct (P2 k Hk) as (p2 & Ek2 & X2).
    exists p1, p2. split; [exact Ek1|]. split; [exact Ek2|].
    destruct X1 as (T1 & A1 & B1). destruct X2 as (T2 & A2 & B2).
    repeat split; assumption.
Qed.
End DatasetClaims.

Section RealDatasetClaims.
#[local] Existing Instance real_number.
Local Open Scope R_scope.

Lemma generator_point_counts_witness :
  (8 * 1 <= nonzero_draws (repeat (/ 2) 8))%nat /\
  exists ds rest, gen.moons 1 (/ 10) 7 (repeat (/ 2) 8) = Some (ds, rest) /\
    length (points ds) = (2 * 1)%nat /\ Forall binary_label (points ds) /\
    map p_t (points ds) = replicate 1 zero ++ replicate 1 one.
Proof.
  assert (Hn : (8 * 1 <= nonzero_draws (repeat (/ 2) 8))%nat)
    by (rewrite nonzero_draws_half; lia).
  split; [exact Hn|].
  exact (proj1 (generator_point_counts 1 (/ 10) 7 (repeat (/ 2) 8) Hn)).
Defined.

(** C9 as stated fails: asked for [count = 1], [xor] emits one point, not
    two. *)
Lemma xor_emits_count_points :
  exists ds rest,
    gen.xor 1 (/ 10) 7 [/ 2; / 2; / 2; / 2] = Some (ds, rest) /\
    length (points ds) = 1%nat /\ length (points ds) <> (2 * 1)%nat.
Proof.
  eexists _, _. split.
  - apply xor_one; apply strict_eq_real_false; lra.
  - simpl. split; [reflexivity | lia].
Qed.

Lemma xor_seeded_part_reproducible_witness :
  exists ds1 rest1 ds2 rest2,
    gen.xor 1 1 7 [/ 2; / 4; / 2; / 4] = Some (ds1, rest1) /\
    gen.xor 1 1 7 (repeat (/ 2) 4) = Some (ds2, rest2) /\
    length (points ds1) = 1%nat /\ length (points ds2) = 1%nat /\
    map p_t (points ds1) = map p_t (points ds2) /\
    forall k, (k < 1)%nat ->
      exists p1 p2, points ds1 !! k = Some p1 /\ points ds2 !! k = Some p2 /\
        p_t p1 = xor_t 7 k /\ p_t p2 = xor_t 7 k /\
        (p_x p1 = xor_x 7 k + randn_value [/ 2; / 4; / 2; / 4] (2 * k) * 1)%js /\
        (p_y p1 = xor_y 7 k + randn_value [/ 2; / 4; / 2; / 4] (2 * k + 1) * 1)%js /\
        (p_x p2 = xor_x 7 k + randn_value (repeat (/ 2) 4) (2 * k) * 1)%js /\
        (p_y p2 = xor_y 7 k + randn_value (repeat (/ 2) 4) (2 * k + 1) * 1)%js.
Proof.
  apply (xor_seeded_part_reproducible 1 1 7 [/ 2; / 4; / 2; / 4] (repeat (/ 2) 4)).
  - rewrite !nonzero_draws_cons, !strict_eq_real_false by lra.
    unfold nonzero_draws. simpl. lia.
  - rewrite nonzero_draws_half. lia.
Defined.

(** C8 as stated fails: with the same [(count, noise, seed) = (1, 1, 7)],
    two runs to which [Math.random()] returns different values give
    points with different coordinates. *)
Lemma xor_jitter_not_reproducible :
  exists ds1 ds2,
    gen.xor 1 1 7 [/ 2; / 4; / 2; / 4] = Some (ds1, []) /\
    gen.xor 1 1 7 [/ 2; / 2; / 2; / 2] = Some (ds2, []) /\
    points ds1 <> points ds2.
Proof.
  eexists _, _. split; [|split].
  - apply xor_one; apply strict_eq_real_false; lra.
  - apply xor_one; apply strict_eq_real_false; lra.
  - cbn [points]. intros E. injection E as Ex _.
    change (xor_x 7 0 + box_muller (/ 2) (/ 4) * 1 =
            xor_x 7 0 + box_muller (/ 2) (/ 2) * 1) in Ex.
    rewrite box_muller_quarter in Ex.
    pose proof box_muller_half as Hneg. lra.
Qed.
End RealDatasetClaims.

(* ------------------------------------------------------------------ *)
(** ** Reads, sums and array fills *)

Lemma bind_Some {A C : Type} (v : A) (k : A -> option C) : (Some v ≫= k) = k v.
Proof. reflexivity. Qed.

Lemma lookup_nth {A : Type} (l : list A) (i : nat) (d : A) :
  (i < length l)%nat -> l !! i = Some (nth i l d).
Proof.
  intros Hi. destruct (lookup_lt_is_Some_2 l i Hi) as [v Ev].
  rewrite Ev. f_equal. symmetry. apply nth_lookup_Some, Ev.
Qed.

(** A loop whose body always returns is a left fold. *)
Lemma for_up_fold {S : Type} (g : nat -> S -> S) (cnt : nat) :
  forall (lo : nat) (body : nat -> S -> option S) (s : S),
    (forall i s, (lo <= i < lo + cnt)%nat -> body i s = Some (g i s)) ->
    for_up lo cnt body s = Some (fold_left (fun s i => g i s) (seq lo cnt) s).
Proof.
  induction cnt as [|k IH]; intros lo body s Hb; simpl; [reflexivity|].
  rewrite Hb by lia. simpl. apply IH. intros i s' Hi. apply Hb. lia.
Qed.

Section Reads.
Context {num : Type} `{!Number num}.

Lemma get2_at2 (m : list (list num)) (l j : nat) :
  (l < length m)%nat -> (j < length (nth l m []))%nat ->
  get2 m l j = Some (at2 m l j).
Proof.
  intros Hl Hj. unfold get2, at2.
  rewrite (lookup_nth m l []) by exact Hl. simpl.
  apply lookup_nth, Hj.
Qed.

Lemma get3_at3 (m : list (list (list num))) (l i j : nat) :
  (l < length m)%nat -> (i < length (nth l m []))%nat ->
  (j < length (nth i (nth l m []) []))%nat ->
  get3 m l i j = Some (at3 m l i j).
Proof.
  intros Hl Hi Hj. unfold get3, at3.
  rewrite (lookup_nth m l []) by exact Hl. simpl.
  rewrite (lookup_nth (nth l m []) i []) by exact Hi. simpl.
  apply lookup_nth, Hj.
Qed.

(** [const v = Array(n).fill(0); for (j < n) v[j] = val(j)] leaves
    [v = [val(0), ..., val(n-1)]]. *)
Lemma for_up_fill (n : nat) (val : nat -> num)
    (body : nat -> list num -> option (list num)) :
  (forall j v, (j < n)%nat -> body j v = Some (<[j := val j]> v)) ->
  for_up 0 n body (replicate n zero) = Some (map val (seq 0 n)).
Proof.
  intros Hb.
  destruct (for_up_inv
    (fun j (v : list num) => v = map val (seq 0 j) ++ replicate (n - j) zero)
    n 0 body (replicate n zero)) as (v & E & Hv).
  - simpl. rewrite Nat.sub_0_r. reflexivity.
  - intros j v Hj ->. rewrite Hb by lia. eexists. split; [reflexivity|].
    replace (n - j)%nat with (Datatypes.S (n - Datatypes.S j)) by lia.
    rewrite seq_S, map_app. simpl.
    rewrite <- app_assoc. simpl.
    rewrite insert_app_r_alt by (rewrite length_map, length_seq; lia).
    rewrite length_map, length_seq, Nat.sub_diag. reflexivity.
  - rewrite E. f_equal. rewrite Hv. simpl. rewrite Nat.sub_diag. simpl.
    apply app_nil_r.
Qed.

Lemma at1_map_seq (val : nat -> num) (n j : nat) :
  (j < n)%nat -> at1 (map val (seq 0 n)) j = val j.
Proof.
  intros Hj. unfold at1.
  rewrite (nth_indep _ zero (val 0%nat)) by (rewrite length_map, length_seq; exact Hj).
  rewrite (map_nth val (seq 0 n) 0%nat j), seq_nth by exact Hj. reflexivity.
Qed.
End Reads.

(* ------------------------------------------------------------------ *)
(** ** Layer sizes *)

Section Sizes.
Variable H : list nat.

Lemma length_sizes_of : length (sizes_of H) = (length H + 2)%nat.
Proof. unfold sizes_of. simpl. rewrite length_app. simpl. lia. Qed.

Lemma depth_eq : depth H = (length H + 1)%nat.
Proof. unfold depth. rewrite length_sizes_of. lia. Qed.

Lemma size_0 : size H 0 = 2%nat.
Proof. reflexivity. Qed.

Lemma size_depth : size H (depth H) = 1%nat.
Proof.
  unfold size. rewrite depth_eq. unfold sizes_of.
  replace (length H + 1)%nat with (Datatypes.S (length H)) by lia. simpl.
  rewrite app_nth2 by lia. rewrite Nat.sub_diag. reflexivity.
Qed.

Lemma sizes_lookup (l : nat) :
  (l <= depth H)%nat -> sizes_of H !! l = Some (size H l).
Proof.
  intros Hl. apply lookup_nth. unfold depth in Hl.
  pose proof length_sizes_of. lia.
Qed.
End Sizes.

(* ------------------------------------------------------------------ *)
(** ** The forward pass *)

Section ForwardFacts.
Context {num : Type} `{!Number num}.
Variable H : list nat.
Variable actFun : activation num.
Variable task : Task.
Local Open Scope js_scope.

Lemma length_layer_z (st : state num) (l : nat) (al : list num) :
  length (layer_z H st l al) = size H (l + 1).
Proof. unfold layer_z. rewrite length_map, length_seq. reflexivity. Qed.

Lemma length_spec_a (st : state num) (x y : num) (l : nat) :
  length (spec_a H actFun task st x y l) = size H l.
Proof.
  destruct l as [|k]; simpl; [reflexivity|].
  rewrite length_map, length_layer_z. f_equal. lia.
Qed.

Lemma length_spec_z (st : state num) (x y : num) (l : nat) :
  length (spec_z H actFun task st x y l) = size H (l + 1).
Proof. apply length_layer_z. Qed.

Lemma map_seq_lookup {A : Type} (g : nat -> A) (n l : nat) :
  (l < n)%nat -> map g (seq 0 n) !! l = Some (g l).
Proof.
  intros Hl. rewrite list_lookup_fmap, lookup_seq_lt by exact Hl. reflexivity.
Qed.

(** On parameters of the right shape, the loop over [j] and [i] of layer
    [l] computes [z[l]] from [a[l]]. *)
Lemma forward_layer (st : state num) (a : list (list num)) (al : list num)
    (l : nat) :
  shape_ok H st -> (l < depth H)%nat ->
  a !! l = Some al -> length al = size H l ->
  for_up 0 (size H (l + 1)) (fun j (zl : list num) =>
      s ← get2 (B st) l j;
      s ← for_up 0 (size H l) (fun i (s : num) =>
          ai ← get2 a l i;
          w ← get3 (W st) l i j;
          Some (s + ai * w)) s;
      Some (<[j := s]> zl)) (replicate (size H (l + 1)) zero)
  = Some (layer_z H st l al).
Proof.
  intros (HW & HB & Hsh) Hl Ha Hal.
  destruct (Hsh l Hl) as (HWl & HWli & HBl).
  apply for_up_fill. intros j zl Hj.
  rewrite get2_at2 by lia. simpl.
  rewrite (for_up_fold (fun i s => s + at1 al i * at3 (W st) l i j)).
  - reflexivity.
  - intros i s Hi.
    assert (Eai : get2 a l i = Some (at1 al i)).
    { unfold get2. rewrite Ha. simpl. apply lookup_nth. lia. }
    rewrite Eai. simpl.
    rewrite get3_at3; [reflexivity | lia | lia |].
    rewrite HWli by lia. exact Hj.
Qed.

(** [forward] returns the activations [a[0..L-1]], the pre-activations
    [z[0..L-2]] and [yhat] that the formulas define. *)
Lemma forward_spec (st : state num) (x y : num) :
  shape_ok H st ->
  forward H actFun task st x y =
  Some {| tr_a := map (spec_a H actFun task st x y) (seq 0 (depth H + 1));
          tr_z := map (spec_z H actFun task st x y) (seq 0 (depth H));
          yhat := spec_yhat H actFun task st x y |}.
Proof.
  intros Hsh. unfold forward. fold (depth H).
  match goal with |- context [for_up 0 (depth H) ?b ?s0] =>
    destruct (for_up_inv
      (fun l (az : list (list num) * list (list num)) =>
         fst az = map (spec_a H actFun task st x y) (seq 0 (l + 1)) /\
         snd az = map (spec_z H actFun task st x y) (seq 0 l))
      (depth H) 0 b s0) as ([a z] & E & Ha & Hz) end.
  - split; reflexivity.
  - intros l [a z] Hl [Ha Hz]. cbn [fst snd] in Ha, Hz. subst a z.
    rewrite (sizes_lookup H l), bind_Some by lia.
    rewrite (sizes_lookup H (l + 1)), bind_Some by lia.
    rewrite (forward_layer st _ (spec_a H actFun task st x y l) l Hsh);
      [| lia | apply map_seq_lookup; lia | apply length_spec_a].
    rewrite bind_Some. eexists. split; [reflexivity|]. cbn [fst snd]. split.
    + replace (Datatypes.S l + 1)%nat with (Datatypes.S (l + 1)) by lia.
      rewrite (seq_S (l + 1) 0), map_app. f_equal.
      replace (0 + (l + 1))%nat with (Datatypes.S l) by lia.
      cbn [map spec_a]. unfold layer_activation.
      replace (length (sizes_of H) - 2)%nat with (depth H - 1)%nat
        by (unfold depth; lia).
      destruct (Nat.eqb l (depth H - 1)); reflexivity.
    + rewrite (seq_S l 0), map_app. reflexivity.
  - rewrite E, bind_Some. cbn [fst snd] in *. subst a z.
    replace (0 + depth H + 1)%nat with (Datatypes.S (depth H)) by lia.
    replace (depth H + 1)%nat with (Datatypes.S (depth H)) by lia.
    rewrite Nat.add_0_l, (seq_S (depth H) 0), map_app. cbn [map].
    rewrite last_snoc, bind_Some, Nat.add_0_l.
    rewrite (lookup_nth _ 0%nat zero)
      by (rewrite length_spec_a, size_depth; lia).
    reflexivity.
Qed.
End ForwardFacts.

(* ------------------------------------------------------------------ *)
(** ** The backward pass of one sample *)

Section BackwardFacts.
Context {num : Type} `{!Number num}.
Variable H : list nat.
Variable actFun : activation num.
Variable task : Task.
Local Open Scope js_scope.

Lemma depth_pos : (1 <= depth H)%nat.
Proof. rewrite depth_eq. lia. Qed.

(** The output layer: [delta_out = yhat - target]. *)
Lemma spec_delta_last (st : state num) (x y t : num) :
  spec_delta H actFun task st x y t (depth H - 1) =
  [spec_yhat H actFun task st x y - t].
Proof. unfold spec_delta. rewrite Nat.sub_diag. reflexivity. Qed.

(** A hidden layer:
    [delta[l][i] = (sum_j delta[l+1][j] * W[l+1][i][j]) * df(z[l][i])]. *)
Lemma spec_delta_step (st : state num) (x y t : num) (l : nat) :
  (l + 1 < depth H)%nat ->
  spec_delta H actFun task st x y t l =
  map (fun i =>
         sum_from zero (size H (l + 2))
           (fun j => at1 (spec_delta H actFun task st x y t (l + 1)) j
                     * at3 (W st) (l + 1) i j)
         * df actFun (at1 (spec_z H actFun task st x y l) i))
      (seq 0 (size H (l + 1))).
Proof.
  intros Hl. unfold spec_delta.
  replace (depth H - 1 - l)%nat with (Datatypes.S (depth H - 1 - (l + 1))) by lia.
  cbn [spec_delta_back].
  replace (depth H - 1 - Datatypes.S (depth H - 1 - (l + 1)))%nat with l by lia.
  reflexivity.
Qed.

Lemma length_spec_delta (st : state num) (x y t : num) (l : nat) :
  (l < depth H)%nat ->
  length (spec_delta H actFun task st x y t l) = size H (l + 1).
Proof.
  intros Hl. destruct (decide (l + 1 < depth H)%nat) as [Hlt|Hge].
  - rewrite spec_delta_step by exact Hlt. rewrite length_map, length_seq. reflexivity.
  - replace l with (depth H - 1)%nat by lia. rewrite spec_delta_last.
    replace (depth H - 1 + 1)%nat with (depth H) by lia.
    rewrite size_depth. reflexivity.
Qed.

(** On the trace of [forward], the loops of the backward pass fill
    [deltas] with [delta[0..L-2]]. *)
Lemma backward_spec (st : state num) (x y t : num) (tr : trace num) :
  shape_ok H st ->
  forward H actFun task st x y = Some tr ->
  backward H actFun st tr t =
  Some (map (spec_delta H actFun task st x y t) (seq 0 (depth H))).
Proof.
  intros Hsh Htr. rewrite (forward_spec H actFun task st x y Hsh) in Htr.
  injection Htr as <-. unfold backward. cbn [yhat tr_z]. fold (depth H).
  pose proof depth_pos as Hd.
  replace (length (sizes_of H) - 2)%nat with (depth H - 1)%nat by (unfold depth; lia).
  destruct Hsh as (HW & HB & Hsh).
  match goal with |- for_down _ ?b ?s0 = _ =>
    destruct (for_down_inv
      (fun c (deltas : list (list num)) =>
         length deltas = depth H /\
         forall l, (c <= l < depth H)%nat ->
           deltas !! l = Some (spec_delta H actFun task st x y t l))
      (depth H - 1) b s0) as (deltas & E & Hlen & Hall) end.
  - rewrite length_insert, length_replicate. split; [reflexivity|].
    intros l Hl. replace l with (depth H - 1)%nat by lia.
    rewrite list_lookup_insert_eq by (rewrite length_replicate; lia).
    rewrite spec_delta_last. reflexivity.
  - intros l deltas Hl (Hlen & Hall).
    rewrite (sizes_lookup H (l + 1)), bind_Some by lia.
    rewrite (sizes_lookup H (l + 2)), bind_Some by lia.
    destruct (Hsh (l + 1)%nat ltac:(lia)) as (HWl & HWli & HBl).
    rewrite (for_up_fill (size H (l + 1))
      (fun i => sum_from zero (size H (l + 2))
                  (fun j => at1 (spec_delta H actFun task st x y t (l + 1)) j
                            * at3 (W st) (l + 1) i j)
                * df actFun (at1 (spec_z H actFun task st x y l) i))).
    + rewrite bind_Some. eexists. split; [reflexivity|].
      rewrite length_insert. split; [exact Hlen|].
      intros l' Hl'. destruct (decide (l' = l)) as [->|Hne].
      * rewrite list_lookup_insert_eq by lia.
        rewrite (spec_delta_step st x y t l) by lia. reflexivity.
      * rewrite list_lookup_insert_ne by lia. apply Hall. lia.
    + intros i dl Hi.
      rewrite (for_up_fold (fun j s =>
        s + at1 (spec_delta H actFun task st x y t (l + 1)) j
            * at3 (W st) (l + 1) i j)).
      * rewrite bind_Some.
        assert (Ez : get2 (map (spec_z H actFun task st x y) (seq 0 (depth H))) l i
                     = Some (at1 (spec_z H actFun task st x y l) i)).
        { unfold get2. rewrite map_seq_lookup by lia. rewrite bind_Some.
          apply lookup_nth. rewrite length_spec_z. exact Hi. }
        rewrite Ez, bind_Some. reflexivity.
      * intros j s Hj.
        assert (Ed : get2 deltas (l + 1) j
                     = Some (at1 (spec_delta H actFun task st x y t (l + 1)) j)).
        { unfold get2. rewrite Hall by lia. rewrite bind_Some.
          apply lookup_nth. rewrite length_spec_delta by lia.
          replace (l + 1 + 1)%nat with (l + 2)%nat by lia. lia. }
        rewrite Ed, bind_Some.
        rewrite get3_at3; [reflexivity | lia | lia |].
        rewrite HWli by lia.
        replace (l + 1 + 1)%nat with (l + 2)%nat by lia. lia.
  - rewrite E. f_equal. apply list_eq. intros l.
    destruct (decide (l < depth H)%nat) as [Hl|Hl].
    + rewrite Hall by lia. rewrite map_seq_lookup by exact Hl. reflexivity.
    + rewrite !lookup_ge_None_2; [reflexivity | |]; try lia.
      rewrite length_map, length_seq. lia.
Qed.
End BackwardFacts.

(* ------------------------------------------------------------------ *)
(** ** Updates of one cell of a nested array *)

Section CellUpdates.
Context {A : Type}.

Lemma nth_alter_eq (g : A -> A) (l : list A) (i : nat) (d : A) :
  (i < length l)%nat -> nth i (alter g i l) d = g (nth i l d).
Proof.
  intros Hi. rewrite !nth_lookup, list_lookup_alter_eq.
  destruct (lookup_lt_is_Some_2 l i Hi) as [v Ev]. rewrite Ev. reflexivity.
Qed.

Lemma nth_alter_ne (g : A -> A) (l : list A) (i k : nat) (d : A) :
  i <> k -> nth k (alter g i l) d = nth k l d.
Proof. intros Hne. rewrite !nth_lookup, list_lookup_alter_ne by exact Hne. reflexivity. Qed.

Lemma list_alter_ge (g : A -> A) (l : list A) (i : nat) :
  (length l <= i)%nat -> alter g i l = l.
Proof.
  revert i. induction l as [|a l IH]; intros i Hi; [reflexivity|].
  destruct i as [|i]; simpl in Hi; [lia|].
  simpl. f_equal. apply IH. lia.
Qed.

Lemma nth_insert_eq (v : A) (l : list A) (i : nat) (d : A) :
  (i < length l)%nat -> nth i (<[i := v]> l) d = v.
Proof. intros Hi. rewrite nth_lookup, list_lookup_insert_eq by exact Hi. reflexivity. Qed.

Lemma nth_insert_ne (v : A) (l : list A) (i k : nat) (d : A) :
  i <> k -> nth k (<[i := v]> l) d = nth k l d.
Proof. intros Hne. rewrite !nth_lookup, list_lookup_insert_ne by exact Hne. reflexivity. Qed.

End CellUpdates.

Section CellUpdates2.
Context {A : Type}.

(** Altering an entry by a length-preserving function keeps the length of
    every entry. *)
Lemma length_nth_alter (g : list A -> list A) (m : list (list A)) (l k : nat) :
  (forall row, length (g row) = length row) ->
  length (nth k (alter g l m) []) = length (nth k m []).
Proof.
  intros Hg. destruct (decide (l = k)) as [->|Hne].
  - destruct (decide (k < length m)%nat) as [Hk|Hk].
    + rewrite nth_alter_eq by exact Hk. apply Hg.
    + rewrite !nth_overflow; [reflexivity | lia | rewrite length_alter; lia].
  - rewrite nth_alter_ne by exact Hne. reflexivity.
Qed.
End CellUpdates2.

Section CellUpdates3.
Context {num : Type} `{!Number num}.

Lemma upd2_length (m : list (list num)) (l j : nat) (v : num) :
  length (upd2 m l j v) = length m.
Proof. apply length_alter. Qed.

Lemma upd2_length_row (m : list (list num)) (l j : nat) (v : num) (k : nat) :
  length (nth k (upd2 m l j v) []) = length (nth k m []).
Proof. apply length_nth_alter. intros row. apply length_insert. Qed.

Lemma upd2_same (m : list (list num)) (l j : nat) (v : num) :
  (l < length m)%nat -> (j < length (nth l m []))%nat ->
  at2 (upd2 m l j v) l j = v.
Proof.
  intros Hl Hj. unfold at2, upd2. rewrite nth_alter_eq by exact Hl.
  apply nth_insert_eq, Hj.
Qed.

Lemma upd2_other (m : list (list num)) (l j : nat) (v : num) (l' j' : nat) :
  (l', j') <> (l, j) -> at2 (upd2 m l j v) l' j' = at2 m l' j'.
Proof.
  intros Hne. unfold at2, upd2. destruct (decide (l = l')) as [->|Hl].
  - destruct (decide (l' < length m)%nat) as [Hlt|Hge].
    + rewrite nth_alter_eq by exact Hlt. apply nth_insert_ne. congruence.
    + rewrite list_alter_ge by lia. reflexivity.
  - rewrite nth_alter_ne by exact Hl. reflexivity.
Qed.

Lemma upd3_length (m : list (list (list num))) (l i j : nat) (v : num) :
  length (upd3 m l i j v) = length m.
Proof. apply length_alter. Qed.

Lemma upd3_length_layer (m : list (list (list num))) (l i j : nat) (v : num)
    (k : nat) :
  length (nth k (upd3 m l i j v) []) = length (nth k m []).
Proof. apply length_nth_alter. intros layer. apply length_alter. Qed.

Lemma upd3_length_row (m : list (list (list num))) (l i j : nat) (v : num)
    (k r : nat) :
  length (nth r (nth k (upd3 m l i j v) []) []) = length (nth r (nth k m []) []).
Proof.
  unfold upd3. destruct (decide (l = k)) as [->|Hne].
  - destruct (decide (k < length m)%nat) as [Hk|Hk].
    + rewrite nth_alter_eq by exact Hk.
      apply length_nth_alter. intros row. apply length_insert.
    + rewrite list_alter_ge by lia. reflexivity.
  - rewrite nth_alter_ne by exact Hne. reflexivity.
Qed.

Lemma upd3_same (m : list (list (list num))) (l i j : nat) (v : num) :
  (l < length m)%nat -> (i < length (nth l m []))%nat ->
  (j < length (nth i (nth l m []) []))%nat ->
  at3 (upd3 m l i j v) l i j = v.
Proof.
  intros Hl Hi Hj. unfold at3, upd3. rewrite nth_alter_eq by exact Hl.
  rewrite nth_alter_eq by exact Hi. apply nth_insert_eq, Hj.
Qed.

Lemma upd3_other (m : list (list (list num))) (l i j : nat) (v : num)
    (l' i' j' : nat) :
  (l', i', j') <> (l, i, j) -> at3 (upd3 m l i j v) l' i' j' = at3 m l' i' j'.
Proof.
  intros Hne. unfold at3, upd3. destruct (decide (l = l')) as [->|Hl].
  - destruct (decide (l' < length m)%nat) as [Hlt|Hge].
    + rewrite nth_alter_eq by exact Hlt. destruct (decide (i = i')) as [->|Hi].
      * destruct (decide (i' < length (nth l' m []))%nat) as [Hit|Hig].
        -- rewrite nth_alter_eq by exact Hit. apply nth_insert_ne. congruence.
        -- rewrite list_alter_ge by lia. reflexivity.
      * rewrite nth_alter_ne by exact Hi. reflexivity.
    + rewrite list_alter_ge by lia. reflexivity.
  - rewrite nth_alter_ne by exact Hl. reflexivity.
Qed.
End CellUpdates3.

(* ------------------------------------------------------------------ *)
(** ** The accumulation of one sample *)

Section AccumulateFacts.
Context {num : Type} `{!Number num}.
Variable H : list nat.
Local Open Scope js_scope.

Lemma params_shape_upd3 (w : list (list (list num))) (b : list (list num))
    (l i j : nat) (v : num) :
  params_shape H w b -> params_shape H (upd3 w l i j v) b.
Proof.
  intros (HW & HB & Hsh). split; [rewrite upd3_length; exact HW|].
  split; [exact HB|]. intros k Hk. destruct (Hsh k Hk) as (H1 & H2 & H3).
  rewrite upd3_length_layer. split; [exact H1|]. split; [|exact H3].
  intros r Hr. rewrite upd3_length_row. apply H2, Hr.
Qed.

Lemma params_shape_upd2 (w : list (list (list num))) (b : list (list num))
    (l j : nat) (v : num) :
  params_shape H w b -> params_shape H w (upd2 b l j v).
Proof.
  intros (HW & HB & Hsh). split; [exact HW|].
  split; [rewrite upd2_length; exact HB|]. intros k Hk.
  destruct (Hsh k Hk) as (H1 & H2 & H3).
  rewrite upd2_length_row. auto.
Qed.

Lemma params_shape_get3 (w : list (list (list num))) (b : list (list num))
    (l i j : nat) :
  params_shape H w b ->
  (l < depth H)%nat -> (i < size H l)%nat -> (j < size H (l + 1))%nat ->
  get3 w l i j = Some (at3 w l i j) /\
  (l < length w)%nat /\ (i < length (nth l w []))%nat /\
  (j < length (nth i (nth l w []) []))%nat.
Proof.
  intros (HW & HB & Hsh) Hl Hi Hj. destruct (Hsh l Hl) as (H1 & H2 & H3).
  assert (j < length (nth i (nth l w []) []))%nat by (rewrite H2; lia).
  split; [apply get3_at3; lia | lia].
Qed.

Lemma params_shape_get2 (w : list (list (list num))) (b : list (list num))
    (l j : nat) :
  params_shape H w b ->
  (l < depth H)%nat -> (j < size H (l + 1))%nat ->
  get2 b l j = Some (at2 b l j) /\
  (l < length b)%nat /\ (j < length (nth l b []))%nat.
Proof.
  intros (HW & HB & Hsh) Hl Hj. destruct (Hsh l Hl) as (H1 & H2 & H3).
  split; [apply get2_at2; lia | lia].
Qed.

(** The arrays read by the accumulation: [a[l][i]] is [A l i] and
    [deltas[l][j]] is [D l j]. *)
Variables (a deltas : list (list num)) (A D : nat -> nat -> num).
Hypothesis a_read : forall l i,
  (l < depth H)%nat -> (i < size H l)%nat -> get2 a l i = Some (A l i).
Hypothesis deltas_read : forall l j,
  (l < depth H)%nat -> (j < size H (l + 1))%nat -> get2 deltas l j = Some (D l j).

(** The loop over [i]: column [j] of [gW[l]]. *)
Lemma accumulate_column (l j : nat) (gW0 gW1 : list (list (list num)))
    (gB1 : list (list num)) (P : nat -> nat -> nat -> Prop) :
  (l < depth H)%nat -> (j < size H (l + 1))%nat ->
  params_shape H gW1 gB1 ->
  cells3_updated H (fun l i j => A l i * D l j) P gW0 gW1 ->
  (forall i, ~ P l i j) ->
  exists gW2,
    for_up 0 (size H l) (fun i (gW : list (list (list num))) =>
        ai ← get2 a l i;
        d ← get2 deltas l j;
        gw ← get3 gW l i j;
        Some (alter (alter (<[j := gw + ai * d]>) i) l gW)) gW1 = Some gW2 /\
    params_shape H gW2 gB1 /\
    cells3_updated H (fun l i j => A l i * D l j)
      (fun l' i' j' => P l' i' j' \/ (l' = l /\ j' = j)) gW0 gW2.
Proof.
  intros Hl Hj Hsh Hcells HP.
  match goal with |- context [for_up 0 _ ?b gW1] =>
    destruct (for_up_inv
      (fun i (gW : list (list (list num))) =>
         params_shape H gW gB1 /\
         cells3_updated H (fun l i j => A l i * D l j)
           (fun l' i' j' => P l' i' j' \/ (l' = l /\ j' = j /\ (i' < i)%nat))
           gW0 gW)
      (size H l) 0 b gW1) as (gW2 & E & Hsh2 & Hc2) end.
  - split; [exact Hsh|]. intros l' i' j' Hl' Hi' Hj'.
    destruct (Hcells l' i' j' Hl' Hi' Hj') as [Hy Hn].
    split; [intros [Hp|Hp]; [auto | lia] | intros Hp; apply Hn; tauto].
  - intros i gW Hi (Hsh' & Hc').
    rewrite a_read, bind_Some by lia. rewrite deltas_read, bind_Some by lia.
    destruct (params_shape_get3 gW gB1 l i j Hsh') as (Eg & B1 & B2 & B3); [lia..|].
    rewrite Eg, bind_Some. eexists. split; [reflexivity|].
    change (alter (alter (<[j := ?v]>) i) l gW) with (upd3 gW l i j v).
    split; [apply params_shape_upd3, Hsh'|].
    intros l' i' j' Hl' Hi' Hj'.
    destruct (Hc' l' i' j' Hl' Hi' Hj') as [Hy Hn].
    destruct (decide ((l', i', j') = (l, i, j))) as [Eq|Ne].
    + injection Eq as -> -> ->.
      rewrite upd3_same by assumption.
      destruct (Hc' l i j Hl' Hi' Hj') as [_ Hn'].
      rewrite Hn' by (intros [Hp|Hp]; [exact (HP i Hp) | lia]).
      split; [reflexivity|]. intros Hnot. exfalso. apply Hnot. right. lia.
    + rewrite upd3_other by exact Ne.
      split.
      * intros [Hp|(-> & -> & Hlt)]; [apply Hy; auto|].
        apply Hy. right. repeat split.
        assert (i' <> i) by congruence. lia.
      * intros Hnot. apply Hn. intros [Hp|(-> & -> & Hlt)]; apply Hnot; [auto|].
        right. repeat split. lia.
  - exists gW2. split; [exact E|]. split; [exact Hsh2|].
    intros l' i' j' Hl' Hi' Hj'. destruct (Hc2 l' i' j' Hl' Hi' Hj') as [Hy Hn].
    split.
    + intros [Hp|(-> & ->)]; apply Hy; [auto|]. right. repeat split. lia.
    + intros Hnot. apply Hn. intros [Hp|(-> & -> & Hlt)]; apply Hnot; auto.
Qed.
Lemma cells3_updated_iff (inc : nat -> nat -> nat -> num)
    (P Q : nat -> nat -> nat -> Prop) (g g' : list (list (list num))) :
  (forall l i j, (l < depth H)%nat -> (i < size H l)%nat ->
     (j < size H (l + 1))%nat -> (P l i j <-> Q l i j)) ->
  cells3_updated H inc P g g' -> cells3_updated H inc Q g g'.
Proof.
  intros HPQ Hc l i j Hl Hi Hj. destruct (Hc l i j Hl Hi Hj) as [Hy Hn].
  pose proof (HPQ l i j Hl Hi Hj) as Hiff. split; intros HQ; [apply Hy | apply Hn]; tauto.
Qed.

Lemma cells2_updated_iff (inc : nat -> nat -> num)
    (P Q : nat -> nat -> Prop) (g g' : list (list num)) :
  (forall l j, (l < depth H)%nat -> (j < size H (l + 1))%nat ->
     (P l j <-> Q l j)) ->
  cells2_updated H inc P g g' -> cells2_updated H inc Q g g'.
Proof.
  intros HPQ Hc l j Hl Hj. destruct (Hc l j Hl Hj) as [Hy Hn].
  pose proof (HPQ l j Hl Hj) as Hiff. split; intros HQ; [apply Hy | apply Hn]; tauto.
Qed.

(** The loop over [j]: layer [l] of [gW] and [gB]. *)
Lemma accumulate_layer (l : nat) (gW0 gW1 : list (list (list num)))
    (gB0 gB1 : list (list num)) :
  (l < depth H)%nat ->
  params_shape H gW1 gB1 ->
  cells3_updated H (fun l i j => A l i * D l j) (fun l' _ _ => (l' < l)%nat) gW0 gW1 ->
  cells2_updated H D (fun l' _ => (l' < l)%nat) gB0 gB1 ->
  exists g2,
    for_up 0 (size H (l + 1))
      (fun j '((gW, gB) : list (list (list num)) * list (list num)) =>
        d ← get2 deltas l j;
        gb ← get2 gB l j;
        let gB := alter (<[j := gb + d]>) l gB in
        gW ← for_up 0 (size H l) (fun i (gW : list (list (list num))) =>
            ai ← get2 a l i;
            d ← get2 deltas l j;
            gw ← get3 gW l i j;
            Some (alter (alter (<[j := gw + ai * d]>) i) l gW)) gW;
        Some (gW, gB)) (gW1, gB1) = Some g2 /\
    params_shape H (fst g2) (snd g2) /\
    cells3_updated H (fun l i j => A l i * D l j)
      (fun l' _ _ => (l' < Datatypes.S l)%nat) gW0 (fst g2) /\
    cells2_updated H D (fun l' _ => (l' < Datatypes.S l)%nat) gB0 (snd g2).
Proof.
  intros Hl Hsh Hc3 Hc2.
  match goal with |- context [for_up 0 _ ?b (gW1, gB1)] =>
    destruct (for_up_inv
      (fun j (g : list (list (list num)) * list (list num)) =>
         params_shape H (fst g) (snd g) /\
         cells3_updated H (fun l i j => A l i * D l j)
           (fun l' _ j' => (l' < l)%nat \/ (l' = l /\ (j' < j)%nat)) gW0 (fst g) /\
         cells2_updated H D
           (fun l' j' => (l' < l)%nat \/ (l' = l /\ (j' < j)%nat)) gB0 (snd g))
      (size H (l + 1)) 0 b (gW1, gB1)) as (g2 & E & Hsh2 & Hd3 & Hd2) end.
  - cbn [fst snd]. split; [exact Hsh|]. split.
    + eapply cells3_updated_iff; [|exact Hc3]. intros; cbv beta; lia.
    + eapply cells2_updated_iff; [|exact Hc2]. intros; cbv beta; lia.
  - intros j [gW gB] Hj (Hsh' & Hc3' & Hc2'). cbn [fst snd] in *.
    rewrite deltas_read, bind_Some by lia.
    destruct (params_shape_get2 gW gB l j Hsh') as (Eg & B1 & B2); [lia..|].
    rewrite Eg, bind_Some. cbv zeta.
    change (alter (<[j := ?v]>) l gB) with (upd2 gB l j v).
    destruct (Hc2' l j Hl ltac:(lia)) as [_ Hold]. rewrite Hold by lia.
    destruct (accumulate_column l j gW0 gW
                (upd2 gB l j (at2 gB0 l j + D l j))
                (fun l' _ j' => (l' < l)%nat \/ (l' = l /\ (j' < j)%nat)))
      as (gW2 & E2 & Hsh2 & Hc32); [lia | lia | | exact Hc3' | intros i; lia |].
    { apply params_shape_upd2, Hsh'. }
    rewrite (deltas_read l j) in E2 by lia.
    rewrite E2, bind_Some. eexists. split; [reflexivity|]. cbn [fst snd].
    split; [exact Hsh2|]. split.
    + eapply cells3_updated_iff; [|exact Hc32]. intros; cbv beta; lia.
    + intros l' j' Hl' Hj'. destruct (Hc2' l' j' Hl' Hj') as [Hy Hn].
      destruct (decide ((l', j') = (l, j))) as [Eq|Ne].
      * injection Eq as -> ->. rewrite upd2_same by assumption.
        split; [reflexivity | intros Hnot; exfalso; apply Hnot; lia].
      * rewrite upd2_other by exact Ne. split.
        -- intros Hd. apply Hy. assert (l' <> l \/ j' <> j) by
             (destruct (decide (l' = l)); destruct (decide (j' = j)); subst; auto;
              exfalso; apply Ne; reflexivity).
           lia.
        -- intros Hnot. apply Hn. lia.
  - exists g2. split; [exact E|]. split; [exact Hsh2|]. split.
    + eapply cells3_updated_iff; [|exact Hd3].
      intros l' i' j' ? ? ?; cbv beta.
      destruct (decide (l' = l)); [subst; lia | lia].
    + eapply cells2_updated_iff; [|exact Hd2].
      intros l' j' ? ?; cbv beta.
      destruct (decide (l' = l)); [subst; lia | lia].
Qed.
(** The whole accumulation of one sample: every cell of [gW] receives
    [a[l][i] * deltas[l][j]] and every cell of [gB] receives
    [deltas[l][j]]; the shapes stay. *)
Lemma accumulate_cells (z : list (list num)) (yh : num)
    (gW0 : list (list (list num))) (gB0 : list (list num)) :
  params_shape H gW0 gB0 ->
  exists g',
    accumulate H {| tr_a := a; tr_z := z; yhat := yh |} deltas (gW0, gB0) = Some g' /\
    params_shape H (fst g') (snd g') /\
    (forall l i j, (l < depth H)%nat -> (i < size H l)%nat ->
       (j < size H (l + 1))%nat ->
       at3 (fst g') l i j = at3 gW0 l i j + A l i * D l j) /\
    (forall l j, (l < depth H)%nat -> (j < size H (l + 1))%nat ->
       at2 (snd g') l j = at2 gB0 l j + D l j).
Proof.
  intros Hsh. unfold accumulate. fold (depth H). cbn [tr_a].
  match goal with |- context [for_up 0 (depth H) ?b (gW0, gB0)] =>
    destruct (for_up_inv
      (fun l (g : list (list (list num)) * list (list num)) =>
         params_shape H (fst g) (snd g) /\
         cells3_updated H (fun l i j => A l i * D l j)
           (fun l' _ _ => (l' < l)%nat) gW0 (fst g) /\
         cells2_updated H D (fun l' _ => (l' < l)%nat) gB0 (snd g))
      (depth H) 0 b (gW0, gB0)) as (g2 & E & Hsh2 & Hd3 & Hd2) end.
  - cbn [fst snd]. split; [exact Hsh|]. split.
    + intros l i j _ _ _. split; [lia | reflexivity].
    + intros l j _ _. split; [lia | reflexivity].
  - intros l [gW gB] Hl (Hsh' & Hc3 & Hc2). cbn [fst snd] in *.
    rewrite (sizes_lookup H l), bind_Some by lia.
    rewrite (sizes_lookup H (l + 1)), bind_Some by lia.
    destruct (accumulate_layer l gW0 gW gB0 gB) as (g3 & E3 & R); [lia | assumption..|].
    exists g3. split; [exact E3 | exact R].
  - exists g2. split; [exact E|]. split; [exact Hsh2|]. split.
    + intros l i j Hl Hi Hj. apply (Hd3 l i j Hl Hi Hj). lia.
    + intros l j Hl Hj. apply (Hd2 l j Hl Hj). lia.
Qed.
End AccumulateFacts.

(* ------------------------------------------------------------------ *)
(** ** The batch gradients *)

Section MapFacts.
Context {num : Type} `{!Number num}.
Variable H : list nat.

Lemma sum_from_S (s0 : num) (n : nat) (term : nat -> num) :
  sum_from s0 (Datatypes.S n) term = add (sum_from s0 n term) (term n).
Proof. unfold sum_from. rewrite seq_S, fold_left_app. reflexivity. Qed.

Lemma nth_map_in {A C : Type} (g : A -> C) (l : list A) (i : nat) (d : A) (d' : C) :
  (i < length l)%nat -> nth i (map g l) d' = g (nth i l d).
Proof.
  intros Hi. rewrite (nth_indep _ d' (g d)) by (rewrite length_map; exact Hi).
  apply map_nth.
Qed.

Lemma nth_map_nil {A C : Type} (g : list A -> list C) (l : list (list A)) (i : nat) :
  g [] = [] -> nth i (map g l) [] = g (nth i l []).
Proof. intros Hg. rewrite <- Hg at 1. apply map_nth. Qed.

(** [m.map(layer => layer.map(row => row.map(g)))] keeps the shape. *)
Lemma params_shape_map (g3 g2 : num -> num) (w : list (list (list num)))
    (b : list (list num)) :
  params_shape H w b ->
  params_shape H (map (fun layer => map (fun row => map g3 row) layer) w)
                 (map (fun arr => map g2 arr) b).
Proof.
  intros (HW & HB & Hsh). split; [rewrite length_map; exact HW|].
  split; [rewrite length_map; exact HB|]. intros l Hl.
  destruct (Hsh l Hl) as (H1 & H2 & H3).
  rewrite (nth_map_nil (fun layer => map (fun row => map g3 row) layer)) by reflexivity.
  rewrite (nth_map_nil (fun arr => map g2 arr)) by reflexivity.
  rewrite !length_map. split; [exact H1|]. split; [|exact H3].
  intros i Hi. rewrite (nth_map_nil (fun row => map g3 row)) by reflexivity.
  rewrite length_map. apply H2, Hi.
Qed.

Lemma at3_map (g : num -> num) (w : list (list (list num))) (b : list (list num))
    (l i j : nat) :
  params_shape H w b ->
  (l < depth H)%nat -> (i < size H l)%nat -> (j < size H (l + 1))%nat ->
  at3 (map (fun layer => map (fun row => map g row) layer) w) l i j
  = g (at3 w l i j).
Proof.
  intros (HW & HB & Hsh) Hl Hi Hj. destruct (Hsh l Hl) as (H1 & H2 & H3).
  unfold at3.
  rewrite (nth_map_nil (fun layer => map (fun row => map g row) layer)) by reflexivity.
  rewrite (nth_map_nil (fun row => map g row)) by reflexivity.
  apply nth_map_in. rewrite H2; lia.
Qed.

Lemma at2_map (g : num -> num) (w : list (list (list num))) (b : list (list num))
    (l j : nat) :
  params_shape H w b ->
  (l < depth H)%nat -> (j < size H (l + 1))%nat ->
  at2 (map (fun arr => map g arr) b) l j = g (at2 b l j).
Proof.
  intros (HW & HB & Hsh) Hl Hj. destruct (Hsh l Hl) as (H1 & H2 & H3).
  unfold at2.
  rewrite (nth_map_nil (fun arr => map g arr)) by reflexivity.
  apply nth_map_in. lia.
Qed.
End MapFacts.

Section BatchFacts.
Context {num : Type} `{!Number num}.
Variable H : list nat.
Variable actFun : activation num.
Variable task : Task.
Local Open Scope js_scope.

(** [computeBatchGrads] returns, in the shape of the parameters, the
    accumulated sums divided by the batch size. *)
Lemma computeBatchGrads_spec (st : state num) (XY : list (num * num))
    (yTrue : list num) :
  shape_ok H st -> (length XY <= length yTrue)%nat ->
  exists g,
    computeBatchGrads H actFun task st XY yTrue = Some g /\
    params_shape H (gW g) (gB g) /\
    (forall l i j, (l < depth H)%nat -> (i < size H l)%nat ->
       (j < size H (l + 1))%nat ->
       at3 (gW g) l i j
       = acc_gW H actFun task st XY yTrue l i j / of_nat (length XY)) /\
    (forall l j, (l < depth H)%nat -> (j < size H (l + 1))%nat ->
       at2 (gB g) l j = acc_gB H actFun task st XY yTrue l j / of_nat (length XY)) /\
    loss g = acc_loss H actFun task st XY yTrue / of_nat (length XY).
Proof.
  intros Hsh Hlen. unfold computeBatchGrads.
  match goal with |- context [for_up 0 (length XY) ?b ?s0] =>
    destruct (for_up_inv
      (fun n (acc : (list (list (list num)) * list (list num)) * num) =>
         params_shape H (fst (fst acc)) (snd (fst acc)) /\
         (forall l i j, (l < depth H)%nat -> (i < size H l)%nat ->
            (j < size H (l + 1))%nat ->
            at3 (fst (fst acc)) l i j =
            sum_from zero n (fun k =>
              at1 (spec_a H actFun task st (sample_x XY k) (sample_y XY k) l) i
              * at1 (spec_delta H actFun task st (sample_x XY k) (sample_y XY k)
                       (sample_t yTrue k) l) j)) /\
         (forall l j, (l < depth H)%nat -> (j < size H (l + 1))%nat ->
            at2 (snd (fst acc)) l j =
            sum_from zero n (fun k =>
              at1 (spec_delta H actFun task st (sample_x XY k) (sample_y XY k)
                     (sample_t yTrue k) l) j)) /\
         snd acc =
           sum_from zero n (fun k =>
             sample_loss task
               (spec_yhat H actFun task st (sample_x XY k) (sample_y XY k))
               (sample_t yTrue k)))
      (length XY) 0 b s0) as ([[gW1 gB1] loss1] & E & Hsh1 & H3 & H2 & Hloss) end.
  - cbn [fst snd]. split; [apply params_shape_map, Hsh|].
    split; [|split; [|reflexivity]].
    + intros l i j Hl Hi Hj. rewrite (at3_map H _ (W st) (B st)); auto.
    + intros l j Hl Hj. rewrite (at2_map H _ (W st) (B st)); auto.
  - intros n [[gW1 gB1] loss1] Hn (Hsh1 & H3 & H2 & Hloss). cbn [fst snd] in *.
    rewrite (lookup_nth XY n (zero, zero)), bind_Some by lia.
    rewrite (lookup_nth yTrue n zero), bind_Some by lia.
    fold (sample_x XY n) (sample_y XY n) (sample_t yTrue n).
    pose proof (forward_spec H actFun task st (sample_x XY n) (sample_y XY n) Hsh) as Ef.
    rewrite Ef, bind_Some.
    rewrite (backward_spec H actFun task st (sample_x XY n) (sample_y XY n)
               (sample_t yTrue n) _ Hsh Ef), bind_Some.
    destruct (accumulate_cells H
      (map (spec_a H actFun task st (sample_x XY n) (sample_y XY n)) (seq 0 (depth H + 1)))
      (map (spec_delta H actFun task st (sample_x XY n) (sample_y XY n)
              (sample_t yTrue n)) (seq 0 (depth H)))
      (fun l i => at1 (spec_a H actFun task st (sample_x XY n) (sample_y XY n) l) i)
      (fun l j => at1 (spec_delta H actFun task st (sample_x XY n) (sample_y XY n)
                         (sample_t yTrue n) l) j))
      with (gW0 := gW1) (gB0 := gB1)
           (z := map (spec_z H actFun task st (sample_x XY n) (sample_y XY n))
                     (seq 0 (depth H)))
           (yh := spec_yhat H actFun task st (sample_x XY n) (sample_y XY n))
      as (g' & Ea & Hsh' & H3' & H2').
    + intros l i Hl Hi. unfold get2. rewrite map_seq_lookup, bind_Some by lia.
      apply lookup_nth. rewrite length_spec_a. exact Hi.
    + intros l j Hl Hj. unfold get2. rewrite map_seq_lookup, bind_Some by lia.
      apply lookup_nth. rewrite length_spec_delta by exact Hl. exact Hj.
    + exact Hsh1.
    + rewrite Ea, bind_Some. eexists. split; [reflexivity|]. cbn [fst snd yhat].
      split; [exact Hsh'|]. split; [|split].
      * intros l i j Hl Hi Hj. rewrite H3', H3, sum_from_S by assumption. reflexivity.
      * intros l j Hl Hj. rewrite H2', H2, sum_from_S by assumption. reflexivity.
      * rewrite sum_from_S, Hloss. reflexivity.
  - rewrite E, bind_Some. cbn [fst snd] in *. eexists. split; [reflexivity|].
    cbn [gW gB loss]. split; [apply params_shape_map, Hsh1|].
    split; [|split].
    + intros l i j Hl Hi Hj. rewrite (at3_map H _ gW1 gB1), H3 by assumption.
      reflexivity.
    + intros l j Hl Hj. rewrite (at2_map H _ gW1 gB1), H2 by assumption.
      reflexivity.
    + rewrite Hloss. reflexivity.
Qed.
End BatchFacts.

(* ------------------------------------------------------------------ *)
(** ** The update step *)

Lemma imapM_imap {A C : Type} (g : nat -> A -> option C) (g' : nat -> A -> C)
    (arr : list A) :
  forall i0,
    (forall k v, arr !! k = Some v -> g (i0 + k)%nat v = Some (g' (i0 + k)%nat v)) ->
    imapM g i0 arr = Some (imap (fun k => g' (i0 + k)%nat) arr).
Proof.
  induction arr as [|v arr IH]; intros i0 Hg; [reflexivity|].
  cbn [imapM]. rewrite <- (Nat.add_0_r i0) at 1.
  rewrite (Hg 0%nat v eq_refl), bind_Some, (IH (Datatypes.S i0)).
  - rewrite bind_Some. cbn [imap]. rewrite Nat.add_0_r. f_equal. f_equal.
    apply imap_ext. intros k x _. simpl. f_equal. lia.
  - intros k x Hk. replace (Datatypes.S i0 + k)%nat with (i0 + Datatypes.S k)%nat by lia.
    apply Hg. exact Hk.
Qed.

Lemma nth_imap {A C : Type} (g : nat -> A -> C) (l : list A) (i : nat) (d : A) (d' : C) :
  (i < length l)%nat -> nth i (imap g l) d' = g i (nth i l d).
Proof.
  intros Hi. rewrite nth_lookup, list_lookup_imap, (lookup_nth l i d Hi).
  reflexivity.
Qed.

Section StepFacts.
Context {num : Type} `{!Number num}.
Variable H : list nat.
Variable actFun : activation num.
Variable task : Task.
Local Open Scope js_scope.

(** The two [map]s of [step] on gradients of the shape of the parameters:
    every entry moves by [- lr * gradient], and the shape stays. *)
Lemma step_update (st : state num) (g : grads num) (lr : num) :
  shape_ok H st -> params_shape H (gW g) (gB g) ->
  exists w' b',
    imapM (fun l layer =>
        imapM (fun i row =>
          imapM (fun j (w : num) =>
            gw ← get3 (gW g) l i j;
            Some (w - lr * gw)) 0 row) 0 layer) 0 (W st) = Some w' /\
    imapM (fun l arr =>
        imapM (fun j (bv : num) =>
          gb ← get2 (gB g) l j;
          Some (bv - lr * gb)) 0 arr) 0 (B st) = Some b' /\
    params_shape H w' b' /\
    (forall l i j, (l < depth H)%nat -> (i < size H l)%nat ->
       (j < size H (l + 1))%nat ->
       at3 w' l i j = at3 (W st) l i j - lr * at3 (gW g) l i j) /\
    (forall l j, (l < depth H)%nat -> (j < size H (l + 1))%nat ->
       at2 b' l j = at2 (B st) l j - lr * at2 (gB g) l j).
Proof.
  intros Hst Hg. pose proof Hst as (HW & HB & Hsh).
  exists (imap (fun l layer => imap (fun i row =>
            imap (fun j w => w - lr * at3 (gW g) l i j) row) layer) (W st)),
         (imap (fun l arr => imap (fun j bv => bv - lr * at2 (gB g) l j) arr) (B st)).
  split; [|split; [|split; [|split]]].
  - apply (imapM_imap _ (fun l layer => imap (fun i row =>
            imap (fun j w => w - lr * at3 (gW g) l i j) row) layer) (W st) 0).
    intros l layer El. rewrite Nat.add_0_l.
    assert (Hl : (l < depth H)%nat) by (rewrite <- HW; eapply lookup_lt_Some, El).
    destruct (Hsh l Hl) as (H1 & H2 & H3).
    assert (layer = nth l (W st) []) by (symmetry; apply nth_lookup_Some, El). subst layer.
    apply (imapM_imap _ (fun i row =>
            imap (fun j w => w - lr * at3 (gW g) l i j) row) _ 0).
    intros i row Ei. rewrite Nat.add_0_l.
    assert (Hi : (i < size H l)%nat) by (rewrite <- H1; eapply lookup_lt_Some, Ei).
    assert (row = nth i (nth l (W st) []) []) by (symmetry; apply nth_lookup_Some, Ei).
    subst row.
    apply (imapM_imap _ (fun j w => w - lr * at3 (gW g) l i j) _ 0).
    intros j w Ej. rewrite Nat.add_0_l.
    assert (Hj : (j < size H (l + 1))%nat)
      by (rewrite <- (H2 i Hi); eapply lookup_lt_Some, Ej).
    destruct (params_shape_get3 H (gW g) (gB g) l i j Hg Hl Hi Hj) as (Eg & _).
    rewrite Eg. reflexivity.
  - apply (imapM_imap _ (fun l arr =>
            imap (fun j bv => bv - lr * at2 (gB g) l j) arr) (B st) 0).
    intros l arr El. rewrite Nat.add_0_l.
    assert (Hl : (l < depth H)%nat) by (rewrite <- HB; eapply lookup_lt_Some, El).
    destruct (Hsh l Hl) as (H1 & H2 & H3).
    assert (arr = nth l (B st) []) by (symmetry; apply nth_lookup_Some, El). subst arr.
    apply (imapM_imap _ (fun j bv => bv - lr * at2 (gB g) l j) _ 0).
    intros j bv Ej. rewrite Nat.add_0_l.
    assert (Hj : (j < size H (l + 1))%nat) by (rewrite <- H3; eapply lookup_lt_Some, Ej).
    destruct (params_shape_get2 H (gW g) (gB g) l j Hg Hl Hj) as (Eg & _).
    rewrite Eg. reflexivity.
  - split; [rewrite length_imap; exact HW|]. split; [rewrite length_imap; exact HB|].
    intros l Hl. destruct (Hsh l Hl) as (H1 & H2 & H3).
    rewrite (nth_imap _ (W st) l []), (nth_imap _ (B st) l []) by lia.
    rewrite !length_imap. split; [exact H1|]. split; [|exact H3].
    intros i Hi. rewrite (nth_imap _ _ i []) by lia.
    rewrite length_imap. apply H2, Hi.
  - intros l i j Hl Hi Hj. destruct (Hsh l Hl) as (H1 & H2 & H3).
    unfold at3 at 1. rewrite (nth_imap _ (W st) l []) by lia.
    rewrite (nth_imap _ _ i []) by lia.
    rewrite (nth_imap _ _ j zero) by (rewrite H2; lia). reflexivity.
  - intros l j Hl Hj. destruct (Hsh l Hl) as (H1 & H2 & H3).
    unfold at2 at 1. rewrite (nth_imap _ (B st) l []) by lia.
    rewrite (nth_imap _ _ j zero) by lia. reflexivity.
Qed.

(** [step] on parameters of the right shape. *)
Lemma step_spec (st : state num) (XY : list (num * num)) (yTrue : list num)
    (lr : num) :
  shape_ok H st -> (length XY <= length yTrue)%nat ->
  exists g st',
    computeBatchGrads H actFun task st XY yTrue = Some g /\
    step H actFun task st XY yTrue lr = Some (loss g, st') /\
    shape_ok H st' /\
    (forall l i j, (l < depth H)%nat -> (i < size H l)%nat ->
       (j < size H (l + 1))%nat ->
       at3 (W st') l i j = at3 (W st) l i j - lr * at3 (gW g) l i j) /\
    (forall l j, (l < depth H)%nat -> (j < size H (l + 1))%nat ->
       at2 (B st') l j = at2 (B st) l j - lr * at2 (gB g) l j).
Proof.
  intros Hst Hlen.
  destruct (computeBatchGrads_spec H actFun task st XY yTrue Hst Hlen)
    as (g & Eg & Hg & _).
  destruct (step_update st g lr Hst Hg) as (w' & b' & Ew & Eb & Hsh' & H3 & H2).
  exists g, {| W := w'; B := b' |}. split; [exact Eg|].
  split; [|split; [exact Hsh' | split; assumption]].
  unfold step. rewrite Eg, bind_Some. cbv zeta. rewrite Ew, bind_Some, Eb, bind_Some.
  reflexivity.
Qed.
End StepFacts.

(* ------------------------------------------------------------------ *)
(** ** Initialisation *)

Lemma count_to_shift (n : nat) (c : nat -> nat) :
  count_to (Datatypes.S n) c = (c 0%nat + count_to n (fun k => c (Datatypes.S k)))%nat.
Proof.
  induction n as [|n IH]; [simpl; lia|].
  change (count_to (Datatypes.S (Datatypes.S n)) c)
    with (count_to (Datatypes.S n) c + c (Datatypes.S n))%nat.
  rewrite IH. simpl. lia.
Qed.

Lemma count_to_ext (n : nat) (c c' : nat -> nat) :
  (forall k, (k < n)%nat -> c k = c' k) -> count_to n c = count_to n c'.
Proof.
  induction n as [|n IH]; intros Hc; [reflexivity|].
  simpl. rewrite IH, Hc by (intros; try apply Hc; lia). reflexivity.
Qed.

Section InitFacts.
Context {num : Type} `{!Number num}.
Local Open Scope js_scope.

Lemma returns_with_weaken {A : Type} (c : nat) (Q Q' : A -> Prop) (m : Rand num A) :
  (forall a, Q a -> Q' a) -> returns_with c Q m -> returns_with c Q' m.
Proof.
  intros HQ Hm src Hsrc. destruct (Hm src Hsrc) as (a & rest & E & Ha & Hr).
  exists a, rest. auto.
Qed.

Lemma returns_randn_scaled (k : num) :
  returns_with 2 (fun _ => True) (g <~ randn ;; rret (g * k)).
Proof.
  intros src Hsrc. destruct (randn_some src Hsrc) as (g & rest & E & Hr).
  unfold rbind, rret. rewrite E. eexists _, rest. auto.
Qed.

Lemma Array_from_returns {A : Type} (n c : nat) (Q : A -> Prop) (g : Rand num A) :
  returns_with c Q g ->
  returns_with (n * c) (fun l => length l = n /\ Forall Q l) (Array_from n g).
Proof.
  intros Hg. induction n as [|n IH]; intros src Hsrc.
  - exists [], src. simpl. repeat split; [constructor | lia].
  - cbn [Array_from]. unfold rbind at 1.
    destruct (Hg src) as (a & r1 & E1 & Qa & N1); [lia|]. rewrite E1.
    unfold rbind at 1.
    destruct (IH r1) as (l & r2 & E2 & (Hl & Ql) & N2); [lia|]. rewrite E2.
    unfold rret. exists (a :: l), r2. simpl.
    repeat split; [lia | constructor; assumption | lia].
Qed.

Lemma imap_rand_returns {A C : Type} (g : nat -> A -> Rand num C)
    (c : nat -> nat) (Q : nat -> C -> Prop) (arr : list A) :
  forall i0,
    (forall k v, arr !! k = Some v ->
       returns_with (c (i0 + k)%nat) (Q (i0 + k)%nat) (g (i0 + k)%nat v)) ->
    returns_with (count_to (length arr) (fun k => c (i0 + k)%nat))
      (fun out => length out = length arr /\
                  forall k x, out !! k = Some x -> Q (i0 + k)%nat x)
      (imap_rand g i0 arr).
Proof.
  induction arr as [|v arr IH]; intros i0 Hg src Hsrc.
  - exists [], src. simpl. repeat split; [intros k x Hk; discriminate | lia].
  - cbn [length] in Hsrc. rewrite count_to_shift in Hsrc.
    cbn [imap_rand]. unfold rbind at 1.
    destruct (Hg 0%nat v eq_refl src) as (x0 & r1 & E1 & Q0 & N1); [lia|].
    rewrite Nat.add_0_r in E1, Q0. rewrite E1. unfold rbind at 1.
    destruct (IH (Datatypes.S i0)) with (src := r1) as (out & r2 & E2 & (Hl & Qo) & N2).
    { intros k x Hk.
      replace (Datatypes.S i0 + k)%nat with (i0 + Datatypes.S k)%nat by lia.
      apply Hg. exact Hk. }
    { rewrite (count_to_ext _ _ (fun k => c (i0 + Datatypes.S k)%nat))
        by (intros; f_equal; lia).
      lia. }
    rewrite E2. unfold rret. exists (x0 :: out), r2.
    split; [reflexivity|]. split; [split|].
    + simpl. lia.
    + intros [|k] x Hk; simpl in Hk.
      * injection Hk as <-. rewrite Nat.add_0_r. exact Q0.
      * replace (i0 + Datatypes.S k)%nat with (Datatypes.S i0 + k)%nat by lia.
        apply Qo, Hk.
    + cbn [length]. rewrite count_to_shift.
      rewrite (count_to_ext _ _ (fun k => c (i0 + Datatypes.S k)%nat)) in N2
        by (intros; f_equal; lia).
      lia.
Qed.
End InitFacts.

Section ReinitFacts.
Context {num : Type} `{!Number num}.
Variable H : list nat.
Local Open Scope js_scope.

Lemma length_removelast_sizes : length (removelast (sizes_of H)) = depth H.
Proof.
  unfold sizes_of. change (2%nat :: H ++ [1%nat]) with ((2%nat :: H) ++ [1%nat]).
  rewrite removelast_last, depth_eq. simpl. lia.
Qed.

Lemma length_tail_sizes : length (tail (sizes_of H)) = depth H.
Proof. unfold sizes_of. simpl. rewrite length_app, depth_eq. simpl. lia. Qed.

Lemma initWeights_returns :
  returns_with (weight_draws H)
    (fun w : list (list (list num)) =>
       length w = depth H /\
       forall l layer, w !! l = Some layer ->
         length layer = size H l /\
         Forall (fun row => length row = size H (l + 1)) layer)
    (initWeights H).
Proof.
  unfold initWeights, weight_draws. rewrite <- length_removelast_sizes.
  eapply returns_with_weaken;
    [|apply (imap_rand_returns _ (fun l => (2 * (size H (l + 1) * size H l))%nat)
               (fun l layer => length layer = size H l /\
                  Forall (fun row => length row = size H (l + 1)) layer)
               (removelast (sizes_of H)) 0)].
  - intros w [Hl Hw]. split; [exact Hl|]. intros l layer E. apply (Hw l layer E).
  - intros k v Ek. rewrite Nat.add_0_l.
    assert (Hk : (k < depth H)%nat)
      by (rewrite <- length_removelast_sizes; eapply lookup_lt_Some, Ek).
    intros src Hsrc. unfold rbind at 1. unfold rlift at 1.
    rewrite (sizes_lookup H k) by lia. unfold rbind at 1. unfold rlift at 1.
    rewrite (sizes_lookup H (k + 1)) by lia. cbv zeta.
    pose proof (Array_from_returns (size H k) (size H (k + 1) * 2)
      (fun row : list num => length row = size H (k + 1) /\ Forall (fun _ => True) row)
      (Array_from (size H (k + 1))
         (g <~ randn ;; rret (g * (one / Math_sqrt (of_nat (size H k)))))))
      as Hr.
    destruct (Hr (Array_from_returns _ _ _ _ (returns_randn_scaled _)) src)
      as (layer & rest & E & (Hl & Hrows) & N); [lia|].
    exists layer, rest. split; [exact E|]. split; [|lia].
    split; [exact Hl|]. eapply Forall_impl; [exact Hrows|]. intros row [Hrow _]. exact Hrow.
Qed.

Lemma initBiases_returns :
  returns_with (bias_draws H)
    (fun b : list (list num) =>
       length b = depth H /\
       forall l arr, b !! l = Some arr -> length arr = size H (l + 1))
    (initBiases H).
Proof.
  unfold initBiases, bias_draws. rewrite <- length_tail_sizes.
  eapply returns_with_weaken;
    [|apply (imap_rand_returns _ (fun l => (2 * size H (l + 1))%nat)
               (fun l (arr : list num) => length arr = size H (l + 1))
               (tail (sizes_of H)) 0)].
  - intros b [Hl Hb]. split; [exact Hl|]. intros l arr E. apply (Hb l arr E).
  - intros k v Ek. rewrite Nat.add_0_l.
    assert (Hk : (k < depth H)%nat)
      by (rewrite <- length_tail_sizes; eapply lookup_lt_Some, Ek).
    rewrite lookup_tail in Ek.
    replace (Datatypes.S k) with (k + 1)%nat in Ek by lia.
    rewrite (sizes_lookup H (k + 1)) in Ek by lia. injection Ek as <-.
    intros src Hsrc.
    destruct (Array_from_returns (size H (k + 1)) 2 (fun _ : num => True)
                _ (returns_randn_scaled (lit 0.05)) src)
      as (arr & rest & E & (Hl & _) & N); [lia|].
    exists arr, rest. split; [exact E|]. split; [exact Hl | lia].
Qed.

(** [reinit] returns as soon as enough non-zero values of [Math.random()]
    come, whatever the hidden sizes are, and installs parameters of the
    shape of [[2, ...newLayers, 1]]. *)
Lemma reinit_shape (src : list num) :
  (draws_needed H <= nonzero_draws src)%nat ->
  exists st rest, reinit H src = Some (st, rest) /\ shape_ok H st.
Proof.
  intros Hsrc. unfold draws_needed in Hsrc. unfold reinit, rbind at 1.
  destruct (initWeights_returns src) as (w & r1 & Ew & (Hwl & Hw) & N1); [lia|].
  rewrite Ew. unfold rbind at 1.
  destruct (initBiases_returns r1) as (b & r2 & Eb & (Hbl & Hb) & N2); [lia|].
  rewrite Eb. unfold rret. eexists _, _. split; [reflexivity|].
  unfold shape_ok, params_shape. cbn [W B].
  split; [exact Hwl|]. split; [exact Hbl|]. intros l Hl.
  destruct (Hw l (nth l w [])) as [Hlay Hrows]; [apply lookup_nth; lia|].
  split; [exact Hlay|]. split.
  - intros i Hi. rewrite Forall_lookup in Hrows.
    apply (Hrows i). apply lookup_nth. lia.
  - apply (Hb l). apply lookup_nth. lia.
Qed.
End ReinitFacts.

(* ------------------------------------------------------------------ *)
(** ** The worked example *)

Section Example.
#[local] Existing Instance real_number.
Local Open Scope R_scope.

Lemma example_shape : shape_ok example_layers example_state.
Proof.
  split; [reflexivity|]. split; [reflexivity|].
  intros l Hl. change (depth example_layers) with 2%nat in Hl.
  destruct l as [|[|l]]; [| |lia].
  - split; [reflexivity|]. split; [|reflexivity].
    intros i Hi. change (size example_layers 0) with 2%nat in Hi.
    destruct i as [|[|i]]; [reflexivity | reflexivity | lia].
  - split; [reflexivity|]. split; [|reflexivity].
    intros i Hi. change (size example_layers 1) with 2%nat in Hi.
    destruct i as [|[|i]]; [reflexivity | reflexivity | lia].
Qed.

(** [forward(1, 0)] on the example, with [tanh] hidden units and the
    regression task: [z[0] = [1, -1]], [a[1] = [tanh 1, tanh (-1)]] and
    [yhat = tanh 1 + tanh (-1)]. *)
Lemma example_forward :
  exists tr,
    forward example_layers act.tanh regression example_state 1 0 = Some tr /\
    tr_a tr = [[1; 0]; [tanh 1; tanh (-1)]; [tanh 1 + tanh (-1)]] /\
    tr_z tr = [[1; -1]; [tanh 1 + tanh (-1)]] /\
    yhat tr = tanh 1 + tanh (-1).
Proof.
  eexists. split; [apply forward_spec, example_shape|].
  assert (Ez0 : spec_z example_layers act.tanh regression example_state 1 0 0 = [1; -1]).
  { unfold spec_z, layer_z, sum_from, at1, at2, at3. cbn.
    unfold Q2R. cbn. f_equal; [|f_equal]; field. }
  assert (Ea1 : spec_a example_layers act.tanh regression example_state 1 0 1
                = [tanh 1; tanh (-1)]).
  { change (spec_a example_layers act.tanh regression example_state 1 0 1)
      with (map tanh (spec_z example_layers act.tanh regression example_state 1 0 0)).
    rewrite Ez0. reflexivity. }
  assert (Ez1 : spec_z example_layers act.tanh regression example_state 1 0 1
                = [tanh 1 + tanh (-1)]).
  { unfold spec_z. rewrite Ea1.
    unfold layer_z, sum_from, at1, at2, at3. cbn.
    unfold Q2R. cbn. f_equal. field. }
  assert (Ea2 : spec_a example_layers act.tanh regression example_state 1 0 2
                = [tanh 1 + tanh (-1)]).
  { change (spec_a example_layers act.tanh regression example_state 1 0 2)
      with (map (fun v : R => v)
              (spec_z example_layers act.tanh regression example_state 1 0 1)).
    rewrite Ez1. reflexivity. }
  cbn [tr_a tr_z yhat].
  change (depth example_layers) with 2%nat. cbn [seq map Nat.add].
  unfold spec_yhat. change (depth example_layers) with 2%nat.
  rewrite Ez0, Ez1, Ea1, Ea2. repeat split; reflexivity.
Qed.
End Example.

(* ================================================================== *)
(** * The claims about the engine *)

Section EngineClaims.
Context {num : Type} `{!Number num}.
Variable H : list nat.
Variable actFun : activation num.
Variable task : Task.
Local Open Scope js_scope.

(** C1. On parameters of the right shape and a batch with a target for
    every point, [computeBatchGrads] returns gradients in which, sample by
    sample, the output delta is [yhat - target] (whatever the task), the
    delta of a hidden layer is
    [(sum_j delta[l+1][j] * W[l+1][i][j]) * df(z[l][i])] with [df] taken at
    the pre-activation, [gW[l][i][j]] is the sum over the batch of
    [a[l][i] * delta[l][j]] and [gB[l][j]] the sum of [delta[l][j]], each
    divided by the batch size [n], as is the summed loss. *)
Theorem computeBatchGrads_formulas (st : state num) (XY : list (num * num))
    (yTrue : list num) :
  shape_ok H st -> (length XY <= length yTrue)%nat ->
  exists g,
    computeBatchGrads H actFun task st XY yTrue = Some g /\
    (forall k, (k < length XY)%nat ->
       let x := sample_x XY k in
       let y := sample_y XY k in
       let t := sample_t yTrue k in
       forward H actFun task st x y =
         Some {| tr_a := map (spec_a H actFun task st x y) (seq 0 (depth H + 1));
                 tr_z := map (spec_z H actFun task st x y) (seq 0 (depth H));
                 yhat := spec_yhat H actFun task st x y |} /\
       spec_delta H actFun task st x y t (depth H - 1)
       = [spec_yhat H actFun task st x y - t] /\
       forall l, (l + 1 < depth H)%nat ->
         spec_delta H actFun task st x y t l =
         map (fun i =>
                sum_from zero (size H (l + 2))
                  (fun j => at1 (spec_delta H actFun task st x y t (l + 1)) j
                            * at3 (W st) (l + 1) i j)
                * df actFun (at1 (spec_z H actFun task st x y l) i))
             (seq 0 (size H (l + 1)))) /\
    (forall l i j, (l < depth H)%nat -> (i < size H l)%nat ->
       (j < size H (l + 1))%nat ->
       at3 (gW g) l i j =
       sum_from zero (length XY) (fun k =>
         at1 (spec_a H actFun task st (sample_x XY k) (sample_y XY k) l) i
         * at1 (spec_delta H actFun task st (sample_x XY k) (sample_y XY k)
                  (sample_t yTrue k) l) j)
       / of_nat (length XY)) /\
    (forall l j, (l < depth H)%nat -> (j < size H (l + 1))%nat ->
       at2 (gB g) l j =
       sum_from zero (length XY) (fun k =>
         at1 (spec_delta H actFun task st (sample_x XY k) (sample_y XY k)
                (sample_t yTrue k) l) j)
       / of_nat (length XY)) /\
    loss g =
      sum_from zero (length XY) (fun k =>
        sample_loss task
          (spec_yhat H actFun task st (sample_x XY k) (sample_y XY k))
          (sample_t yTrue k))
      / of_nat (length XY).
Proof.
  intros Hsh Hlen.
  destruct (computeBatchGrads_spec H actFun task st XY yTrue Hsh Hlen)
    as (g & Eg & _ & H3 & H2 & Hloss).
  exists g. split; [exact Eg|]. split; [|split; [exact H3 | split; [exact H2 | exact Hloss]]].
  intros k Hk x y t. split; [apply forward_spec, Hsh|]. split.
  - apply spec_delta_last.
  - intros l Hl. apply spec_delta_step, Hl.
Qed.

(** C3. On parameters of the right shape, [step] first computes the batch
    gradients at the current parameters, replaces every weight by
    [W[l][i][j] - lr * gW[l][i][j]] and every bias by
    [B[l][j] - lr * gB[l][j]], and returns the loss that
    [computeBatchGrads] computed at the parameters before the update. *)
Theorem step_gradient_descent (st : state num) (XY : list (num * num))
    (yTrue : list num) (lr : num) :
  shape_ok H st -> (length XY <= length yTrue)%nat ->
  exists g st',
    computeBatchGrads H actFun task st XY yTrue = Some g /\
    step H actFun task st XY yTrue lr = Some (loss g, st') /\
    length (W st') = length (W st) /\ length (B st') = length (B st) /\
    (forall l i j, (l < depth H)%nat -> (i < size H l)%nat ->
       (j < size H (l + 1))%nat ->
       at3 (W st') l i j = at3 (W st) l i j - lr * at3 (gW g) l i j) /\
    (forall l j, (l < depth H)%nat -> (j < size H (l + 1))%nat ->
       at2 (B st') l j = at2 (B st) l j - lr * at2 (gB g) l j).
Proof.
  intros Hsh Hlen.
  destruct (step_spec H actFun task st XY yTrue lr Hsh Hlen)
    as (g & st' & Eg & Es & (HW' & HB' & _) & H3 & H2).
  destruct Hsh as (HW & HB & _).
  exists g, st'. repeat split; try assumption; congruence.
Qed.

(** C4, as amended. With an empty batch neither call raises an error:
    [computeBatchGrads] returns the loss [0 / 0] and gradients whose every
    entry is [0 / 0], and [step] returns that loss with every parameter [p]
    replaced by [p - lr * (0 / 0)]. *)
Theorem empty_batch_quotients (st : state num) (lr : num) :
  shape_ok H st ->
  exists g st',
    computeBatchGrads H actFun task st [] [] = Some g /\
    loss g = zero / of_nat 0 /\
    (forall l i j, (l < depth H)%nat -> (i < size H l)%nat ->
       (j < size H (l + 1))%nat -> at3 (gW g) l i j = zero / of_nat 0) /\
    (forall l j, (l < depth H)%nat -> (j < size H (l + 1))%nat ->
       at2 (gB g) l j = zero / of_nat 0) /\
    step H actFun task st [] [] lr = Some (zero / of_nat 0, st') /\
    (forall l i j, (l < depth H)%nat -> (i < size H l)%nat ->
       (j < size H (l + 1))%nat ->
       at3 (W st') l i j = at3 (W st) l i j - lr * (zero / of_nat 0)) /\
    (forall l j, (l < depth H)%nat -> (j < size H (l + 1))%nat ->
       at2 (B st') l j = at2 (B st) l j - lr * (zero / of_nat 0)).
Proof.
  intros Hsh.
  destruct (step_spec H actFun task st [] [] lr Hsh (Nat.le_refl _))
    as (g & st' & Eg & Es & _ & H3 & H2).
  destruct (computeBatchGrads_spec H actFun task st [] [] Hsh (Nat.le_refl _))
    as (g' & Eg' & _ & G3 & G2 & Gl).
  assert (g' = g) by congruence. subst g'.
  exists g, st'. split; [exact Eg|]. split; [exact Gl|].
  split; [exact G3|]. split; [exact G2|].
  split; [rewrite Es, Gl; reflexivity|]. split.
  - intros l i j Hl Hi Hj. rewrite H3, G3 by assumption. reflexivity.
  - intros l j Hl Hj. rewrite H2, G2 by assumption. reflexivity.
Qed.

(** C5, as amended. Initialisation raises no error, whatever the hidden
    sizes are (a size below 1 included): the size sequence
    [[2, ...newLayers, 1]] has at least two entries, and [reinit] returns
    parameters of its shape as soon as [Math.random()] supplies enough
    non-zero values. *)
Theorem reinit_raises_no_error (src : list num) :
  (draws_needed H <= nonzero_draws src)%nat ->
  (2 <= length (sizes_of H))%nat /\
  exists st rest, reinit H src = Some (st, rest) /\ shape_ok H st.
Proof.
  intros Hsrc. split; [rewrite length_sizes_of; lia|].
  apply reinit_shape, Hsrc.
Qed.

(** C6. After [reinit], [W[l]] has [sizes[l]] rows of [sizes[l+1]] entries
    and [B[l]] has [sizes[l+1]] entries for every layer [l]; on such
    parameters [computeBatchGrads] returns gradients of the same shape, and
    [step] installs parameters of the same shape. *)
Theorem shape_invariant :
  (forall src, (draws_needed H <= nonzero_draws src)%nat ->
     exists st rest, reinit H src = Some (st, rest) /\ shape_ok H st) /\
  (forall st XY yTrue lr,
     shape_ok H st -> (length XY <= length yTrue)%nat ->
     (exists g, computeBatchGrads H actFun task st XY yTrue = Some g /\
                params_shape H (gW g) (gB g)) /\
     (exists l st', step H actFun task st XY yTrue lr = Some (l, st') /\
                    shape_ok H st')).
Proof.
  split; [intros src Hsrc; apply reinit_shape, Hsrc|].
  intros st XY yTrue lr Hsh Hlen. split.
  - destruct (computeBatchGrads_spec H actFun task st XY yTrue Hsh Hlen)
      as (g & Eg & Hg & _).
    exists g. auto.
  - destruct (step_spec H actFun task st XY yTrue lr Hsh Hlen)
      as (g & st' & _ & Es & Hsh' & _).
    exists (loss g), st'. auto.
Qed.
End EngineClaims.

Section ForwardClaim.
Context {num : Type} `{!Number num}.
Local Open Scope js_scope.

(** C2, as amended. On parameters of the right shape, [forward] returns the
    trace in which [a[0]] is the input, [z[l][j]] is
    [B[l][j] + sum_i a[l][i] * W[l][i][j]], [a[l+1]] is the hidden activation
    of [z[l]] for every layer but the last and, for the last layer, the
    sigmoid [1 / (1 + exp(-z))] of [z[l]] for classification and [z[l]]
    itself for regression, and [yhat] is [a[L-1][0]]. In particular, on the
    worked example (in exact arithmetic) the input [(1, 0)] yields
    [z[0] = [1, -1]], the hidden activations [[tanh 1, tanh (-1)]] and
    [yhat = tanh 1 + tanh (-1)]. *)
Theorem forward_formulas (H : list nat) (actFun : activation num) (task : Task)
    (st : state num) (x y : num) :
  shape_ok H st ->
  (exists tr,
     forward H actFun task st x y = Some tr /\
     tr_a tr = map (spec_a H actFun task st x y) (seq 0 (depth H + 1)) /\
     tr_z tr = map (spec_z H actFun task st x y) (seq 0 (depth H)) /\
     yhat tr = at1 (spec_a H actFun task st x y (depth H)) 0 /\
     spec_a H actFun task st x y 0 = [x; y] /\
     forall l, (l < depth H)%nat ->
       spec_z H actFun task st x y l =
       map (fun j => sum_from (at2 (B st) l j) (size H l)
                       (fun i => at1 (spec_a H actFun task st x y l) i
                                 * at3 (W st) l i j))
           (seq 0 (size H (l + 1))) /\
       spec_a H actFun task st x y (l + 1) =
       map (if Nat.eqb l (depth H - 1)
            then match task with
                 | classification => fun v => one / (one + Math_exp (- v))
                 | regression => fun v => v
                 end
            else f actFun)
           (spec_z H actFun task st x y l)) /\
  (exists tr,
     @forward R real_number example_layers (@act.tanh R real_number) regression
       example_state 1%R 0%R = Some tr /\
     tr_a tr = [[1; 0]; [tanh 1; tanh (-1)]; [tanh 1 + tanh (-1)]]%R /\
     tr_z tr = [[1; -1]; [tanh 1 + tanh (-1)]]%R /\
     yhat tr = (tanh 1 + tanh (-1))%R).
Proof.
  intros Hsh. split; [|exact example_forward].
  eexists. split; [apply forward_spec, Hsh|]. cbn [tr_a tr_z yhat].
  repeat split.
  replace (l + 1)%nat with (Datatypes.S l) by lia. cbn [spec_a].
  unfold layer_activation, output_activation.
  destruct (Nat.eqb l (depth H - 1)); [destruct task|]; reflexivity.
Qed.
End ForwardClaim.

Section RealEngineClaims.
#[local] Existing Instance real_number.
Local Open Scope R_scope.

Lemma forward_formulas_witness :
  exists tr,
    forward example_layers act.tanh regression example_state 1 0 = Some tr /\
    tr_a tr = map (spec_a example_layers act.tanh regression example_state 1 0)
                  (seq 0 (depth example_layers + 1)).
Proof.
  destruct (proj1 (forward_formulas example_layers act.tanh regression
                     example_state 1 0 example_shape))
    as (tr & E & Ha & _).
  exists tr. split; [exact E | exact Ha].
Defined.

(** C2 as stated fails on the worked example: the hidden pre-activations
    are [[1, -1]], not [[1, 0.5]]. *)
Lemma example_hidden_preactivations :
  exists tr,
    forward example_layers act.tanh regression example_state 1 0 = Some tr /\
    tr_z tr !! 0%nat = Some [1; -1] /\
    tr_z tr !! 0%nat <> Some [1; 0.5].
Proof.
  destruct example_forward as (tr & E & _ & Hz & _).
  exists tr. split; [exact E|]. rewrite Hz. split; [reflexivity|].
  intros Heq. injection Heq as Heq. lra.
Qed.

Lemma computeBatchGrads_formulas_witness :
  exists g,
    computeBatchGrads example_layers act.tanh regression example_state
      [(1, 0)] [1] = Some g /\
    loss g =
      sum_from zero 1 (fun k =>
        sample_loss regression
          (spec_yhat example_layers act.tanh regression example_state
             (sample_x [(1, 0)] k) (sample_y [(1, 0)] k))
          (sample_t [1] k))
      / of_nat 1.
Proof.
  destruct (computeBatchGrads_formulas example_layers act.tanh regression
              example_state [(1, 0)] [1] example_shape (Nat.le_refl 1))
    as (g & E & _ & _ & _ & Hl).
  exists g. split; [exact E | exact Hl].
Defined.

Lemma step_gradient_descent_witness :
  exists g st',
    computeBatchGrads example_layers act.tanh regression example_state
      [(1, 0)] [1] = Some g /\
    step example_layers act.tanh regression example_state [(1, 0)] [1] (/ 10)
      = Some (loss g, st').
Proof.
  destruct (step_gradient_descent example_layers act.tanh regression
              example_state [(1, 0)] [1] (/ 10) example_shape (Nat.le_refl 1))
    as (g & st' & E & Es & _).
  exists g, st'. split; [exact E | exact Es].
Defined.

Lemma empty_batch_quotients_witness :
  exists g st',
    computeBatchGrads example_layers act.tanh regression example_state [] []
      = Some g /\
    step example_layers act.tanh regression example_state [] [] (/ 10)
      = Some (zero / of_nat 0, st').
Proof.
  destruct (empty_batch_quotients example_layers act.tanh regression
              example_state (/ 10) example_shape)
    as (g & st' & E & _ & _ & _ & Es & _).
  exists g, st'. split; [exact E | exact Es].
Defined.

(** C4 as stated fails: on an empty batch both calls return, with no
    error. *)
Lemma empty_batch_returns :
  exists g r,
    computeBatchGrads example_layers act.tanh regression example_state [] []
      = Some g /\
    step example_layers act.tanh regression example_state [] [] (/ 10) = Some r.
Proof.
  destruct (step_spec example_layers act.tanh regression example_state [] []
              (/ 10) example_shape (Nat.le_refl 0))
    as (g & st' & E & Es & _).
  exists g, (loss g, st'). split; [exact E | exact Es].
Qed.

Lemma draws_needed_example : draws_needed example_layers = 18%nat.
Proof. reflexivity. Qed.

Lemma reinit_raises_no_error_witness :
  (2 <= length (sizes_of example_layers))%nat /\
  exists st rest,
    reinit example_layers (repeat (/ 2) 18) = Some (st, rest) /\
    shape_ok example_layers st.
Proof.
  apply (reinit_raises_no_error example_layers (repeat (/ 2) 18)).
  rewrite nonzero_draws_half, draws_needed_example. lia.
Defined.

(** C5 as stated fails: with a hidden layer of size 0, [reinit] returns
    parameters (empty rows), with no error. *)
Lemma reinit_accepts_empty_layer :
  exists st rest,
    reinit [0%nat] [/ 2; / 2] = Some (st, rest) /\
    W st = [[[]; []]; []].
Proof.
  unfold reinit, initWeights, initBiases, rbind, rlift, rret.
  cbn [sizes_of app removelast tail imap_rand lookup list_lookup Nat.add
       Array_from].
  unfold rbind, rret.
  rewrite (randn_cons2 (/ 2) (/ 2) []) by (apply strict_eq_real_false; lra).
  eexists _, _. split; reflexivity.
Qed.

Lemma shape_invariant_witness :
  exists st rest,
    reinit example_layers (repeat (/ 2) 18) = Some (st, rest) /\
    shape_ok example_layers st.
Proof.
  apply (proj1 (shape_invariant example_layers act.tanh regression)).
  rewrite nonzero_draws_half, draws_needed_example. lia.
Defined.
End RealEngineClaims.

(* ------------------------------------------------------------------ *)
(** ** The empty batch in IEEE arithmetic *)

Section FloatEmptyBatch.
Variable M : MathLib.

(** In binary64 arithmetic the quotient [0 / 0] of the empty batch is
    [NaN]: [computeBatchGrads] returns [NaN] for the loss and for every
    gradient, and [step] overwrites every parameter with [NaN]. *)
Lemma empty_batch_float :
  @computeBatchGrads float (float_number M) example_layers
    (@act.relu float (float_number M)) regression
    {| W := [[[1; -1]; [0.5; 0.5]]; [[1]; [1]]]%float;
       B := [[0; 0]; [0]]%float |} [] []
  = Some {| gW := [[[nan; nan]; [nan; nan]]; [[nan]; [nan]]];
            gB := [[nan; nan]; [nan]];
            loss := nan |} /\
  @step float (float_number M) example_layers
    (@act.relu float (float_number M)) regression
    {| W := [[[1; -1]; [0.5; 0.5]]; [[1]; [1]]]%float;
       B := [[0; 0]; [0]]%float |} [] [] 1%float
  = Some (nan, {| W := [[[nan; nan]; [nan; nan]]; [[nan]; [nan]]];
                  B := [[nan; nan]; [nan]] |}).
Proof. split; vm_compute; reflexivity. Qed.
End FloatEmptyBatch.

(* ================================================================== *)
(** * The gradients as derivatives *)

(* ------------------------------------------------------------------ *)
(** ** Finite sums of real numbers *)

Section RealSums.
#[local] Existing Instance real_number.
Local Open Scope R_scope.

Lemma sum_from_real_S (s0 : R) (n : nat) (term : nat -> R) :
  sum_from s0 (Datatypes.S n) term = sum_from s0 n term + term n.
Proof. exact (@sum_from_S R real_number s0 n term). Qed.

Lemma sum_from_start (s0 : R) (n : nat) (term : nat -> R) :
  sum_from s0 n term = s0 + sum_from 0 n term.
Proof.
  induction n as [|n IH]; [unfold sum_from; simpl; ring|].
  rewrite !sum_from_real_S, IH. ring.
Qed.

Lemma sum_from_ext (s0 : R) (n : nat) (term term' : nat -> R) :
  (forall i, (i < n)%nat -> term i = term' i) ->
  sum_from s0 n term = sum_from s0 n term'.
Proof.
  induction n as [|n IH]; intros E; [reflexivity|].
  rewrite !sum_from_real_S, IH, E by (intros; try apply E; lia). reflexivity.
Qed.

Lemma sum_from_scal (c : R) (n : nat) (term : nat -> R) :
  sum_from 0 n (fun i => term i * c) = sum_from 0 n term * c.
Proof.
  induction n as [|n IH]; [unfold sum_from; simpl; ring|].
  rewrite !sum_from_real_S, IH. ring.
Qed.

Lemma sum_from_zero (n : nat) : sum_from 0 n (fun _ => 0) = 0.
Proof.
  induction n as [|n IH]; [reflexivity|]. rewrite sum_from_real_S, IH. ring.
Qed.

Lemma sum_from_plus (n : nat) (term term' : nat -> R) :
  sum_from 0 n (fun i => term i + term' i) = sum_from 0 n term + sum_from 0 n term'.
Proof.
  induction n as [|n IH]; [unfold sum_from; simpl; ring|].
  rewrite !sum_from_real_S, IH. ring.
Qed.

Lemma sum_from_swap (n m : nat) (F : nat -> nat -> R) :
  sum_from 0 n (fun i => sum_from 0 m (fun j => F i j)) =
  sum_from 0 m (fun j => sum_from 0 n (fun i => F i j)).
Proof.
  induction n as [|n IH].
  - symmetry. apply (sum_from_zero m).
  - rewrite sum_from_real_S, IH, <- sum_from_plus.
    apply sum_from_ext. intros j _. rewrite sum_from_real_S. reflexivity.
Qed.

(** A sum with a single non-zero term. *)
Lemma sum_from_single (n i0 : nat) (c : R) (term : nat -> R) :
  (i0 < n)%nat ->
  (forall i, (i < n)%nat -> term i = if Nat.eqb i i0 then c else 0) ->
  sum_from 0 n term = c.
Proof.
  revert term. induction n as [|n IH]; intros term Hi E; [lia|].
  rewrite sum_from_real_S, (E n) by lia.
  destruct (Nat.eqb_spec n i0) as [->|Hne].
  - rewrite (sum_from_ext 0 i0 term (fun _ => 0)), sum_from_zero; [ring|].
    intros i Hlt. rewrite E by lia.
    destruct (Nat.eqb_spec i i0); [lia | reflexivity].
  - rewrite IH; [ring | lia |]. intros i Hlt. apply E. lia.
Qed.
End RealSums.

(* ------------------------------------------------------------------ *)
(** ** Derivatives of the pieces *)

Section Derivatives.
#[local] Existing Instance real_number.
Local Open Scope R_scope.

Lemma derivable_sum_from (n : nat) (s0 : R -> R) (term : nat -> R -> R)
    (ds0 : R) (dterm : nat -> R) (v0 : R) :
  derivable_pt_lim s0 v0 ds0 ->
  (forall i, (i < n)%nat -> derivable_pt_lim (term i) v0 (dterm i)) ->
  derivable_pt_lim (fun v => sum_from (s0 v) n (fun i => term i v)) v0
    (sum_from ds0 n dterm).
Proof.
  intros Hs. induction n as [|n IH]; intros Ht.
  - exact Hs.
  - rewrite sum_from_real_S.
    apply (derivable_pt_lim_ext
             (fun v => sum_from (s0 v) n (fun i => term i v) + term n v)).
    + intros v. rewrite sum_from_real_S. reflexivity.
    + apply (derivable_pt_lim_plus
               (fun v => sum_from (s0 v) n (fun i => term i v)) (term n)).
      * apply IH. intros i Hi. apply Ht. lia.
      * apply Ht. lia.
Qed.

Lemma derivable_const (c v0 : R) : derivable_pt_lim (fun _ => c) v0 0.
Proof. apply (derivable_pt_lim_const c v0). Qed.

Lemma derivable_times_const (g : R -> R) (c v0 d : R) :
  derivable_pt_lim g v0 d -> derivable_pt_lim (fun v => g v * c) v0 (d * c).
Proof.
  intros Hg. replace (d * c) with (d * c + g v0 * 0) by ring.
  apply (derivable_pt_lim_mult g (fun _ => c)); [exact Hg | apply derivable_const].
Qed.

Lemma derivable_const_times (g : R -> R) (c v0 d : R) :
  derivable_pt_lim g v0 d -> derivable_pt_lim (fun v => c * g v) v0 (c * d).
Proof.
  intros Hg. replace (c * d) with (0 * g v0 + c * d) by ring.
  apply (derivable_pt_lim_mult (fun _ => c) g); [apply derivable_const | exact Hg].
Qed.

(** The logistic function of the output layer, as [forward] writes it. *)
Lemma sigmoid_real (z : R) :
  output_activation classification z = / (1 + exp (- z)).
Proof.
  unfold output_activation. rewrite one_real. simpl. unfold Rdiv. ring.
Qed.

Lemma sigmoid_bounds (z : R) : 0 < output_activation classification z < 1.
Proof.
  rewrite sigmoid_real. pose proof (exp_pos (- z)) as He.
  split.
  - apply Rinv_0_lt_compat. lra.
  - apply Rmult_lt_reg_r with (1 + exp (- z)); [lra|].
    rewrite Rinv_l by lra. lra.
Qed.

Lemma derivable_sigmoid (z : R) :
  derivable_pt_lim (output_activation classification) z
    (output_activation classification z * (1 - output_activation classification z)).
Proof.
  pose proof (exp_pos (- z)) as He.
  apply (derivable_pt_lim_ext (fun v => 1 / (1 + exp (- v)))).
  { intros v. rewrite sigmoid_real. unfold Rdiv. ring. }
  assert (Hden : derivable_pt_lim (fun v => 1 + exp (- v)) z (0 + exp (- z) * -1)).
  { apply (derivable_pt_lim_plus (fun _ => 1) (fun v => exp (- v))).
    - apply derivable_const.
    - apply (derivable_pt_lim_comp (fun v => - v) exp).
      + replace (-1) with (- 1) by ring.
        apply (derivable_pt_lim_opp (fun v => v) z 1). apply derivable_pt_lim_id.
      + apply derivable_pt_lim_exp. }
  pose proof (derivable_pt_lim_div (fun _ => 1) (fun v => 1 + exp (- v)) z 0
                (0 + exp (- z) * -1) (derivable_const 1 z) Hden ltac:(lra)) as Hd.
  rewrite sigmoid_real.
  replace (/ (1 + exp (- z)) * (1 - / (1 + exp (- z))))
    with ((0 * (1 + exp (- z)) - (0 + exp (- z) * -1) * 1) / (1 + exp (- z))²).
  - exact Hd.
  - unfold Rsqr. field. lra.
Qed.

(** The cross-entropy of the logistic output, as a function of the output
    pre-activation, has the derivative [yhat - t]: the output delta. *)
Lemma derivable_bce_sigmoid (t z : R) :
  derivable_pt_lim (fun v => bce (output_activation classification v) t) z
    (output_activation classification z - t).
Proof.
  pose proof (sigmoid_bounds z) as [Hlo Hhi].
  pose proof (derivable_sigmoid z) as Hs.
  set (s := output_activation classification) in *.
  assert (H1 : derivable_pt_lim (fun v => ln (s v)) z (/ s z * (s z * (1 - s z)))).
  { apply (derivable_pt_lim_comp s ln); [exact Hs | apply derivable_pt_lim_ln, Hlo]. }
  assert (H2 : derivable_pt_lim (fun v => ln (1 - s v)) z
                 (/ (1 - s z) * (0 - s z * (1 - s z)))).
  { apply (derivable_pt_lim_comp (fun v => 1 - s v) ln).
    - apply (derivable_pt_lim_minus (fun _ => 1) s); [apply derivable_const | exact Hs].
    - apply derivable_pt_lim_ln. lra. }
  replace (s z - t)
    with (- (t * (/ s z * (s z * (1 - s z)))
             + (1 - t) * (/ (1 - s z) * (0 - s z * (1 - s z)))))
    by (field; lra).
  unfold bce.
  apply (derivable_pt_lim_opp
           (fun v => t * ln (s v) + (1 - t) * ln (1 - s v))).
  apply (derivable_pt_lim_plus (fun v => t * ln (s v)) (fun v => (1 - t) * ln (1 - s v)));
    apply derivable_const_times; assumption.
Qed.
End Derivatives.

(* ------------------------------------------------------------------ *)
(** ** The formulas read the parameters entry by entry *)

Section FormulasExt.
Context {num : Type} `{!Number num}.
Variable H : list nat.
Variable actFun : activation num.
Variable task : Task.

Lemma sum_from_ext_gen (s0 : num) (n : nat) (term term' : nat -> num) :
  (forall i, (i < n)%nat -> term i = term' i) ->
  sum_from s0 n term = sum_from s0 n term'.
Proof.
  induction n as [|n IH]; intros E; [reflexivity|].
  rewrite !sum_from_S, IH, E by (intros; try apply E; lia). reflexivity.
Qed.

Lemma layer_z_ext (s1 s2 : state num) (l : nat) (al : list num) :
  (forall i j, at3 (W s1) l i j = at3 (W s2) l i j) ->
  (forall j, at2 (B s1) l j = at2 (B s2) l j) ->
  layer_z H s1 l al = layer_z H s2 l al.
Proof.
  intros HW HB. unfold layer_z. apply map_ext. intros j.
  rewrite HB. apply sum_from_ext_gen. intros i _. rewrite HW. reflexivity.
Qed.

(** Parameters that agree on the layers below [L] give the same
    activations up to layer [L] and the same pre-activations below it. *)
Lemma spec_a_ext (s1 s2 : state num) (x y : num) (L : nat) :
  (forall l i j, (l < L)%nat -> at3 (W s1) l i j = at3 (W s2) l i j) ->
  (forall l j, (l < L)%nat -> at2 (B s1) l j = at2 (B s2) l j) ->
  forall l, (l <= L)%nat ->
    spec_a H actFun task s1 x y l = spec_a H actFun task s2 x y l.
Proof.
  intros HW HB l. induction l as [|k IH]; intros Hl; [reflexivity|].
  cbn [spec_a]. rewrite IH by lia. f_equal.
  apply layer_z_ext; intros; [apply HW | apply HB]; lia.
Qed.

Lemma spec_z_ext (s1 s2 : state num) (x y : num) (L : nat) :
  (forall l i j, (l < L)%nat -> at3 (W s1) l i j = at3 (W s2) l i j) ->
  (forall l j, (l < L)%nat -> at2 (B s1) l j = at2 (B s2) l j) ->
  forall l, (l < L)%nat ->
    spec_z H actFun task s1 x y l = spec_z H actFun task s2 x y l.
Proof.
  intros HW HB l Hl. unfold spec_z.
  rewrite (spec_a_ext s1 s2 x y L HW HB l) by lia.
  apply layer_z_ext; intros; [apply HW | apply HB]; lia.
Qed.

(** The entries of [z[l]] and of [a[l+1]]. *)
Lemma at1_spec_z (st : state num) (x y : num) (l j : nat) :
  (j < size H (l + 1))%nat ->
  at1 (spec_z H actFun task st x y l) j =
  sum_from (at2 (B st) l j) (size H l)
    (fun i => mul (at1 (spec_a H actFun task st x y l) i) (at3 (W st) l i j)).
Proof.
  intros Hj. unfold spec_z, layer_z.
  apply (at1_map_seq (fun j => sum_from (at2 (B st) l j) (size H l)
           (fun i => mul (at1 (spec_a H actFun task st x y l) i) (at3 (W st) l i j)))
           (size H (l + 1)) j Hj).
Qed.

Lemma at1_spec_a_succ (st : state num) (x y : num) (l i : nat) :
  (i < size H (l + 1))%nat ->
  at1 (spec_a H actFun task st x y (Datatypes.S l)) i =
  layer_activation H actFun task l (at1 (spec_z H actFun task st x y l) i).
Proof.
  intros Hi. cbn [spec_a]. unfold at1, spec_z.
  apply nth_map_in. rewrite length_layer_z. exact Hi.
Qed.
End FormulasExt.

Section OutputLayer.
#[local] Existing Instance real_number.
Variable H : list nat.
Variable actFun : activation R.

(** The prediction is the logistic function of the last pre-activation. *)
Lemma spec_yhat_sigmoid (s : state R) (x y : R) :
  spec_yhat H actFun classification s x y =
  output_activation classification
    (at1 (spec_z H actFun classification s x y (depth H - 1)) 0).
Proof.
  pose proof (depth_pos H) as Hd. unfold spec_yhat.
  replace (depth H) with (Datatypes.S (depth H - 1)) at 1 by lia.
  rewrite at1_spec_a_succ.
  - unfold layer_activation. rewrite Nat.eqb_refl. reflexivity.
  - replace (depth H - 1 + 1)%nat with (depth H) by lia. rewrite size_depth. lia.
Qed.
End OutputLayer.

(* ------------------------------------------------------------------ *)
(** ** The chain rule through the layers *)

Section ChainRule.
#[local] Existing Instance real_number.
Variable H : list nat.
Variable actFun : activation R.
Local Open Scope R_scope.

(** The parameters [stv v] depend on a real variable [v]; they differ from
    [st] in layer [l0] only, agree with [st] at [v0], and the entries of
    layer [l0] are differentiable at [v0] with the rates [dW] and [dB]. *)
Variable st : state R.
Variable stv : R -> state R.
Variables (v0 : R) (l0 : nat).
Variables (dW : nat -> nat -> R) (dB : nat -> R).
Variables x y t : R.

Hypothesis l0_in : (l0 < depth H)%nat.
Hypothesis other_W : forall v l i j,
  l <> l0 -> at3 (W (stv v)) l i j = at3 (W st) l i j.
Hypothesis other_B : forall v l j,
  l <> l0 -> at2 (B (stv v)) l j = at2 (B st) l j.
Hypothesis at_v0_W : forall i j, at3 (W (stv v0)) l0 i j = at3 (W st) l0 i j.
Hypothesis at_v0_B : forall j, at2 (B (stv v0)) l0 j = at2 (B st) l0 j.
Hypothesis deriv_W : forall i j,
  (i < size H l0)%nat -> (j < size H (l0 + 1))%nat ->
  derivable_pt_lim (fun v => at3 (W (stv v)) l0 i j) v0 (dW i j).
Hypothesis deriv_B : forall j,
  (j < size H (l0 + 1))%nat ->
  derivable_pt_lim (fun v => at2 (B (stv v)) l0 j) v0 (dB j).
Hypothesis smooth : forall l i,
  (l + 1 < depth H)%nat -> (i < size H (l + 1))%nat ->
  derivable_pt_lim (f actFun)
    (at1 (spec_z H actFun classification st x y l) i)
    (df actFun (at1 (spec_z H actFun classification st x y l) i)).

Lemma spec_a_below (v : R) (l : nat) :
  (l <= l0)%nat ->
  spec_a H actFun classification (stv v) x y l
  = spec_a H actFun classification st x y l.
Proof.
  apply (spec_a_ext H actFun classification (stv v) st x y l0).
  - intros l' i j Hl'. apply other_W. lia.
  - intros l' j Hl'. apply other_B. lia.
Qed.

Lemma spec_z_at_v0 (l : nat) :
  spec_z H actFun classification (stv v0) x y l
  = spec_z H actFun classification st x y l.
Proof.
  apply (spec_z_ext H actFun classification (stv v0) st x y (Datatypes.S l)); [| |lia].
  - intros l' i j _. destruct (decide (l' = l0)) as [->|Hne];
      [apply at_v0_W | apply other_W, Hne].
  - intros l' j _. destruct (decide (l' = l0)) as [->|Hne];
      [apply at_v0_B | apply other_B, Hne].
Qed.

(** From layer [l0] up, every [z[l][j]] is differentiable in [v], and the
    deltas of layer [l] weigh the rates of [z[l]] to the same total. *)
Lemma rates_through_layers (d : nat) :
  (l0 + d < depth H)%nat ->
  exists dz : nat -> R,
    (forall j, (j < size H (l0 + d + 1))%nat ->
       derivable_pt_lim
         (fun v => at1 (spec_z H actFun classification (stv v) x y (l0 + d)) j)
         v0 (dz j)) /\
    sum_from 0 (size H (l0 + d + 1))
      (fun j => at1 (spec_delta H actFun classification st x y t (l0 + d)) j * dz j)
    = delta_rate H l0 (spec_delta H actFun classification st x y t l0)
        (spec_a H actFun classification st x y l0) dW dB.
Proof.
  induction d as [|d IH]; intros Hd.
  - rewrite Nat.add_0_r.
    exists (fun j => sum_from (dB j) (size H l0)
                       (fun i => at1 (spec_a H actFun classification st x y l0) i * dW i j)).
    split; [|reflexivity].
    intros j Hj.
    apply (derivable_pt_lim_ext
             (fun v => sum_from (at2 (B (stv v)) l0 j) (size H l0)
                (fun i => at1 (spec_a H actFun classification st x y l0) i
                          * at3 (W (stv v)) l0 i j))).
    { intros v. rewrite at1_spec_z by exact Hj.
      rewrite spec_a_below by lia. reflexivity. }
    apply (derivable_sum_from (size H l0) (fun v => at2 (B (stv v)) l0 j)
             (fun i v => at1 (spec_a H actFun classification st x y l0) i
                         * at3 (W (stv v)) l0 i j)).
    + apply deriv_B, Hj.
    + intros i Hi. apply derivable_const_times. apply deriv_W; assumption.
  - destruct IH as (dz & Hdz & Hsum); [lia|].
    replace (l0 + Datatypes.S d)%nat with (Datatypes.S (l0 + d)) in * by lia.
    set (l := (l0 + d)%nat) in *.
    set (zl := spec_z H actFun classification st x y l) in *.
    exists (fun j => sum_from 0 (size H (Datatypes.S l))
                       (fun i => df actFun (at1 zl i) * dz i
                                 * at3 (W st) (Datatypes.S l) i j)).
    split.
    + intros j Hj.
      apply (derivable_pt_lim_ext
               (fun v => sum_from (at2 (B st) (Datatypes.S l) j) (size H (Datatypes.S l))
                  (fun i => f actFun (at1 (spec_z H actFun classification (stv v) x y l) i)
                            * at3 (W st) (Datatypes.S l) i j))).
      { intros v. rewrite at1_spec_z by exact Hj. rewrite other_B by lia.
        apply sum_from_ext. intros i Hi. rewrite other_W by lia.
        rewrite at1_spec_a_succ by (replace (l + 1)%nat with (Datatypes.S l) by lia; exact Hi).
        unfold layer_activation.
        destruct (Nat.eqb_spec l (depth H - 1)) as [E|_]; [lia | reflexivity]. }
      apply (derivable_sum_from (size H (Datatypes.S l)) (fun _ => at2 (B st) (Datatypes.S l) j)
               (fun i v => f actFun (at1 (spec_z H actFun classification (stv v) x y l) i)
                           * at3 (W st) (Datatypes.S l) i j)).
      * apply derivable_const.
      * intros i Hi. apply derivable_times_const.
        assert (Hi' : (i < size H (l + 1))%nat)
          by (replace (l + 1)%nat with (Datatypes.S l) by lia; exact Hi).
        pose proof (Hdz i Hi') as Hz.
        pose proof (smooth l i ltac:(lia) Hi') as Hf.
        rewrite <- (spec_z_at_v0 l) in Hf at 1. fold zl in Hf.
        pose proof (derivable_pt_lim_comp _ _ v0 (dz i) (df actFun (at1 zl i)) Hz Hf)
          as Hc.
        exact Hc.
    + rewrite <- Hsum.
      replace (l + 1)%nat with (Datatypes.S l) by lia.
      replace (Datatypes.S l + 1)%nat with (l + 2)%nat by lia.
      rewrite (sum_from_ext 0 (size H (Datatypes.S l))
                 (fun j => at1 (spec_delta H actFun classification st x y t l) j * dz j)
                 (fun i => sum_from 0 (size H (l + 2))
                    (fun j => at1 (spec_delta H actFun classification st x y t (Datatypes.S l)) j
                              * (df actFun (at1 zl i) * dz i
                                 * at3 (W st) (Datatypes.S l) i j)))).
      * rewrite sum_from_swap. apply sum_from_ext. intros j Hj.
        rewrite Rmult_comm, <- sum_from_scal.
        apply sum_from_ext. intros i Hi. ring.
      * intros i Hi.
        rewrite (spec_delta_step H actFun classification st x y t l) by lia.
        rewrite (at1_map_seq _ (size H (l + 1)) i)
          by (replace (l + 1)%nat with (Datatypes.S l) by lia; exact Hi).
        rewrite zero_real.
        replace (l + 1)%nat with (Datatypes.S l) by lia. fold zl.
        change (@mul R real_number) with Rmult.
        rewrite Rmult_assoc, <- sum_from_scal.
        apply sum_from_ext. intros j Hj. ring.
Qed.
(** The cross-entropy of the prediction is differentiable in [v], with the
    derivative that the deltas of layer [l0] give. *)
Lemma loss_rate :
  derivable_pt_lim
    (fun v => bce (spec_yhat H actFun classification (stv v) x y) t) v0
    (delta_rate H l0 (spec_delta H actFun classification st x y t l0)
       (spec_a H actFun classification st x y l0) dW dB).
Proof.
  pose proof (depth_pos H) as Hd.
  destruct (rates_through_layers (depth H - 1 - l0)) as (dz & Hdz & Hsum); [lia|].
  replace (l0 + (depth H - 1 - l0))%nat with (depth H - 1)%nat in * by lia.
  replace (depth H - 1 + 1)%nat with (depth H) in * by lia.
  rewrite size_depth in *.
  rewrite <- Hsum.
  rewrite sum_from_real_S. change (sum_from 0 0 ?g) with 0.
  rewrite spec_delta_last. change (at1 [?v] 0) with v.
  change (@sub R real_number) with Rminus.
  rewrite (spec_yhat_sigmoid H actFun st), <- (spec_z_at_v0 (depth H - 1)).
  apply (derivable_pt_lim_ext
           (fun v => bce (output_activation classification
                            (at1 (spec_z H actFun classification (stv v) x y
                                    (depth H - 1)) 0)) t)).
  { intros v. rewrite spec_yhat_sigmoid. reflexivity. }
  pose proof (derivable_pt_lim_comp _ _ v0 (dz 0%nat) _ (Hdz 0%nat ltac:(lia))
                (derivable_bce_sigmoid t
                   (at1 (spec_z H actFun classification (stv v0) x y (depth H - 1)) 0)))
    as Hc.
  rewrite Rplus_0_l. exact Hc.
Qed.
End ChainRule.

(* ------------------------------------------------------------------ *)
(** ** One weight, one bias *)

Section ParameterRates.
#[local] Existing Instance real_number.
Variable H : list nat.
Variable actFun : activation R.
Local Open Scope R_scope.

Variable st : state R.
Variables x y t : R.
Hypothesis st_shape : shape_ok H st.
Hypothesis smooth : forall l i,
  (l + 1 < depth H)%nat -> (i < size H (l + 1))%nat ->
  derivable_pt_lim (f actFun)
    (at1 (spec_z H actFun classification st x y l) i)
    (df actFun (at1 (spec_z H actFun classification st x y l) i)).

Lemma set_W_shape (l i j : nat) (v : R) : shape_ok H (set_W st l i j v).
Proof. apply params_shape_upd3, st_shape. Qed.

Lemma set_B_shape (l j : nat) (v : R) : shape_ok H (set_B st l j v).
Proof. apply params_shape_upd2, st_shape. Qed.

(** The derivative of the cross-entropy of one sample in the weight
    [W[l0][i0][j0]] is [a[l0][i0] * delta[l0][j0]]. *)
Lemma weight_rate (l0 i0 j0 : nat) :
  (l0 < depth H)%nat -> (i0 < size H l0)%nat -> (j0 < size H (l0 + 1))%nat ->
  derivable_pt_lim
    (fun v => bce (spec_yhat H actFun classification (set_W st l0 i0 j0 v) x y) t)
    (at3 (W st) l0 i0 j0)
    (at1 (spec_a H actFun classification st x y l0) i0
     * at1 (spec_delta H actFun classification st x y t l0) j0).
Proof.
  intros Hl Hi Hj.
  destruct (params_shape_get3 H (W st) (B st) l0 i0 j0 st_shape Hl Hi Hj)
    as (_ & R1 & R2 & R3).
  pose proof (loss_rate H actFun st (set_W st l0 i0 j0) (at3 (W st) l0 i0 j0) l0
                (fun i j => if (Nat.eqb i i0 && Nat.eqb j j0)%bool then 1 else 0)
                (fun _ => 0) x y t Hl) as Hrate.
  replace (at1 (spec_a H actFun classification st x y l0) i0
           * at1 (spec_delta H actFun classification st x y t l0) j0)
    with (delta_rate H l0 (spec_delta H actFun classification st x y t l0)
            (spec_a H actFun classification st x y l0)
            (fun i j => if (Nat.eqb i i0 && Nat.eqb j j0)%bool then 1 else 0)
            (fun _ => 0)).
  - apply Hrate; clear Hrate.
    + intros v l i j Hne. apply upd3_other. congruence.
    + intros v l j Hne. reflexivity.
    + intros i j. destruct (decide ((l0, i, j) = (l0, i0, j0))) as [E|Ne].
      * injection E as -> ->. apply upd3_same; assumption.
      * apply upd3_other, Ne.
    + intros j. reflexivity.
    + intros i j Hi' Hj'.
      destruct (Nat.eqb_spec i i0) as [->|Hni]; [destruct (Nat.eqb_spec j j0) as [->|Hnj]|];
        cbn [andb].
      * apply (derivable_pt_lim_ext (fun v => v)); [|apply derivable_pt_lim_id].
        intros v. symmetry. apply upd3_same; assumption.
      * apply (derivable_pt_lim_ext (fun _ => at3 (W st) l0 i0 j)); [|apply derivable_const].
        intros v. symmetry. apply upd3_other. congruence.
      * apply (derivable_pt_lim_ext (fun _ => at3 (W st) l0 i j)); [|apply derivable_const].
        intros v. symmetry. apply upd3_other. congruence.
    + intros j Hj'. apply (derivable_const (at2 (B st) l0 j)).
    + exact smooth.
  - unfold delta_rate.
    apply (sum_from_single _ j0); [exact Hj|]. intros j Hj'.
    destruct (Nat.eqb_spec j j0) as [->|Hnj].
    + rewrite (sum_from_single (size H l0) i0
                 (at1 (spec_a H actFun classification st x y l0) i0)); [ring | exact Hi |].
      intros i Hi'. destruct (Nat.eqb_spec i i0) as [->|Hni]; cbn [andb]; ring.
    + rewrite (sum_from_ext 0 (size H l0) _ (fun _ => 0)), sum_from_zero; [ring|].
      intros i Hi'. rewrite Bool.andb_false_r. ring.
Qed.

(** The derivative of the cross-entropy of one sample in the bias
    [B[l0][j0]] is [delta[l0][j0]]. *)
Lemma bias_rate (l0 j0 : nat) :
  (l0 < depth H)%nat -> (j0 < size H (l0 + 1))%nat ->
  derivable_pt_lim
    (fun v => bce (spec_yhat H actFun classification (set_B st l0 j0 v) x y) t)
    (at2 (B st) l0 j0)
    (at1 (spec_delta H actFun classification st x y t l0) j0).
Proof.
  intros Hl Hj.
  destruct (params_shape_get2 H (W st) (B st) l0 j0 st_shape Hl Hj) as (_ & R1 & R2).
  pose proof (loss_rate H actFun st (set_B st l0 j0) (at2 (B st) l0 j0) l0
                (fun _ _ => 0) (fun j => if Nat.eqb j j0 then 1 else 0)
                x y t Hl) as Hrate.
  replace (at1 (spec_delta H actFun classification st x y t l0) j0)
    with (delta_rate H l0 (spec_delta H actFun classification st x y t l0)
            (spec_a H actFun classification st x y l0)
            (fun _ _ => 0) (fun j => if Nat.eqb j j0 then 1 else 0)).
  - apply Hrate; clear Hrate.
    + intros v l i j Hne. reflexivity.
    + intros v l j Hne. apply upd2_other. congruence.
    + intros i j. reflexivity.
    + intros j. destruct (decide ((l0, j) = (l0, j0))) as [E|Ne].
      * injection E as ->. apply upd2_same; assumption.
      * apply upd2_other, Ne.
    + intros i j Hi' Hj'. apply (derivable_const (at3 (W st) l0 i j)).
    + intros j Hj'. destruct (Nat.eqb_spec j j0) as [->|Hnj].
      * apply (derivable_pt_lim_ext (fun v => v)); [|apply derivable_pt_lim_id].
        intros v. symmetry. apply upd2_same; assumption.
      * apply (derivable_pt_lim_ext (fun _ => at2 (B st) l0 j)); [|apply derivable_const].
        intros v. symmetry. apply upd2_other. congruence.
    + exact smooth.
  - unfold delta_rate.
    apply (sum_from_single _ j0); [exact Hj|]. intros j Hj'.
    rewrite sum_from_start.
    rewrite (sum_from_ext 0 (size H l0) _ (fun _ => 0)), sum_from_zero
      by (intros; ring).
    destruct (Nat.eqb_spec j j0) as [->|Hnj]; ring.
Qed.
End ParameterRates.

(* ------------------------------------------------------------------ *)
(** ** The two activations *)

Section ActivationDerivatives.
#[local] Existing Instance real_number.
Local Open Scope R_scope.

Lemma cosh_pos (z : R) : 0 < cosh z.
Proof.
  unfold cosh. pose proof (exp_pos z). pose proof (exp_pos (- z)). lra.
Qed.

Lemma cosh2_sinh2 (z : R) : cosh z * cosh z - sinh z * sinh z = 1.
Proof.
  unfold cosh, sinh.
  replace ((exp z + exp (- z)) / 2 * ((exp z + exp (- z)) / 2)
           - (exp z - exp (- z)) / 2 * ((exp z - exp (- z)) / 2))
    with (exp z * exp (- z)) by field.
  rewrite <- exp_plus, Rplus_opp_r. apply exp_0.
Qed.

(** [tanh] is differentiable everywhere, with the derivative the registry
    gives, [1 - tanh(z)^2]. *)
Lemma derivable_tanh (z : R) :
  derivable_pt_lim (f act.tanh) z (df act.tanh z).
Proof.
  pose proof (cosh_pos z) as Hc. pose proof (cosh2_sinh2 z) as Hcs.
  cbn [f df act.tanh]. rewrite one_real.
  change (derivable_pt_lim (sinh / cosh)%F z (1 - tanh z * tanh z)).
  replace (1 - tanh z * tanh z)
    with ((cosh z * cosh z - sinh z * sinh z) / (cosh z)²).
  - apply derivable_pt_lim_div;
      [apply derivable_pt_lim_sinh | apply derivable_pt_lim_cosh | lra].
  - unfold tanh, Rsqr. rewrite Hcs. field_simplify_eq; [|lra]. lra.
Qed.

Lemma relu_real (z : R) : f act.relu z = if Rlt_dec 0 z then z else 0.
Proof.
  cbn [f act.relu]. rewrite zero_real. cbn [gtb real_number].
  destruct (Rlt_dec 0 z); reflexivity.
Qed.

Lemma relu_df_real (z : R) : df act.relu z = if Rlt_dec 0 z then 1 else 0.
Proof.
  cbn [df act.relu]. rewrite zero_real, one_real. cbn [gtb real_number].
  destruct (Rlt_dec 0 z); reflexivity.
Qed.

(** [ReLU] is differentiable, with the derivative the registry gives,
    everywhere but at 0. *)
Lemma derivable_relu (z : R) :
  z <> 0 -> derivable_pt_lim (f act.relu) z (df act.relu z).
Proof.
  intros Hz. rewrite relu_df_real. destruct (Rlt_dec 0 z) as [Hpos|Hneg].
  - apply (derivable_pt_lim_locally_ext (fun v => v) (f act.relu) z (z / 2) (z + 1));
      [lra | | apply derivable_pt_lim_id].
    intros v Hv. rewrite relu_real. destruct (Rlt_dec 0 v); [reflexivity | lra].
  - apply (derivable_pt_lim_locally_ext (fun _ => 0) (f act.relu) z (z - 1) (z / 2));
      [lra | | apply derivable_const].
    intros v Hv. rewrite relu_real. destruct (Rlt_dec 0 v); [lra | reflexivity].
Qed.
End ActivationDerivatives.

(* ------------------------------------------------------------------ *)
(** ** The batch mean *)

Section BatchDerivatives.
#[local] Existing Instance real_number.
Variable H : list nat.
Variable actFun : activation R.
Local Open Scope R_scope.

Lemma of_nat_real (n : nat) : of_nat n = INR n.
Proof. unfold of_nat. rewrite int_real. symmetry. apply INR_IZR_INZ. Qed.

Lemma predicted_spec (st : state R) (x y : R) :
  shape_ok H st ->
  predicted H actFun st x y = spec_yhat H actFun classification st x y.
Proof.
  intros Hsh. unfold predicted.
  rewrite (forward_spec H actFun classification st x y Hsh). reflexivity.
Qed.

(** On the trace of [forward], the hypothesis on the hidden activation
    reads on the formulas. *)
Lemma smooth_on_batch_spec (st : state R) (XY : list (R * R)) (k l i : nat) :
  shape_ok H st -> smooth_on_batch H actFun st XY ->
  (k < length XY)%nat -> (l + 1 < depth H)%nat -> (i < size H (l + 1))%nat ->
  derivable_pt_lim (f actFun)
    (at1 (spec_z H actFun classification st (sample_x XY k) (sample_y XY k) l) i)
    (df actFun
       (at1 (spec_z H actFun classification st (sample_x XY k) (sample_y XY k) l) i)).
Proof.
  intros Hsh Hsm Hk Hl Hi.
  apply (Hsm k _ l
           (spec_z H actFun classification st (sample_x XY k) (sample_y XY k) l) i
           _ Hk (forward_spec H actFun classification st _ _ Hsh) Hl).
  - cbn [tr_z]. apply map_seq_lookup. lia.
  - apply lookup_nth. rewrite length_spec_z. exact Hi.
Qed.

Lemma derivable_mean (n : nat) (term : nat -> R -> R) (dterm : nat -> R) (v0 : R) :
  (forall k, (k < n)%nat -> derivable_pt_lim (term k) v0 (dterm k)) ->
  derivable_pt_lim (fun v => sum_from 0 n (fun k => term k v) / INR n) v0
    (sum_from 0 n dterm / INR n).
Proof.
  intros Ht. unfold Rdiv. apply derivable_times_const.
  apply (derivable_sum_from n (fun _ => 0) term 0 dterm v0);
    [apply derivable_const | exact Ht].
Qed.

(** The cross-entropy that the returned loss uses, with its offsets, is
    strictly below the cross-entropy without them. *)
Lemma sample_loss_below_bce (yh t : R) :
  0 < yh < 1 -> 0 <= t <= 1 -> sample_loss classification yh t < bce yh t.
Proof.
  intros Hy Ht. unfold sample_loss, bce. rewrite one_real.
  cbn [lit real_number add sub mul neg Math_log].
  assert (He : 0 < Q2R 1e-8).
  { change (1e-8)%Q with (1 # 100000000)%Q. unfold Q2R. cbn [Qnum Qden]. lra. }
  pose proof (ln_increasing yh (yh + Q2R 1e-8) ltac:(lra) ltac:(lra)) as H1.
  pose proof (ln_increasing (1 - yh) (1 - yh + Q2R 1e-8) ltac:(lra) ltac:(lra)) as H2.
  set (a := ln yh) in *. set (a' := ln (yh + Q2R 1e-8)) in *.
  set (b := ln (1 - yh)) in *. set (b' := ln (1 - yh + Q2R 1e-8)) in *.
  pose proof (Rmult_le_pos t (a' - a) ltac:(lra) ltac:(lra)) as Pa.
  pose proof (Rmult_le_pos (1 - t) (b' - b) ltac:(lra) ltac:(lra)) as Pb.
  destruct (Rle_lt_dec t (1 / 2)) as [Hle|Hgt].
  - pose proof (Rmult_lt_0_compat (1 - t) (b' - b) ltac:(lra) ltac:(lra)). lra.
  - pose proof (Rmult_lt_0_compat t (a' - a) ltac:(lra) ltac:(lra)). lra.
Qed.
End BatchDerivatives.

Section GradientClaim.
#[local] Existing Instance real_number.
Variable H : list nat.
Variable actFun : activation R.
Local Open Scope R_scope.

Lemma mean_bce_spec (XY : list (R * R)) (yTrue : list R) (st : state R) :
  shape_ok H st ->
  mean_bce H actFun XY yTrue st =
  sum_from 0 (length XY)
    (fun k => bce (spec_yhat H actFun classification st (sample_x XY k) (sample_y XY k))
                  (sample_t yTrue k))
  / INR (length XY).
Proof.
  intros Hsh. unfold mean_bce. f_equal. apply sum_from_ext. intros k _.
  rewrite predicted_spec by exact Hsh. reflexivity.
Qed.

(** C10, as amended. For every non-empty classification batch on which the
    hidden activation is differentiable, with derivative [df], at every
    hidden pre-activation (always so for [tanh]; for [ReLU] when no hidden
    pre-activation is exactly 0), every gradient that [computeBatchGrads]
    returns is the derivative, in its weight or bias, of the batch mean of
    the cross-entropy without offsets of the sigmoid output; the gradient of
    the output bias is the batch mean of [yhat - target]; the returned loss
    is the batch mean of the cross-entropy with the offsets [1e-8] inside
    the logarithms, which is strictly below the one without offsets for
    predictions in [(0,1)] and targets in [[0,1]]. *)
Theorem gradients_are_derivatives (st : state R) (XY : list (R * R))
    (yTrue : list R) :
  shape_ok H st -> (0 < length XY)%nat -> (length XY <= length yTrue)%nat ->
  smooth_on_batch H actFun st XY ->
  exists g,
    computeBatchGrads H actFun classification st XY yTrue = Some g /\
    (forall l i j, (l < depth H)%nat -> (i < size H l)%nat ->
       (j < size H (l + 1))%nat ->
       derivable_pt_lim
         (fun v => mean_bce H actFun XY yTrue (set_W st l i j v))
         (at3 (W st) l i j) (at3 (gW g) l i j)) /\
    (forall l j, (l < depth H)%nat -> (j < size H (l + 1))%nat ->
       derivable_pt_lim
         (fun v => mean_bce H actFun XY yTrue (set_B st l j v))
         (at2 (B st) l j) (at2 (gB g) l j)) /\
    at2 (gB g) (depth H - 1) 0 =
      sum_from 0 (length XY)
        (fun k => predicted H actFun st (sample_x XY k) (sample_y XY k)
                  - sample_t yTrue k)
      / INR (length XY) /\
    loss g =
      sum_from 0 (length XY)
        (fun k =>
           let yh := predicted H actFun st (sample_x XY k) (sample_y XY k) in
           let t := sample_t yTrue k in
           - (t * ln (yh + Q2R 1e-8) + (1 - t) * ln (1 - yh + Q2R 1e-8)))
      / INR (length XY) /\
    (forall yh t, 0 < yh < 1 -> 0 <= t <= 1 ->
       - (t * ln (yh + Q2R 1e-8) + (1 - t) * ln (1 - yh + Q2R 1e-8)) < bce yh t).
Proof.
  intros Hsh Hn Hlen Hsm.
  destruct (computeBatchGrads_spec H actFun classification st XY yTrue Hsh Hlen)
    as (g & Eg & _ & H3 & H2 & Hloss).
  pose proof (depth_pos H) as Hd.
  exists g. split; [exact Eg|]. split; [|split; [|split; [|split]]].
  - intros l i j Hl Hi Hj. rewrite (H3 l i j Hl Hi Hj).
    unfold acc_gW. rewrite zero_real, of_nat_real.
    apply (derivable_pt_lim_ext
             (fun v => sum_from 0 (length XY)
                (fun k => bce (spec_yhat H actFun classification (set_W st l i j v)
                                 (sample_x XY k) (sample_y XY k))
                              (sample_t yTrue k))
              / INR (length XY))).
    { intros v. symmetry. apply mean_bce_spec, set_W_shape, Hsh. }
    apply (derivable_mean (length XY)
             (fun k v => bce (spec_yhat H actFun classification (set_W st l i j v)
                                (sample_x XY k) (sample_y XY k))
                             (sample_t yTrue k))).
    intros k Hk. apply weight_rate; try assumption.
    intros l' i' Hl' Hi'. apply smooth_on_batch_spec; assumption.
  - intros l j Hl Hj. rewrite (H2 l j Hl Hj).
    unfold acc_gB. rewrite zero_real, of_nat_real.
    apply (derivable_pt_lim_ext
             (fun v => sum_from 0 (length XY)
                (fun k => bce (spec_yhat H actFun classification (set_B st l j v)
                                 (sample_x XY k) (sample_y XY k))
                              (sample_t yTrue k))
              / INR (length XY))).
    { intros v. symmetry. apply mean_bce_spec, set_B_shape, Hsh. }
    apply (derivable_mean (length XY)
             (fun k v => bce (spec_yhat H actFun classification (set_B st l j v)
                                (sample_x XY k) (sample_y XY k))
                             (sample_t yTrue k))).
    intros k Hk. apply bias_rate; try assumption.
    intros l' i' Hl' Hi'. apply smooth_on_batch_spec; assumption.
  - rewrite H2 by (try rewrite Nat.sub_add by lia; try rewrite size_depth; lia).
    unfold acc_gB. rewrite zero_real, of_nat_real. f_equal.
    apply sum_from_ext. intros k _.
    rewrite spec_delta_last, predicted_spec by exact Hsh. reflexivity.
  - rewrite Hloss. unfold acc_loss. rewrite zero_real, of_nat_real. f_equal.
    apply sum_from_ext. intros k _. cbv zeta.
    rewrite predicted_spec by exact Hsh.
    unfold sample_loss. rewrite one_real. reflexivity.
  - intros yh t Hy Ht.
    pose proof (sample_loss_below_bce yh t Hy Ht) as Hlt.
    unfold sample_loss in Hlt. rewrite one_real in Hlt. exact Hlt.
Qed.
End GradientClaim.

(* ------------------------------------------------------------------ *)
(** ** Where the hypothesis on the activation holds, and where not *)

Section SmoothActivations.
#[local] Existing Instance real_number.
Local Open Scope R_scope.

Lemma smooth_on_batch_tanh (H : list nat) (st : state R) (XY : list (R * R)) :
  smooth_on_batch H act.tanh st XY.
Proof. intros k tr l zl i z _ _ _ _ _. apply derivable_tanh. Qed.

Lemma smooth_on_batch_relu (H : list nat) (st : state R) (XY : list (R * R)) :
  (forall k tr l zl i z,
     (k < length XY)%nat ->
     forward H act.relu classification st (sample_x XY k) (sample_y XY k) = Some tr ->
     (l + 1 < depth H)%nat -> tr_z tr !! l = Some zl -> zl !! i = Some z -> z <> 0) ->
  smooth_on_batch H act.relu st XY.
Proof.
  intros Hnz k tr l zl i z Hk Etr Hl Ezl Ez. apply derivable_relu.
  exact (Hnz k tr l zl i z Hk Etr Hl Ezl Ez).
Qed.

Lemma gradients_are_derivatives_witness :
  exists g,
    computeBatchGrads example_layers act.tanh classification example_state
      [(1, 0)] [1] = Some g /\
    derivable_pt_lim
      (fun v => mean_bce example_layers act.tanh [(1, 0)] [1]
                  (set_W example_state 0 0 0 v))
      (at3 (W example_state) 0 0 0) (at3 (gW g) 0 0 0).
Proof.
  destruct (gradients_are_derivatives example_layers act.tanh example_state
              [(1, 0)] [1] example_shape (Nat.lt_0_succ 0) (Nat.le_refl 1)
              (smooth_on_batch_tanh _ _ _))
    as (g & E & HW & _).
  exists g. split; [exact E|].
  apply (HW 0%nat 0%nat 0%nat); [change (depth example_layers) with 2%nat; lia | |];
    [change (size example_layers 0) with 2%nat; lia
    |change (size example_layers (0 + 1)) with 2%nat; lia].
Defined.

Lemma kink_shape (v : R) : shape_ok kink_layers (set_B kink_state 0 0 v).
Proof.
  split; [reflexivity|]. split; [reflexivity|].
  intros l Hl. change (depth kink_layers) with 2%nat in Hl.
  destruct l as [|[|l]]; [| |lia].
  - split; [reflexivity|]. split; [|reflexivity].
    intros i Hi. change (size kink_layers 0) with 2%nat in Hi.
    destruct i as [|[|i]]; [reflexivity | reflexivity | lia].
  - split; [reflexivity|]. split; [|reflexivity].
    intros i Hi. change (size kink_layers 1) with 1%nat in Hi.
    destruct i as [|i]; [reflexivity | lia].
Qed.

(** The hidden pre-activation of the network [kink_state] with its hidden
    bias set to [v] is [v], whatever the input. *)
Lemma kink_hidden (v x y : R) :
  at1 (spec_z kink_layers act.relu classification (set_B kink_state 0 0 v) x y 0) 0 = v.
Proof.
  rewrite at1_spec_z by (change (size kink_layers (0 + 1)) with 1%nat; lia).
  change (size kink_layers 0) with 2%nat.
  unfold sum_from, at1, at2, at3. cbn. ring.
Qed.

Lemma kink_prediction (v x y : R) :
  spec_yhat kink_layers act.relu classification (set_B kink_state 0 0 v) x y
  = output_activation classification (if Rlt_dec 0 v then v else 0).
Proof.
  rewrite spec_yhat_sigmoid. f_equal.
  change (depth kink_layers - 1)%nat with 1%nat.
  rewrite at1_spec_z by (change (size kink_layers (1 + 1)) with 1%nat; lia).
  change (size kink_layers 1) with 1%nat.
  unfold sum_from. cbn [seq fold_left].
  rewrite (at1_spec_a_succ kink_layers act.relu classification _ x y 0 0)
    by (change (size kink_layers (0 + 1)) with 1%nat; lia).
  rewrite kink_hidden.
  change (layer_activation kink_layers act.relu classification 0) with (f act.relu).
  rewrite relu_real. unfold at2, at3. cbn. ring.
Qed.

Lemma kink_loss (v : R) :
  mean_bce kink_layers act.relu [(0, 0)] [0] (set_B kink_state 0 0 v)
  = - ln (1 - output_activation classification (if Rlt_dec 0 v then v else 0)).
Proof.
  rewrite mean_bce_spec by apply kink_shape.
  cbn [length]. rewrite sum_from_real_S. change (sum_from 0 0 ?g) with 0.
  rewrite kink_prediction. unfold bce, sample_t. cbn [nth INR]. field.
Qed.

(** Half of [1 + exp h] is at least [exp (h / 2)]. *)
Lemma softplus_slope (h : R) : h / 2 <= ln ((exp h + 1) / 2).
Proof.
  pose proof (exp_pos (h / 2)) as Hu.
  assert (Eh : exp h = exp (h / 2) * exp (h / 2)).
  { rewrite <- exp_plus. f_equal. field. }
  rewrite <- (ln_exp (h / 2)) at 1.
  destruct (Req_dec (exp (h / 2)) ((exp h + 1) / 2)) as [E|Ne].
  - rewrite <- E. lra.
  - left. apply ln_increasing; [exact Hu|]. rewrite Eh in *.
    assert (0 <= (exp (h / 2) - 1) * (exp (h / 2) - 1)) by apply Rle_0_sqr.
    nra.
Qed.

(** C10 as stated fails for [ReLU] at its kink: on [kink_state], whose
    hidden pre-activation is exactly 0, [computeBatchGrads] returns 0 for the
    hidden bias, and the mean cross-entropy is not differentiable in that
    bias (its slope to the right is at least 1/2). *)
Lemma relu_kink_gradient_is_no_derivative :
  exists g,
    computeBatchGrads kink_layers act.relu classification kink_state
      [(0, 0)] [0] = Some g /\
    at2 (gB g) 0 0 = 0 /\
    ~ derivable_pt_lim
        (fun v => mean_bce kink_layers act.relu [(0, 0)] [0] (set_B kink_state 0 0 v))
        (at2 (B kink_state) 0 0) (at2 (gB g) 0 0).
Proof.
  assert (Hsh : shape_ok kink_layers kink_state) by apply (kink_shape 0).
  destruct (computeBatchGrads_spec kink_layers act.relu classification kink_state
              [(0, 0)] [0] Hsh (Nat.le_refl 1)) as (g & Eg & _ & _ & H2 & _).
  assert (Eb : at2 (gB g) 0 0 = 0).
  { rewrite H2 by (try change (depth kink_layers) with 2%nat;
                   try change (size kink_layers (0 + 1)) with 1%nat; lia).
    unfold acc_gB. cbn [length]. rewrite sum_from_real_S. change (sum_from zero 0 ?g) with zero.
    rewrite zero_real, of_nat_real.
    rewrite (spec_delta_step kink_layers act.relu classification)
      by (change (depth kink_layers) with 2%nat; lia).
    change (size kink_layers (0 + 1)) with 1%nat. cbn [seq map].
    change (at1 [?v] 0) with v.
    change kink_state with (set_B kink_state 0 0 0) at 3.
    unfold sample_x, sample_y. cbn [nth fst snd].
    rewrite kink_hidden, relu_df_real.
    destruct (Rlt_dec 0 0) as [Hlt|_]; [lra|].
    change (@mul R real_number) with Rmult. change (@add R real_number) with Rplus.
    change (@div R real_number) with Rdiv. cbn [INR]. unfold Rdiv. ring. }
  exists g. split; [exact Eg|]. split; [exact Eb|].
  rewrite Eb. change (at2 (B kink_state) 0 0) with 0.
  intros Hder. destruct (Hder (/ 4) ltac:(lra)) as [[delta Hdelta] Hh].
  cbn [pos] in Hh.
  pose proof (Hh (delta / 2) ltac:(lra)) as Hq.
  rewrite Rabs_right in Hq by lra. specialize (Hq ltac:(lra)).
  rewrite !kink_loss, Rplus_0_l in Hq.
  destruct (Rlt_dec 0 (delta / 2)) as [_|Hn]; [|lra].
  destruct (Rlt_dec 0 0) as [Hlt|_]; [lra|].
  set (h := delta / 2) in *.
  assert (Hh0 : 0 < h) by (unfold h; lra).
  rewrite !sigmoid_real in Hq.
  rewrite Ropp_0, exp_0 in Hq.
  pose proof (exp_pos h) as He.
  assert (E1 : - ln (1 - / (1 + exp (- h))) - - ln (1 - / (1 + 1))
               = ln ((exp h + 1) / 2)).
  { rewrite exp_Ropp.
    replace (1 - / (1 + / exp h)) with (/ (exp h + 1)) by (field; lra).
    replace (1 - / (1 + 1)) with (/ 2) by field.
    rewrite !ln_Rinv by lra. unfold Rdiv. rewrite ln_mult by lra.
    rewrite ln_Rinv by lra. ring. }
  rewrite E1 in Hq.
  pose proof (softplus_slope h) as Hs.
  assert (Hge : / 2 <= ln ((exp h + 1) / 2) / h).
  { apply Rmult_le_reg_r with h; [exact Hh0|].
    replace (ln ((exp h + 1) / 2) / h * h) with (ln ((exp h + 1) / 2))
      by (field; lra).
    lra. }
  rewrite Rminus_0_r, Rabs_right in Hq by lra. lra.
Qed.
End SmoothActivations.

(* ================================================================== *)
(** * Further properties of the engine and of the app *)

(* ------------------------------------------------------------------ *)
(** ** More on the seeded generator *)

(** The recurrence is one-to-one on the states [[0, modulus)]: the
    multiplier has the inverse 1407677000 modulo the modulus. *)
Lemma rng_state_inj (s1 s2 : Z) :
  (0 <= s1 < 2147483647)%Z -> (0 <= s2 < 2147483647)%Z ->
  rng_state s1 = rng_state s2 -> s1 = s2.
Proof.
  intros H1 H2. unfold rng_state.
  rewrite !Z.rem_mod_nonneg by lia. intros E.
  assert (Hd : ((s1 * 16807 - s2 * 16807) mod 2147483647 = 0)%Z).
  { rewrite Zminus_mod, E, Z.sub_diag. reflexivity. }
  apply Z.mod_divide in Hd; [|lia]. destruct Hd as [q Hq].
  assert (Es : (s1 - s2 = 2147483647 * (q * 1407677000 - (s1 - s2) * 11017))%Z) by lia.
  assert (Hq0 : (q * 1407677000 - (s1 - s2) * 11017 = 0)%Z) by nia.
  lia.
Qed.

Lemma rng_state_bounds (s : Z) :
  (0 <= s < 2147483647)%Z -> (0 <= rng_state s < 2147483647)%Z.
Proof.
  intros Hs. unfold rng_state. rewrite Z.rem_mod_nonneg by lia.
  apply Z.mod_pos_bound. lia.
Qed.

Lemma rng_iter_bounds (k : nat) :
  forall s, (0 <= s < 2147483647)%Z -> (0 <= rng_iter k s < 2147483647)%Z.
Proof.
  induction k as [|k IH]; intros s Hs; simpl; [exact Hs|].
  apply IH, rng_state_bounds, Hs.
Qed.

Lemma rng_iter_inj (k : nat) :
  forall s1 s2, (0 <= s1 < 2147483647)%Z -> (0 <= s2 < 2147483647)%Z ->
    rng_iter k s1 = rng_iter k s2 -> s1 = s2.
Proof.
  induction k as [|k IH]; intros s1 s2 H1 H2 E; simpl in E; [exact E|].
  apply rng_state_inj; [assumption | assumption |].
  apply IH; [apply rng_state_bounds, H1 | apply rng_state_bounds, H2 | exact E].
Qed.

(** For a seed that is not negative, the state the generator starts from
    depends on the seed modulo the modulus only. *)
Lemma seededRandom_nonneg (seed : Z) :
  (0 <= seed)%Z ->
  seededRandom seed =
  if (seed mod 2147483647 =? 0)%Z then 2147483646%Z else (seed mod 2147483647)%Z.
Proof.
  intros Hs. unfold seededRandom. cbv zeta.
  rewrite Z.rem_mod_nonneg by lia.
  pose proof (Z.mod_pos_bound seed 2147483647 ltac:(lia)) as Hb.
  destruct (Z.leb_spec (seed mod 2147483647) 0);
    destruct (Z.eqb_spec (seed mod 2147483647) 0); lia.
Qed.

(** X2. Whatever the integer seed, the state stays in [[0, modulus)] and
    the product [s * 16807] that a call computes stays below [2^53]: the
    arithmetic of the generator is exact on JavaScript numbers. *)
Theorem rng_products_exact (seed : Z) (k : nat) :
  (0 <= rng_iter k (seededRandom seed) < 2147483647)%Z /\
  (0 <= rng_iter k (seededRandom seed) * 16807 < 2 ^ 53)%Z.
Proof.
  pose proof (rng_iter_bounds k _ (seededRandom_bounds seed)) as Hb.
  split; [exact Hb|]. change (2 ^ 53)%Z with 9007199254740992%Z. lia.
Qed.

Section RealRngMore.
#[local] Existing Instance real_number.
Local Open Scope R_scope.

Lemma rng_output_unit_interval_witness :
  Z.rem 7 2147483647 <> (-2147483646)%Z /\
  (0 < seededRandom 7 < 2147483647)%Z /\
  rng_output 7 0 = IZR (rng_state (rng_iter 0 (seededRandom 7))) / 2147483647 /\
  0 < rng_output 7 0 < 1.
Proof.
  assert (Hs : Z.rem 7 2147483647 <> (-2147483646)%Z) by (vm_compute; discriminate).
  split; [exact Hs|]. exact (rng_output_unit_interval 7 0 Hs).
Defined.

Lemma rng_output_inj (seed1 seed2 : Z) (k : nat) :
  rng_output seed1 k = rng_output seed2 k ->
  seededRandom seed1 = seededRandom seed2.
Proof.
  pose proof (seededRandom_bounds seed1) as B1.
  pose proof (seededRandom_bounds seed2) as B2.
  unfold rng_output. rewrite !rng_real. intros E.
  assert (Ez : IZR (rng_state (rng_iter k (seededRandom seed1)))
               = IZR (rng_state (rng_iter k (seededRandom seed2)))).
  { unfold Rdiv in E. apply Rmult_eq_reg_r in E; [exact E|].
    apply Rinv_neq_0_compat. lra. }
  apply eq_IZR in Ez.
  apply rng_state_inj in Ez; [|apply rng_iter_bounds; assumption..].
  apply rng_iter_inj in Ez; assumption.
Qed.

(** X3. Two seeds give the same number at the [k]-th call, whichever [k],
    exactly when they are normalised to the same state: one equal number
    anywhere means equal sequences. *)
Theorem seeds_agree_iff_same_state (seed1 seed2 : Z) (k : nat) :
  rng_output seed1 k = rng_output seed2 k <->
  seededRandom seed1 = seededRandom seed2.
Proof.
  split; [apply rng_output_inj|].
  intros E. unfold rng_output. rewrite E. reflexivity.
Qed.

(** X4. Two different seeds in [[0, 2147483646)] give different numbers at
    every call; the seeds 0 and 2147483646 give the same sequence. *)
Theorem distinct_seeds_distinct_outputs (seed1 seed2 : Z) (k : nat) :
  (0 <= seed1 < seed2)%Z -> (seed2 < 2147483646)%Z ->
  rng_output seed1 k <> rng_output seed2 k /\
  rng_output 0 k = rng_output 2147483646 k.
Proof.
  intros H1 H2. split.
  - intros E. apply rng_output_inj in E.
    rewrite !seededRandom_nonneg in E by lia.
    rewrite !Z.mod_small in E by lia.
    destruct (Z.eqb_spec seed1 0); destruct (Z.eqb_spec seed2 0); lia.
  - reflexivity.
Qed.

Lemma distinct_seeds_distinct_outputs_witness :
  rng_output 7 0 <> rng_output 8 0 /\
  rng_output 0 0 = rng_output 2147483646 0.
Proof. apply (distinct_seeds_distinct_outputs 7 8 0); lia. Defined.
End RealRngMore.

(* ------------------------------------------------------------------ *)
(** ** More on [randn] *)

Section RandnZeros.
Context {num : Type} `{!Number num}.

Lemma Math_random_nonzero_skips (zs : list num) (u : num) (rest : list num) :
  Forall (fun z => strict_eq z zero = true) zs ->
  strict_eq u zero = false ->
  Math_random_nonzero (zs ++ u :: rest) = Some (u, rest).
Proof.
  intros Hz Hu. induction Hz as [|z zs Ez _ IH]; simpl.
  - rewrite Hu. reflexivity.
  - rewrite Ez. exact IH.
Qed.

(** X5. [randn] throws away every value of [Math.random()] that is 0: it
    takes the first value that is not 0 as [u] and the next value that is
    not 0 as [v], returns their Box-Muller number, and leaves the values
    after [v] unread. *)
Theorem randn_skips_zeros (zs1 zs2 : list num) (u v : num) (rest : list num) :
  Forall (fun z => strict_eq z zero = true) zs1 ->
  Forall (fun z => strict_eq z zero = true) zs2 ->
  strict_eq u zero = false -> strict_eq v zero = false ->
  randn (zs1 ++ u :: zs2 ++ v :: rest) = Some (box_muller u v, rest).
Proof.
  intros H1 H2 Hu Hv. unfold randn, rbind, rret.
  rewrite (Math_random_nonzero_skips zs1 u _ H1 Hu).
  rewrite (Math_random_nonzero_skips zs2 v _ H2 Hv).
  reflexivity.
Qed.


End RandnZeros.

Section RealRandn.
#[local] Existing Instance real_number.
Local Open Scope R_scope.

Lemma strict_eq_real_true : strict_eq 0 zero = true.
Proof.
  rewrite zero_real. simpl. destruct (Req_dec_T 0 0) as [E|E]; [reflexivity | lra].
Qed.

Lemma randn_skips_zeros_witness :
  randn ([0; 0] ++ / 2 :: [0] ++ / 4 :: [/ 3]) = Some (box_muller (/ 2) (/ 4), [/ 3]).
Proof.
  apply (randn_skips_zeros [0; 0] [0] (/ 2) (/ 4) [/ 3]).
  - repeat constructor; apply strict_eq_real_true.
  - repeat constructor; apply strict_eq_real_true.
  - apply strict_eq_real_false. lra.
  - apply strict_eq_real_false. lra.
Defined.

End RealRandn.

(* ------------------------------------------------------------------ *)
(** ** More on the two activations *)

Section ActivationFacts.
#[local] Existing Instance real_number.
Local Open Scope R_scope.

Lemma tanh_real (z : R) : f act.tanh z = sinh z / cosh z.
Proof. reflexivity. Qed.

Lemma sinh_lt_cosh (z : R) : - cosh z < sinh z < cosh z.
Proof.
  unfold cosh, sinh. pose proof (exp_pos z). pose proof (exp_pos (- z)). lra.
Qed.

Lemma tanh_range (z : R) : -1 < f act.tanh z < 1.
Proof.
  pose proof (cosh_pos z) as Hc. pose proof (sinh_lt_cosh z) as [Hlo Hhi].
  rewrite tanh_real. split.
  - apply Rmult_lt_reg_r with (cosh z); [exact Hc|].
    unfold Rdiv. rewrite Rmult_assoc, Rinv_l by lra. lra.
  - apply Rmult_lt_reg_r with (cosh z); [exact Hc|].
    unfold Rdiv. rewrite Rmult_assoc, Rinv_l by lra. lra.
Qed.

(** X6. The [tanh] entry of the registry: [f] takes its values between
    -1 and 1, [df] is the derivative of [f] at every point, and it lies
    between 0 and 1. The bounds are not strict: they are the ones that the
    rounded [Math.tanh], which reaches 1 and -1, keeps as well. *)
Theorem tanh_entry (z : R) :
  -1 <= f act.tanh z <= 1 /\
  derivable_pt_lim (f act.tanh) z (df act.tanh z) /\
  0 <= df act.tanh z <= 1.
Proof.
  assert (Hb : -1 <= f act.tanh z <= 1).
  { pose proof (tanh_range z). lra. }
  split; [exact Hb|]. split; [apply derivable_tanh|].
  cbn [df act.tanh]. rewrite one_real.
  change (Math_tanh z) with (f act.tanh z).
  change (@sub R real_number) with Rminus. change (@mul R real_number) with Rmult.
  destruct Hb as [Hb1 Hb2]. split; nra.
Qed.

(** X7. Away from 0, [ReLU.df] is the derivative of [ReLU.f]. *)
Theorem relu_df_is_derivative (z : R) :
  z <> 0 ->
  derivable_pt_lim (f act.relu) z (df act.relu z) /\
  (z < 0 -> df act.relu z = 0) /\ (0 < z -> df act.relu z = 1).
Proof.
  intros Hz. split; [apply derivable_relu, Hz|].
  rewrite relu_df_real. destruct (Rlt_dec 0 z); split; intros; lra.
Qed.

Lemma relu_df_is_derivative_witness :
  derivable_pt_lim (f act.relu) (-1) (df act.relu (-1)) /\
  (-1 < 0 -> df act.relu (-1) = 0) /\ (0 < -1 -> df act.relu (-1) = 1).
Proof. apply (relu_df_is_derivative (-1)). lra. Defined.

(** X8. At 0, where the registry gives [ReLU.df] the value 0, [ReLU.f]
    has no derivative at all: its slope is 1 to the right and 0 to the
    left. *)
Theorem relu_has_no_derivative_at_zero :
  df act.relu 0 = 0 /\ forall d : R, ~ derivable_pt_lim (f act.relu) 0 d.
Proof.
  split.
  { rewrite relu_df_real. destruct (Rlt_dec 0 0); [lra | reflexivity]. }
  intros d Hd. destruct (Hd (/ 2) ltac:(lra)) as [delta Hdelta].
  pose proof (cond_pos delta) as Hpos.
  assert (Hr : Rabs ((f act.relu (0 + delta / 2) - f act.relu 0) / (delta / 2) - d) < / 2).
  { apply Hdelta; [lra|]. rewrite Rabs_pos_eq by lra. lra. }
  assert (Hl : Rabs ((f act.relu (0 + - (delta / 2)) - f act.relu 0) / (- (delta / 2)) - d) < / 2).
  { apply Hdelta; [lra|]. rewrite Rabs_Ropp, Rabs_pos_eq by lra. lra. }
  rewrite !relu_real in Hr, Hl.
  destruct (Rlt_dec 0 (0 + delta / 2)); [|lra].
  destruct (Rlt_dec 0 0); [lra|].
  destruct (Rlt_dec 0 (0 + - (delta / 2))); [lra|].
  replace ((0 + delta / 2 - 0) / (delta / 2)) with 1 in Hr by (field; lra).
  replace ((0 - 0) / - (delta / 2)) with 0 in Hl by (field; lra).
  apply Rabs_def2 in Hr. apply Rabs_def2 in Hl. lra.
Qed.
End ActivationFacts.

(* ------------------------------------------------------------------ *)
(** ** Predictions *)

Section PredictFacts.
Context {num : Type} `{!Number num}.
Variable H : list nat.
Variable actFun : activation num.
Variable task : Task.

(** On parameters of the right shape [predictBatch] returns the list of
    the predictions of the points. *)
Lemma predictBatch_spec (st : state num) (XY : list (num * num)) :
  shape_ok H st ->
  exists preds,
    predictBatch H actFun task st XY = Some preds /\
    length preds = length XY /\
    forall k p, XY !! k = Some p ->
      preds !! k = Some (spec_yhat H actFun task st (fst p) (snd p)) /\
      forward H actFun task st (fst p) (snd p) =
        Some {| tr_a := map (spec_a H actFun task st (fst p) (snd p)) (seq 0 (depth H + 1));
                tr_z := map (spec_z H actFun task st (fst p) (snd p)) (seq 0 (depth H));
                yhat := spec_yhat H actFun task st (fst p) (snd p) |}.
Proof.
  intros Hsh.
  exists (map (fun p => spec_yhat H actFun task st (fst p) (snd p)) XY).
  split; [|split].
  - unfold predictBatch. apply mapM_Some.
    apply Forall2_fmap_r, Forall_Forall2_diag, Forall_forall.
    intros p _. rewrite (forward_spec H actFun task st _ _ Hsh). reflexivity.
  - apply length_map.
  - intros k p Ek. split; [|apply forward_spec, Hsh].
    rewrite list_lookup_fmap, Ek. reflexivity.
Qed.

(** X9. On parameters of the right shape [predictBatch] returns one
    prediction for every point, in the order of the points: the [k]-th one
    is the [yhat] that [forward] returns on the [k]-th point. *)
Theorem predictBatch_forward (st : state num) (XY : list (num * num)) :
  shape_ok H st ->
  exists preds,
    predictBatch H actFun task st XY = Some preds /\
    length preds = length XY /\
    forall k p, XY !! k = Some p ->
      exists tr, forward H actFun task st (fst p) (snd p) = Some tr /\
                 preds !! k = Some (yhat tr).
Proof.
  intros Hsh. destruct (predictBatch_spec st XY Hsh) as (preds & Ep & Lp & Hp).
  exists preds. split; [exact Ep|]. split; [exact Lp|].
  intros k p Ek. destruct (Hp k p Ek) as (Ek' & Ef).
  eexists. split; [exact Ef|]. exact Ek'.
Qed.
End PredictFacts.

Section RealPredictions.
#[local] Existing Instance real_number.
Local Open Scope R_scope.
Variable H : list nat.

Lemma predictBatch_forward_witness :
  exists preds,
    predictBatch example_layers act.tanh regression example_state [(1, 0)] = Some preds /\
    length preds = length [(1, 0)] /\
    forall k p, [(1, 0)] !! k = Some p ->
      exists tr, forward example_layers act.tanh regression example_state (fst p) (snd p)
                 = Some tr /\
                 preds !! k = Some (yhat tr).
Proof.
  exact (predictBatch_forward example_layers act.tanh regression example_state
           [(1, 0)] example_shape).
Defined.



End RealPredictions.

Section RealPredictionWitnesses.
#[local] Existing Instance real_number.
Local Open Scope R_scope.


End RealPredictionWitnesses.

(* ------------------------------------------------------------------ *)
(** ** Targets that no point uses *)

Section TargetsFacts.
Context {num : Type} `{!Number num}.
Variable H : list nat.
Variable actFun : activation num.
Variable task : Task.

Lemma computeBatchGrads_take (st : state num) (XY : list (num * num))
    (yTrue : list num) :
  computeBatchGrads H actFun task st XY yTrue =
  computeBatchGrads H actFun task st XY (take (length XY) yTrue).
Proof.
  unfold computeBatchGrads. cbv zeta. f_equal.
  apply for_up_ext. intros n [[gW gB] loss] Hn.
  rewrite lookup_take_lt by lia. reflexivity.
Qed.

(** X12. [computeBatchGrads] and [step] read the targets of the points
    only: the entries of [yTrue] from the index [XY.length] on change
    neither the gradients, nor the loss, nor the update. *)
Theorem targets_beyond_the_points_are_ignored (st : state num)
    (XY : list (num * num)) (yTrue : list num) (lr : num) :
  computeBatchGrads H actFun task st XY yTrue =
    computeBatchGrads H actFun task st XY (take (length XY) yTrue) /\
  step H actFun task st XY yTrue lr =
    step H actFun task st XY (take (length XY) yTrue) lr.
Proof.
  split; [apply computeBatchGrads_take|].
  unfold step. rewrite <- computeBatchGrads_take. reflexivity.
Qed.
End TargetsFacts.

(* ------------------------------------------------------------------ *)
(** ** Parameters that a step leaves as they are *)

Section ParamsEq.
Context {num : Type} `{!Number num}.
Variable H : list nat.

End ParamsEq.

Section RealStep.
#[local] Existing Instance real_number.
Local Open Scope R_scope.
Variable H : list nat.
Variable actFun : activation R.
Variable task : Task.




End RealStep.

Section RealStepWitnesses.
#[local] Existing Instance real_number.
Local Open Scope R_scope.



End RealStepWitnesses.

Section OutputLayerTask.
#[local] Existing Instance real_number.
Variable H : list nat.
Variable actFun : activation R.
Variable task : Task.

(** The prediction is the output activation of the last pre-activation. *)
Lemma spec_yhat_output (s : state R) (x y : R) :
  spec_yhat H actFun task s x y =
  output_activation task
    (at1 (spec_z H actFun task s x y (depth H - 1)) 0).
Proof.
  pose proof (depth_pos H) as Hd. unfold spec_yhat.
  replace (depth H) with (Datatypes.S (depth H - 1)) at 1 by lia.
  rewrite at1_spec_a_succ.
  - unfold layer_activation. rewrite Nat.eqb_refl. reflexivity.
  - replace (depth H - 1 + 1)%nat with (depth H) by lia. rewrite size_depth. lia.
Qed.
End OutputLayerTask.

(* ------------------------------------------------------------------ *)
(** ** The chain rule through the layers, for either task *)

(** The same argument as for the cross-entropy, for any loss [out_loss] of
    the prediction whose derivative in the output pre-activation is the
    output delta [yhat - t]. *)
Section ChainRuleTask.
#[local] Existing Instance real_number.
Variable H : list nat.
Variable actFun : activation R.
Variable task : Task.
Variable out_loss : R -> R.
Local Open Scope R_scope.

(** The parameters [stv v] depend on a real variable [v]; they differ from
    [st] in layer [l0] only, agree with [st] at [v0], and the entries of
    layer [l0] are differentiable at [v0] with the rates [dW] and [dB]. *)
Variable st : state R.
Variable stv : R -> state R.
Variables (v0 : R) (l0 : nat).
Variables (dW : nat -> nat -> R) (dB : nat -> R).
Variables x y t : R.

Hypothesis out_rate : forall z,
  derivable_pt_lim (fun v => out_loss (output_activation task v)) z
    (output_activation task z - t).
Hypothesis l0_in : (l0 < depth H)%nat.
Hypothesis other_W : forall v l i j,
  l <> l0 -> at3 (W (stv v)) l i j = at3 (W st) l i j.
Hypothesis other_B : forall v l j,
  l <> l0 -> at2 (B (stv v)) l j = at2 (B st) l j.
Hypothesis at_v0_W : forall i j, at3 (W (stv v0)) l0 i j = at3 (W st) l0 i j.
Hypothesis at_v0_B : forall j, at2 (B (stv v0)) l0 j = at2 (B st) l0 j.
Hypothesis deriv_W : forall i j,
  (i < size H l0)%nat -> (j < size H (l0 + 1))%nat ->
  derivable_pt_lim (fun v => at3 (W (stv v)) l0 i j) v0 (dW i j).
Hypothesis deriv_B : forall j,
  (j < size H (l0 + 1))%nat ->
  derivable_pt_lim (fun v => at2 (B (stv v)) l0 j) v0 (dB j).
Hypothesis smooth : forall l i,
  (l + 1 < depth H)%nat -> (i < size H (l + 1))%nat ->
  derivable_pt_lim (f actFun)
    (at1 (spec_z H actFun task st x y l) i)
    (df actFun (at1 (spec_z H actFun task st x y l) i)).

Lemma spec_a_below_task (v : R) (l : nat) :
  (l <= l0)%nat ->
  spec_a H actFun task (stv v) x y l
  = spec_a H actFun task st x y l.
Proof.
  apply (spec_a_ext H actFun task (stv v) st x y l0).
  - intros l' i j Hl'. apply other_W. lia.
  - intros l' j Hl'. apply other_B. lia.
Qed.

Lemma spec_z_at_v0_task (l : nat) :
  spec_z H actFun task (stv v0) x y l
  = spec_z H actFun task st x y l.
Proof.
  apply (spec_z_ext H actFun task (stv v0) st x y (Datatypes.S l)); [| |lia].
  - intros l' i j _. destruct (decide (l' = l0)) as [->|Hne];
      [apply at_v0_W | apply other_W, Hne].
  - intros l' j _. destruct (decide (l' = l0)) as [->|Hne];
      [apply at_v0_B | apply other_B, Hne].
Qed.

(** From layer [l0] up, every [z[l][j]] is differentiable in [v], and the
    deltas of layer [l] weigh the rates of [z[l]] to the same total. *)
Lemma rates_through_layers_task (d : nat) :
  (l0 + d < depth H)%nat ->
  exists dz : nat -> R,
    (forall j, (j < size H (l0 + d + 1))%nat ->
       derivable_pt_lim
         (fun v => at1 (spec_z H actFun task (stv v) x y (l0 + d)) j)
         v0 (dz j)) /\
    sum_from 0 (size H (l0 + d + 1))
      (fun j => at1 (spec_delta H actFun task st x y t (l0 + d)) j * dz j)
    = delta_rate H l0 (spec_delta H actFun task st x y t l0)
        (spec_a H actFun task st x y l0) dW dB.
Proof.
  induction d as [|d IH]; intros Hd.
  - rewrite Nat.add_0_r.
    exists (fun j => sum_from (dB j) (size H l0)
                       (fun i => at1 (spec_a H actFun task st x y l0) i * dW i j)).
    split; [|reflexivity].
    intros j Hj.
    apply (derivable_pt_lim_ext
             (fun v => sum_from (at2 (B (stv v)) l0 j) (size H l0)
                (fun i => at1 (spec_a H actFun task st x y l0) i
                          * at3 (W (stv v)) l0 i j))).
    { intros v. rewrite at1_spec_z by exact Hj.
      rewrite spec_a_below_task by lia. reflexivity. }
    apply (derivable_sum_from (size H l0) (fun v => at2 (B (stv v)) l0 j)
             (fun i v => at1 (spec_a H actFun task st x y l0) i
                         * at3 (W (stv v)) l0 i j)).
    + apply deriv_B, Hj.
    + intros i Hi. apply derivable_const_times. apply deriv_W; assumption.
  - destruct IH as (dz & Hdz & Hsum); [lia|].
    replace (l0 + Datatypes.S d)%nat with (Datatypes.S (l0 + d)) in * by lia.
    set (l := (l0 + d)%nat) in *.
    set (zl := spec_z H actFun task st x y l) in *.
    exists (fun j => sum_from 0 (size H (Datatypes.S l))
                       (fun i => df actFun (at1 zl i) * dz i
                                 * at3 (W st) (Datatypes.S l) i j)).
    split.
    + intros j Hj.
      apply (derivable_pt_lim_ext
               (fun v => sum_from (at2 (B st) (Datatypes.S l) j) (size H (Datatypes.S l))
                  (fun i => f actFun (at1 (spec_z H actFun task (stv v) x y l) i)
                            * at3 (W st) (Datatypes.S l) i j))).
      { intros v. rewrite at1_spec_z by exact Hj. rewrite other_B by lia.
        apply sum_from_ext. intros i Hi. rewrite other_W by lia.
        rewrite at1_spec_a_succ by (replace (l + 1)%nat with (Datatypes.S l) by lia; exact Hi).
        unfold layer_activation.
        destruct (Nat.eqb_spec l (depth H - 1)) as [E|_]; [lia | reflexivity]. }
      apply (derivable_sum_from (size H (Datatypes.S l)) (fun _ => at2 (B st) (Datatypes.S l) j)
               (fun i v => f actFun (at1 (spec_z H actFun task (stv v) x y l) i)
                           * at3 (W st) (Datatypes.S l) i j)).
      * apply derivable_const.
      * intros i Hi. apply derivable_times_const.
        assert (Hi' : (i < size H (l + 1))%nat)
          by (replace (l + 1)%nat with (Datatypes.S l) by lia; exact Hi).
        pose proof (Hdz i Hi') as Hz.
        pose proof (smooth l i ltac:(lia) Hi') as Hf.
        rewrite <- (spec_z_at_v0_task l) in Hf at 1. fold zl in Hf.
        pose proof (derivable_pt_lim_comp _ _ v0 (dz i) (df actFun (at1 zl i)) Hz Hf)
          as Hc.
        exact Hc.
    + rewrite <- Hsum.
      replace (l + 1)%nat with (Datatypes.S l) by lia.
      replace (Datatypes.S l + 1)%nat with (l + 2)%nat by lia.
      rewrite (sum_from_ext 0 (size H (Datatypes.S l))
                 (fun j => at1 (spec_delta H actFun task st x y t l) j * dz j)
                 (fun i => sum_from 0 (size H (l + 2))
                    (fun j => at1 (spec_delta H actFun task st x y t (Datatypes.S l)) j
                              * (df actFun (at1 zl i) * dz i
                                 * at3 (W st) (Datatypes.S l) i j)))).
      * rewrite sum_from_swap. apply sum_from_ext. intros j Hj.
        rewrite Rmult_comm, <- sum_from_scal.
        apply sum_from_ext. intros i Hi. ring.
      * intros i Hi.
        rewrite (spec_delta_step H actFun task st x y t l) by lia.
        rewrite (at1_map_seq _ (size H (l + 1)) i)
          by (replace (l + 1)%nat with (Datatypes.S l) by lia; exact Hi).
        rewrite zero_real.
        replace (l + 1)%nat with (Datatypes.S l) by lia. fold zl.
        change (@mul R real_number) with Rmult.
        rewrite Rmult_assoc, <- sum_from_scal.
        apply sum_from_ext. intros j Hj. ring.
Qed.

(** The loss of the prediction is differentiable in [v], with the
    derivative that the deltas of layer [l0] give. *)
Lemma loss_rate_task :
  derivable_pt_lim
    (fun v => out_loss (spec_yhat H actFun task (stv v) x y)) v0
    (delta_rate H l0 (spec_delta H actFun task st x y t l0)
       (spec_a H actFun task st x y l0) dW dB).
Proof.
  pose proof (depth_pos H) as Hd.
  destruct (rates_through_layers_task (depth H - 1 - l0)) as (dz & Hdz & Hsum); [lia|].
  replace (l0 + (depth H - 1 - l0))%nat with (depth H - 1)%nat in * by lia.
  replace (depth H - 1 + 1)%nat with (depth H) in * by lia.
  rewrite size_depth in *.
  rewrite <- Hsum.
  rewrite sum_from_real_S. change (sum_from 0 0 ?g) with 0.
  rewrite spec_delta_last. change (at1 [?v] 0) with v.
  change (@sub R real_number) with Rminus.
  rewrite (spec_yhat_output H actFun task st), <- (spec_z_at_v0_task (depth H - 1)).
  apply (derivable_pt_lim_ext
           (fun v => out_loss (output_activation task
                            (at1 (spec_z H actFun task (stv v) x y
                                    (depth H - 1)) 0)))).
  { intros v. rewrite spec_yhat_output. reflexivity. }
  pose proof (derivable_pt_lim_comp _ _ v0 (dz 0%nat) _ (Hdz 0%nat ltac:(lia))
                (out_rate
                   (at1 (spec_z H actFun task (stv v0) x y (depth H - 1)) 0)))
    as Hc.
  rewrite Rplus_0_l. exact Hc.
Qed.
End ChainRuleTask.

(* ------------------------------------------------------------------ *)
(** ** One weight, one bias *)

Section ParameterRatesTask.
#[local] Existing Instance real_number.
Variable H : list nat.
Variable actFun : activation R.
Variable task : Task.
Variable out_loss : R -> R.
Local Open Scope R_scope.

Variable st : state R.
Variables x y t : R.
Hypothesis st_shape : shape_ok H st.
Hypothesis out_rate : forall z,
  derivable_pt_lim (fun v => out_loss (output_activation task v)) z
    (output_activation task z - t).
Hypothesis smooth : forall l i,
  (l + 1 < depth H)%nat -> (i < size H (l + 1))%nat ->
  derivable_pt_lim (f actFun)
    (at1 (spec_z H actFun task st x y l) i)
    (df actFun (at1 (spec_z H actFun task st x y l) i)).


(** The derivative of the loss of one sample in the weight
    [W[l0][i0][j0]] is [a[l0][i0] * delta[l0][j0]]. *)
Lemma weight_rate_task (l0 i0 j0 : nat) :
  (l0 < depth H)%nat -> (i0 < size H l0)%nat -> (j0 < size H (l0 + 1))%nat ->
  derivable_pt_lim
    (fun v => out_loss (spec_yhat H actFun task (set_W st l0 i0 j0 v) x y))
    (at3 (W st) l0 i0 j0)
    (at1 (spec_a H actFun task st x y l0) i0
     * at1 (spec_delta H actFun task st x y t l0) j0).
Proof.
  intros Hl Hi Hj.
  destruct (params_shape_get3 H (W st) (B st) l0 i0 j0 st_shape Hl Hi Hj)
    as (_ & R1 & R2 & R3).
  pose proof (loss_rate_task H actFun task out_loss st (set_W st l0 i0 j0) (at3 (W st) l0 i0 j0) l0
                (fun i j => if (Nat.eqb i i0 && Nat.eqb j j0)%bool then 1 else 0)
                (fun _ => 0) x y t out_rate Hl) as Hrate.
  replace (at1 (spec_a H actFun task st x y l0) i0
           * at1 (spec_delta H actFun task st x y t l0) j0)
    with (delta_rate H l0 (spec_delta H actFun task st x y t l0)
            (spec_a H actFun task st x y l0)
            (fun i j => if (Nat.eqb i i0 && Nat.eqb j j0)%bool then 1 else 0)
            (fun _ => 0)).
  - apply Hrate; clear Hrate.
    + intros v l i j Hne. apply upd3_other. congruence.
    + intros v l j Hne. reflexivity.
    + intros i j. destruct (decide ((l0, i, j) = (l0, i0, j0))) as [E|Ne].
      * injection E as -> ->. apply upd3_same; assumption.
      * apply upd3_other, Ne.
    + intros j. reflexivity.
    + intros i j Hi' Hj'.
      destruct (Nat.eqb_spec i i0) as [->|Hni]; [destruct (Nat.eqb_spec j j0) as [->|Hnj]|];
        cbn [andb].
      * apply (derivable_pt_lim_ext (fun v => v)); [|apply derivable_pt_lim_id].
        intros v. symmetry. apply upd3_same; assumption.
      * apply (derivable_pt_lim_ext (fun _ => at3 (W st) l0 i0 j)); [|apply derivable_const].
        intros v. symmetry. apply upd3_other. congruence.
      * apply (derivable_pt_lim_ext (fun _ => at3 (W st) l0 i j)); [|apply derivable_const].
        intros v. symmetry. apply upd3_other. congruence.
    + intros j Hj'. apply (derivable_const (at2 (B st) l0 j)).
    + exact smooth.
  - unfold delta_rate.
    apply (sum_from_single _ j0); [exact Hj|]. intros j Hj'.
    destruct (Nat.eqb_spec j j0) as [->|Hnj].
    + rewrite (sum_from_single (size H l0) i0
                 (at1 (spec_a H actFun task st x y l0) i0)); [ring | exact Hi |].
      intros i Hi'. destruct (Nat.eqb_spec i i0) as [->|Hni]; cbn [andb]; ring.
    + rewrite (sum_from_ext 0 (size H l0) _ (fun _ => 0)), sum_from_zero; [ring|].
      intros i Hi'. rewrite Bool.andb_false_r. ring.
Qed.

(** The derivative of the loss of one sample in the bias
    [B[l0][j0]] is [delta[l0][j0]]. *)
Lemma bias_rate_task (l0 j0 : nat) :
  (l0 < depth H)%nat -> (j0 < size H (l0 + 1))%nat ->
  derivable_pt_lim
    (fun v => out_loss (spec_yhat H actFun task (set_B st l0 j0 v) x y))
    (at2 (B st) l0 j0)
    (at1 (spec_delta H actFun task st x y t l0) j0).
Proof.
  intros Hl Hj.
  destruct (params_shape_get2 H (W st) (B st) l0 j0 st_shape Hl Hj) as (_ & R1 & R2).
  pose proof (loss_rate_task H actFun task out_loss st (set_B st l0 j0) (at2 (B st) l0 j0) l0
                (fun _ _ => 0) (fun j => if Nat.eqb j j0 then 1 else 0)
                x y t out_rate Hl) as Hrate.
  replace (at1 (spec_delta H actFun task st x y t l0) j0)
    with (delta_rate H l0 (spec_delta H actFun task st x y t l0)
            (spec_a H actFun task st x y l0)
            (fun _ _ => 0) (fun j => if Nat.eqb j j0 then 1 else 0)).
  - apply Hrate; clear Hrate.
    + intros v l i j Hne. reflexivity.
    + intros v l j Hne. apply upd2_other. congruence.
    + intros i j. reflexivity.
    + intros j. destruct (decide ((l0, j) = (l0, j0))) as [E|Ne].
      * injection E as ->. apply upd2_same; assumption.
      * apply upd2_other, Ne.
    + intros i j Hi' Hj'. apply (derivable_const (at3 (W st) l0 i j)).
    + intros j Hj'. destruct (Nat.eqb_spec j j0) as [->|Hnj].
      * apply (derivable_pt_lim_ext (fun v => v)); [|apply derivable_pt_lim_id].
        intros v. symmetry. apply upd2_same; assumption.
      * apply (derivable_pt_lim_ext (fun _ => at2 (B st) l0 j)); [|apply derivable_const].
        intros v. symmetry. apply upd2_other. congruence.
    + exact smooth.
  - unfold delta_rate.
    apply (sum_from_single _ j0); [exact Hj|]. intros j Hj'.
    rewrite sum_from_start.
    rewrite (sum_from_ext 0 (size H l0) _ (fun _ => 0)), sum_from_zero
      by (intros; ring).
    destruct (Nat.eqb_spec j j0) as [->|Hnj]; ring.
Qed.
End ParameterRatesTask.

(* ------------------------------------------------------------------ *)
(** ** The regression loss and its gradients *)

Section RegressionGradient.
#[local] Existing Instance real_number.
Variable H : list nat.
Variable actFun : activation R.
Local Open Scope R_scope.

Lemma half_real : lit 0.5 = / 2.
Proof. cbn [lit real_number]. unfold Q2R. cbn. lra. Qed.

Lemma sample_loss_regression (yh t : R) :
  sample_loss regression yh t = / 2 * (yh - t) * (yh - t).
Proof. unfold sample_loss. cbv zeta. rewrite half_real. reflexivity. Qed.

(** Half the squared error, as a function of the output pre-activation of
    the regression task, has the derivative [yhat - t]: the output delta. *)
Lemma derivable_half_square (t z : R) :
  derivable_pt_lim (fun v => sample_loss regression (output_activation regression v) t) z
    (output_activation regression z - t).
Proof.
  cbn [output_activation].
  apply (derivable_pt_lim_ext (fun v => / 2 * ((v - t) * (v - t)))).
  { intros v. rewrite sample_loss_regression. ring. }
  replace (z - t) with (/ 2 * (1 * (z - t) + (z - t) * 1)) by field.
  apply derivable_const_times.
  assert (Hd : derivable_pt_lim (fun v => v - t) z 1).
  { replace 1 with (1 - 0) by ring.
    apply (derivable_pt_lim_minus (fun v => v) (fun _ => t));
      [apply derivable_pt_lim_id | apply derivable_const]. }
  apply (derivable_pt_lim_mult (fun v => v - t) (fun v => v - t)); exact Hd.
Qed.

Lemma smooth_on_batch_for_spec (task : Task) (st : state R) (XY : list (R * R))
    (k l i : nat) :
  shape_ok H st -> smooth_on_batch_for H actFun task st XY ->
  (k < length XY)%nat -> (l + 1 < depth H)%nat -> (i < size H (l + 1))%nat ->
  derivable_pt_lim (f actFun)
    (at1 (spec_z H actFun task st (sample_x XY k) (sample_y XY k) l) i)
    (df actFun
       (at1 (spec_z H actFun task st (sample_x XY k) (sample_y XY k) l) i)).
Proof.
  intros Hsh Hsm Hk Hl Hi.
  apply (Hsm k _ l
           (spec_z H actFun task st (sample_x XY k) (sample_y XY k) l) i
           _ Hk (forward_spec H actFun task st _ _ Hsh) Hl).
  - cbn [tr_z]. apply map_seq_lookup. lia.
  - apply lookup_nth. rewrite length_spec_z. exact Hi.
Qed.

Lemma returned_loss_spec (task : Task) (XY : list (R * R)) (yTrue : list R)
    (st : state R) :
  shape_ok H st -> (length XY <= length yTrue)%nat ->
  returned_loss H actFun task XY yTrue st =
  sum_from 0 (length XY)
    (fun k => sample_loss task (spec_yhat H actFun task st (sample_x XY k) (sample_y XY k))
                (sample_t yTrue k))
  / INR (length XY).
Proof.
  intros Hsh Hlen. unfold returned_loss.
  destruct (computeBatchGrads_spec H actFun task st XY yTrue Hsh Hlen)
    as (g & Eg & _ & _ & _ & Hloss).
  rewrite Eg, Hloss. unfold acc_loss. rewrite zero_real, of_nat_real. reflexivity.
Qed.

(** X15. For the regression task the loss and the gradients that
    [computeBatchGrads] returns agree: on a batch that is not empty, where
    the hidden activation is differentiable with derivative [df] at every
    hidden pre-activation, every returned gradient is the derivative, in
    its weight or bias, of the returned loss (the batch mean of half the
    squared error), and that loss is not negative. *)
Theorem regression_gradients_are_derivatives (st : state R) (XY : list (R * R))
    (yTrue : list R) :
  shape_ok H st -> (0 < length XY)%nat -> (length XY <= length yTrue)%nat ->
  smooth_on_batch_for H actFun regression st XY ->
  exists g,
    computeBatchGrads H actFun regression st XY yTrue = Some g /\
    loss g = returned_loss H actFun regression XY yTrue st /\
    0 <= loss g /\
    (forall l i j, (l < depth H)%nat -> (i < size H l)%nat ->
       (j < size H (l + 1))%nat ->
       derivable_pt_lim
         (fun v => returned_loss H actFun regression XY yTrue (set_W st l i j v))
         (at3 (W st) l i j) (at3 (gW g) l i j)) /\
    (forall l j, (l < depth H)%nat -> (j < size H (l + 1))%nat ->
       derivable_pt_lim
         (fun v => returned_loss H actFun regression XY yTrue (set_B st l j v))
         (at2 (B st) l j) (at2 (gB g) l j)).
Proof.
  intros Hsh Hn Hlen Hsm.
  destruct (computeBatchGrads_spec H actFun regression st XY yTrue Hsh Hlen)
    as (g & Eg & _ & H3 & H2 & Hloss).
  exists g. split; [exact Eg|]. split; [|split; [|split]].
  - unfold returned_loss. rewrite Eg. reflexivity.
  - rewrite Hloss. unfold acc_loss. rewrite zero_real, of_nat_real.
    change (@div R real_number) with Rdiv.
    apply Rmult_le_pos; [|left; apply Rinv_0_lt_compat, lt_0_INR, Hn].
    generalize (length XY). intros n. induction n as [|n IH].
    + unfold sum_from. simpl. lra.
    + rewrite sum_from_real_S, sample_loss_regression.
      set (e := spec_yhat _ _ _ _ _ _ - _). pose proof (Rle_0_sqr e) as He.
      unfold Rsqr in He. nra.
  - intros l i j Hl Hi Hj. rewrite (H3 l i j Hl Hi Hj).
    unfold acc_gW. rewrite zero_real, of_nat_real.
    apply (derivable_pt_lim_ext
             (fun v => sum_from 0 (length XY)
                (fun k => sample_loss regression
                            (spec_yhat H actFun regression (set_W st l i j v)
                               (sample_x XY k) (sample_y XY k))
                            (sample_t yTrue k))
              / INR (length XY))).
    { intros v. symmetry. apply returned_loss_spec; [|exact Hlen].
      apply set_W_shape, Hsh. }
    apply (derivable_mean (length XY)
             (fun k v => sample_loss regression
                           (spec_yhat H actFun regression (set_W st l i j v)
                              (sample_x XY k) (sample_y XY k))
                           (sample_t yTrue k))).
    intros k Hk.
    apply (weight_rate_task H actFun regression
             (fun yh => sample_loss regression yh (sample_t yTrue k))
             st (sample_x XY k) (sample_y XY k) (sample_t yTrue k) Hsh);
      try assumption.
    + intros z. apply derivable_half_square.
    + intros l' i' Hl' Hi'. apply smooth_on_batch_for_spec; assumption.
  - intros l j Hl Hj. rewrite (H2 l j Hl Hj).
    unfold acc_gB. rewrite zero_real, of_nat_real.
    apply (derivable_pt_lim_ext
             (fun v => sum_from 0 (length XY)
                (fun k => sample_loss regression
                            (spec_yhat H actFun regression (set_B st l j v)
                               (sample_x XY k) (sample_y XY k))
                            (sample_t yTrue k))
              / INR (length XY))).
    { intros v. symmetry. apply returned_loss_spec; [|exact Hlen].
      apply set_B_shape, Hsh. }
    apply (derivable_mean (length XY)
             (fun k v => sample_loss regression
                           (spec_yhat H actFun regression (set_B st l j v)
                              (sample_x XY k) (sample_y XY k))
                           (sample_t yTrue k))).
    intros k Hk.
    apply (bias_rate_task H actFun regression
             (fun yh => sample_loss regression yh (sample_t yTrue k))
             st (sample_x XY k) (sample_y XY k) (sample_t yTrue k) Hsh);
      try assumption.
    + intros z. apply derivable_half_square.
    + intros l' i' Hl' Hi'. apply smooth_on_batch_for_spec; assumption.
Qed.
End RegressionGradient.

Section RegressionGradientWitness.
#[local] Existing Instance real_number.
Local Open Scope R_scope.

Lemma regression_gradients_are_derivatives_witness :
  exists g,
    computeBatchGrads example_layers act.tanh regression example_state [(1, 0)] [1]
      = Some g /\
    loss g = returned_loss example_layers act.tanh regression [(1, 0)] [1] example_state /\
    0 <= loss g /\
    (forall l i j, (l < depth example_layers)%nat -> (i < size example_layers l)%nat ->
       (j < size example_layers (l + 1))%nat ->
       derivable_pt_lim
         (fun v => returned_loss example_layers act.tanh regression [(1, 0)] [1]
                     (set_W example_state l i j v))
         (at3 (W example_state) l i j) (at3 (gW g) l i j)) /\
    (forall l j, (l < depth example_layers)%nat -> (j < size example_layers (l + 1))%nat ->
       derivable_pt_lim
         (fun v => returned_loss example_layers act.tanh regression [(1, 0)] [1]
                     (set_B example_state l j v))
         (at2 (B example_state) l j) (at2 (gB g) l j)).
Proof.
  apply (regression_gradients_are_derivatives example_layers act.tanh example_state
           [(1, 0)] [1] example_shape).
  - simpl. lia.
  - simpl. lia.
  - intros k tr l zl i z _ _ _ _ _. apply derivable_tanh.
Defined.
End RegressionGradientWitness.

(* ------------------------------------------------------------------ *)
(** ** More on the dataset generators *)

Section GenOrderClaims.
Context {num : Type} `{!Number num}.

(** X16. [moons], [circles] and [spirals] emit the points class by class:
    the labels are [count] times 0 followed by [count] times 1. *)
Theorem two_class_generators_emit_class_by_class (n : nat) (noise : num)
    (seed : Z) (src : list num) :
  (8 * n <= nonzero_draws src)%nat ->
  (exists ds rest, gen.moons n noise seed src = Some (ds, rest) /\
     map p_t (points ds) = replicate n zero ++ replicate n one) /\
  (exists ds rest, gen.circles n noise src = Some (ds, rest) /\
     map p_t (points ds) = replicate n zero ++ replicate n one) /\
  (exists ds rest, gen.spirals n noise src = Some (ds, rest) /\
     map p_t (points ds) = replicate n zero ++ replicate n one).
Proof.
  intros Hn. split; [apply moons_classes, Hn|].
  split; [apply circles_classes; lia | apply spirals_classes, Hn].
Qed.
End GenOrderClaims.

Section SeededInputs.
Context {num : Type} `{!Number num}.
Local Open Scope js_scope.

(** A generator loop that reads the seeded generator twice and calls
    [randn] once per point: the [k]-th point satisfies [Q k]. In the
    [i]-th iteration the values of [Math.random()] that are still to come
    are those of [src] without the first [2 * i] non-zero ones. *)
Lemma seeded_loop (Q : nat -> point num -> Prop)
    (body : nat -> list (point num) * Z -> Rand num (list (point num) * Z))
    (seed : Z) (n : nat) (src : list num) :
  (forall i pts src',
     nonzero_values src' = drop (2 * i) (nonzero_values src) ->
     (2 <= nonzero_draws src')%nat ->
     exists rest p,
       body i (pts, rng_iter (2 * i) (seededRandom seed)) src'
       = Some ((pts ++ [p], rng_iter (2 * Datatypes.S i) (seededRandom seed)), rest) /\
       Q i p /\
       nonzero_values rest = drop (2 * (i + 1)) (nonzero_values src) /\
       nonzero_draws rest = (nonzero_draws src' - 2)%nat) ->
  (2 * n <= nonzero_draws src)%nat ->
    exists pts s rest,
      for_rand 0 n body ([], seededRandom seed) src = Some ((pts, s), rest) /\
      length pts = n /\
      forall k, (k < n)%nat -> exists p, pts !! k = Some p /\ Q k p.
Proof.
  intros Hbody Hn. unfold for_rand.
  destruct (for_up_inv
    (fun i (st : (list (point num) * Z) * list num) =>
       snd (fst st) = rng_iter (2 * i) (seededRandom seed) /\
       length (fst (fst st)) = i /\
       (forall k, (k < i)%nat -> exists p, fst (fst st) !! k = Some p /\ Q k p) /\
       nonzero_values (snd st) = drop (2 * i) (nonzero_values src) /\
       nonzero_draws (snd st) = (nonzero_draws src - 2 * i)%nat)
    n 0 (fun i st => body i (fst st) (snd st)) (([], seededRandom seed), src))
    as ([[pts s] rest] & E & Hs & Hl & Hp & Hv & Hr).
  - simpl. repeat split; [intros k Hk; lia | lia].
  - intros i [[pts s] src'] Hi (Hs & Hl & Hp & Hv & Hr). cbn [fst snd] in *. subst s.
    destruct (Hbody i pts src' Hv) as (rest & p & E & Hq & Hv' & Hr'); [lia|].
    eexists. split; [exact E|]. cbn [fst snd].
    split; [reflexivity|]. split; [rewrite length_app; simpl; lia|].
    split; [|split; [rewrite Hv'; f_equal; lia | lia]].
    intros k Hk. destruct (decide (k = i)) as [->|Hne].
    + exists p. split; [|exact Hq].
      rewrite lookup_app_r by lia. rewrite Hl, Nat.sub_diag. reflexivity.
    + destruct (Hp k) as (p' & Ek & Hk'); [lia|].
      exists p'. split; [|exact Hk']. rewrite lookup_app_l by lia. exact Ek.
  - exists pts, s, rest. simpl in *. auto.
Qed.

Lemma rng_twice (seed : Z) (i : nat) :
  rng_state (rng_state (rng_iter (2 * i) (seededRandom seed)))
  = rng_iter (2 * Datatypes.S i) (seededRandom seed) /\
  rng_state (rng_iter (2 * i) (seededRandom seed))
  = rng_iter (2 * i + 1) (seededRandom seed).
Proof.
  assert (E1 : rng_state (rng_iter (2 * i) (seededRandom seed))
               = rng_iter (2 * i + 1) (seededRandom seed)).
  { rewrite Nat.add_1_r, rng_iter_succ. reflexivity. }
  split; [|exact E1].
  replace (2 * Datatypes.S i)%nat with (Datatypes.S (2 * i + 1)) by lia.
  rewrite rng_iter_succ, <- E1. reflexivity.
Qed.

(** The [k]-th point of [plane] has the seeded coordinates of the [k]-th
    point of [xor], not moved, and the target of the plane with the noise
    of the [k]-th call of [randn]. *)
Lemma plane_spec (n : nat) (noise : num) (seed : Z) (src : list num) :
  (2 * n <= nonzero_draws src)%nat ->
  exists ds rest, gen.plane n noise seed src = Some (ds, rest) /\
    length (points ds) = n /\
    forall k, (k < n)%nat ->
      exists p, points ds !! k = Some p /\ plane_point seed noise src k p.
Proof.
  intros Hn. unfold gen.plane.
  match goal with |- context [rbind (for_rand 0 n ?b ?s0)] =>
    destruct (seeded_loop (plane_point seed noise src) b seed n src)
      as (pts & s & rest & E & Hl & Hp) end.
  { intros i pts src' Hv Hs. unfold rng at 1 2. cbv zeta.
    destruct (randn_next src src' i Hv Hs) as (r & Eg & Vg & Ng).
    unfold rbind. rewrite Eg. unfold rret.
    destruct (rng_twice seed i) as [E2 E1]. rewrite E2.
    eexists _, _. split; [reflexivity|]. split; [|split; [exact Vg | exact Ng]].
    unfold plane_point. cbn [p_x p_y p_t].
    unfold xor_x, xor_y, rng_output, rng. cbv zeta. cbn [fst]. rewrite <- E1, ?E2.
    split; [reflexivity|]. split; reflexivity. }
  { exact Hn. }
  unfold rbind at 1. rewrite E. unfold rret. eexists _, _.
  split; [reflexivity|]. cbn [points fst]. auto.
Qed.

Lemma sinc_spec (n : nat) (noise : num) (seed : Z) (src : list num) :
  (2 * n <= nonzero_draws src)%nat ->
  exists ds rest, gen.sinc n noise seed src = Some (ds, rest) /\
    length (points ds) = n /\
    forall k, (k < n)%nat ->
      exists p, points ds !! k = Some p /\ sinc_point seed noise src k p.
Proof.
  intros Hn. unfold gen.sinc.
  match goal with |- context [rbind (for_rand 0 n ?b ?s0)] =>
    destruct (seeded_loop (sinc_point seed noise src) b seed n src)
      as (pts & s & rest & E & Hl & Hp) end.
  { intros i pts src' Hv Hs. unfold rng at 1 2. cbv zeta.
    destruct (randn_next src src' i Hv Hs) as (r & Eg & Vg & Ng).
    unfold rbind. rewrite Eg. unfold rret.
    destruct (rng_twice seed i) as [E2 E1]. rewrite E2.
    eexists _, _. split; [reflexivity|]. split; [|split; [exact Vg | exact Ng]].
    unfold sinc_point. cbn [p_x p_y p_t].
    unfold sinc_x, sinc_y, rng_output, rng. cbv zeta. cbn [fst]. rewrite <- E1, ?E2.
    split; [reflexivity|]. split; reflexivity. }
  { exact Hn. }
  unfold rbind at 1. rewrite E. unfold rret. eexists _, _.
  split; [reflexivity|]. cbn [points fst]. auto.
Qed.

(** X17. The inputs of the two regression datasets are not jittered: the
    [k]-th point of [plane] has exactly the seeded coordinates of the
    [k]-th point of [xor] before its jitter, the [k]-th point of [sinc]
    the same numbers scaled to 3 instead of 2; [Math.random()] enters the
    targets only: the target of the [k]-th point is the plane, or the
    ripple, at the seeded input, plus [noise] times the number that the
    [k]-th call of [randn] returns on the values [src] of
    [Math.random()]. *)
Theorem regression_inputs_are_seeded (n : nat) (noise : num) (seed : Z)
    (src : list num) :
  (2 * n <= nonzero_draws src)%nat ->
  (exists ds rest, gen.plane n noise seed src = Some (ds, rest) /\
     length (points ds) = n /\
     forall k, (k < n)%nat ->
       exists p, points ds !! k = Some p /\
         p_x p = xor_x seed k /\ p_y p = xor_y seed k /\
         p_t p = lit 0.6 * xor_x seed k - lit 0.3 * xor_y seed k + lit 0.2
                 + randn_value src k * noise) /\
  (exists ds rest, gen.sinc n noise seed src = Some (ds, rest) /\
     length (points ds) = n /\
     forall k, (k < n)%nat ->
       exists p, points ds !! k = Some p /\
         p_x p = sinc_x seed k /\ p_y p = sinc_y seed k /\
         p_t p = Math_sin (Math_hypot (sinc_x seed k) (sinc_y seed k) + lit 1e-6)
                 / (Math_hypot (sinc_x seed k) (sinc_y seed k) + lit 1e-6)
                 + randn_value src k * noise).
Proof.
  intros Hn. split.
  - destruct (plane_spec n noise seed src Hn) as (ds & rest & E & Hl & Hp).
    exists ds, rest. split; [exact E|]. split; [exact Hl|].
    intros k Hk. destruct (Hp k Hk) as (p & Ek & Hx & Hy & Ht).
    exists p. rewrite Hx, Hy in Ht. auto.
  - destruct (sinc_spec n noise seed src Hn) as (ds & rest & E & Hl & Hp).
    exists ds, rest. split; [exact E|]. split; [exact Hl|].
    intros k Hk. destruct (Hp k Hk) as (p & Ek & Hx & Hy & Ht).
    exists p. cbv zeta in Ht. rewrite Hx, Hy in Ht. auto.
Qed.
End SeededInputs.

(* ------------------------------------------------------------------ *)
(** ** The generators in exact arithmetic *)

Section RealGenerators.
#[local] Existing Instance real_number.
Local Open Scope R_scope.

Lemma two_real : lit 2 = 2.
Proof. cbn [lit real_number]. unfold Q2R. cbn. lra. Qed.

Lemma three_real : lit 3 = 3.
Proof. cbn [lit real_number]. unfold Q2R. cbn. lra. Qed.

(** Whatever the seed, the seeded generator returns numbers in [[0, 1)]. *)
Lemma rng_output_range (seed : Z) (k : nat) : 0 <= rng_output seed k < 1.
Proof.
  unfold rng_output. rewrite rng_real.
  pose proof (rng_state_bounds _ (rng_iter_bounds k _ (seededRandom_bounds seed)))
    as [Hlo Hhi].
  apply IZR_le in Hlo. apply IZR_lt in Hhi.
  split.
  - unfold Rdiv. apply Rmult_le_pos; [exact Hlo|]. left. apply Rinv_0_lt_compat. lra.
  - apply Rmult_lt_reg_r with 2147483647; [lra|].
    unfold Rdiv. rewrite Rmult_assoc, Rinv_l by lra. lra.
Qed.

Lemma xor_x_range (seed : Z) (k : nat) : -2 <= xor_x seed k < 2.
Proof.
  unfold xor_x. rewrite two_real, one_real.
  pose proof (rng_output_range seed (2 * k)) as Hr.
  change (@sub R real_number) with Rminus. change (@mul R real_number) with Rmult. lra.
Qed.

Lemma xor_y_range (seed : Z) (k : nat) : -2 <= xor_y seed k < 2.
Proof.
  unfold xor_y. rewrite two_real, one_real.
  pose proof (rng_output_range seed (2 * k + 1)) as Hr.
  change (@sub R real_number) with Rminus. change (@mul R real_number) with Rmult. lra.
Qed.

Lemma sinc_range (seed : Z) (k : nat) :
  -3 <= sinc_x seed k < 3 /\ -3 <= sinc_y seed k < 3.
Proof.
  unfold sinc_x, sinc_y. rewrite two_real, three_real, one_real.
  pose proof (rng_output_range seed (2 * k)) as Hr.
  pose proof (rng_output_range seed (2 * k + 1)) as Hr'.
  change (@sub R real_number) with Rminus. change (@mul R real_number) with Rmult. lra.
Qed.

(** X18. Whatever the seed, every point of [plane] has its two
    coordinates in [[-2, 2)] and every point of [sinc] in [[-3, 3)]; the
    radius [r] by which [sinc] divides is positive. *)
Theorem regression_inputs_in_the_box (n : nat) (noise : R) (seed : Z)
    (src : list R) :
  (2 * n <= nonzero_draws src)%nat ->
  (exists ds rest, gen.plane n noise seed src = Some (ds, rest) /\
     Forall (fun p => -2 <= p_x p < 2 /\ -2 <= p_y p < 2) (points ds)) /\
  (exists ds rest, gen.sinc n noise seed src = Some (ds, rest) /\
     Forall (fun p => -3 <= p_x p < 3 /\ -3 <= p_y p < 3 /\
                      0 < Math_hypot (p_x p) (p_y p) + lit 1e-6) (points ds)).
Proof.
  intros Hn. split.
  - destruct (plane_spec n noise seed src Hn) as (ds & rest & E & Hl & Hp).
    exists ds, rest. split; [exact E|].
    apply Forall_lookup. intros k p Ek.
    assert (Hk : (k < n)%nat) by (rewrite <- Hl; eapply lookup_lt_Some, Ek).
    destruct (Hp k Hk) as (p' & Ek' & Hx & Hy & _).
    assert (p' = p) by congruence. subst p'. rewrite Hx, Hy.
    split; [apply xor_x_range | apply xor_y_range].
  - destruct (sinc_spec n noise seed src Hn) as (ds & rest & E & Hl & Hp).
    exists ds, rest. split; [exact E|].
    apply Forall_lookup. intros k p Ek.
    assert (Hk : (k < n)%nat) by (rewrite <- Hl; eapply lookup_lt_Some, Ek).
    destruct (Hp k Hk) as (p' & Ek' & Hx & Hy & _).
    assert (p' = p) by congruence. subst p'. rewrite Hx, Hy.
    destruct (sinc_range seed k) as [Rx Ry].
    split; [exact Rx|]. split; [exact Ry|].
    cbn [Math_hypot lit add real_number].
    assert (He : 0 < Q2R 1e-6).
    { change (1e-6)%Q with (1 # 1000000)%Q. unfold Q2R. cbn [Qnum Qden]. lra. }
    pose proof (sqrt_pos (sinc_x seed k * sinc_x seed k + sinc_y seed k * sinc_y seed k)).
    lra.
Qed.

(** X19. With the noise 0 the jitter of [xor] vanishes: the dataset is
    the seeded one, and two datasets generated with the same count and
    seed have the same points, whatever [Math.random()] returns. *)
Theorem xor_without_noise_is_reproducible (n : nat) (seed : Z)
    (src1 src2 : list R) :
  (4 * n <= nonzero_draws src1)%nat ->
  (4 * n <= nonzero_draws src2)%nat ->
  exists ds1 rest1 ds2 rest2,
    gen.xor n 0 seed src1 = Some (ds1, rest1) /\
    gen.xor n 0 seed src2 = Some (ds2, rest2) /\
    points ds1 = points ds2 /\
    points ds1 =
      map (fun k => {| p_x := xor_x seed k; p_y := xor_y seed k; p_t := xor_t seed k |})
          (seq 0 n).
Proof.
  intros H1 H2.
  assert (Hpts : forall src, (4 * n <= nonzero_draws src)%nat ->
            exists ds rest, gen.xor n 0 seed src = Some (ds, rest) /\
              points ds =
                map (fun k => {| p_x := xor_x seed k; p_y := xor_y seed k;
                                 p_t := xor_t seed k |}) (seq 0 n)).
  { intros src Hs. destruct (xor_spec n 0 seed src Hs) as (ds & rest & E & Hl & Hp).
    exists ds, rest. split; [exact E|].
    apply list_eq. intros k. rewrite list_lookup_fmap.
    destruct (decide (k < n)%nat) as [Hk|Hk].
    - destruct (Hp k Hk) as (p & Ek & Ht & Hx & Hy).
      rewrite Ek, lookup_seq_lt by exact Hk.
      destruct p as [px py pt]. cbn [p_x p_y p_t] in *. subst pt.
      change (@add R real_number) with Rplus in *.
      change (@mul R real_number) with Rmult in *.
      assert (Ex : px = xor_x seed k) by lra.
      assert (Ey : py = xor_y seed k) by lra.
      rewrite Ex, Ey. reflexivity.
    - rewrite lookup_ge_None_2 by lia. rewrite lookup_seq_ge by lia. reflexivity. }
  destruct (Hpts src1 H1) as (ds1 & r1 & E1 & P1).
  destruct (Hpts src2 H2) as (ds2 & r2 & E2 & P2).
  exists ds1, r1, ds2, r2. repeat split; congruence.
Qed.

(** The points of one loop of [circles], in exact arithmetic: at the
    distance [r0 + g * noise] from the origin. *)
Lemma circle_loop (n : nat) (noise r0 lbl : R) (pts0 : list (point R))
    (body : nat -> list (point R) -> Rand R (list (point R))) :
  (forall i pts src, (2 <= nonzero_draws src)%nat ->
     exists g th rest,
       body i pts src =
       Some (pts ++ [ {| p_x := (r0 + g * noise) * cos th;
                         p_y := (r0 + g * noise) * sin th; p_t := lbl |} ], rest) /\
       nonzero_draws rest = (nonzero_draws src - 2)%nat) ->
  forall src, (2 * n <= nonzero_draws src)%nat ->
    exists rest pts, for_rand 0 n body pts0 src = Some (pts0 ++ pts, rest) /\
      length pts = n /\
      Forall (fun p => exists g, p_x p * p_x p + p_y p * p_y p
                                 = (r0 + g * noise) * (r0 + g * noise) /\ p_t p = lbl) pts /\
      nonzero_draws rest = (nonzero_draws src - 2 * n)%nat.
Proof.
  intros Hbody src Hn.
  destruct (push_loop (fun pts => pts)
              (fun p => exists g, p_x p * p_x p + p_y p * p_y p
                                  = (r0 + g * noise) * (r0 + g * noise) /\ p_t p = lbl)
              2 body n) with (st := pts0) (src := src)
    as (st1 & r1 & pts1 & E1 & P1 & L1 & Q1 & N1).
  - intros i pts src' Hs. destruct (Hbody i pts src' Hs) as (g & th & rest & E & Hr).
    eexists _, rest, _. split; [exact E|]. split; [reflexivity|]. split; [|exact Hr].
    exists g. cbn [p_x p_y p_t]. split; [|reflexivity].
    pose proof (sin2_cos2 th) as Hsc. unfold Rsqr in Hsc.
    replace ((r0 + g * noise) * cos th * ((r0 + g * noise) * cos th)
             + (r0 + g * noise) * sin th * ((r0 + g * noise) * sin th))
      with ((r0 + g * noise) * (r0 + g * noise) * (sin th * sin th + cos th * cos th))
      by ring.
    rewrite Hsc. ring.
  - exact Hn.
  - exists r1, pts1. rewrite E1, P1. auto.
Qed.

(** X20. With the noise 0, [circles] puts its first [count] points, of
    class 0, exactly on the circle of radius 0.6 around the origin, and the
    next [count] points, of class 1, on the circle of radius 1.3. *)
Theorem circles_without_noise_are_circles (n : nat) (src : list R) :
  (4 * n <= nonzero_draws src)%nat ->
  exists ds rest pts0 pts1,
    gen.circles n 0 src = Some (ds, rest) /\
    points ds = pts0 ++ pts1 /\ length pts0 = n /\ length pts1 = n /\
    Forall (fun p => p_x p * p_x p + p_y p * p_y p = 0.36 /\ p_t p = 0) pts0 /\
    Forall (fun p => p_x p * p_x p + p_y p * p_y p = 1.69 /\ p_t p = 1) pts1.
Proof.
  intros Hn. unfold gen.circles.
  match goal with |- context [rbind (for_rand 0 n ?b ?s0)] =>
    destruct (circle_loop n 0 (lit 0.6) zero s0 b) with (src := src)
      as (r1 & pts0 & E1 & L1 & Q1 & N1) end.
  { intros i pts src' Hs. destruct (randn_some src') as (g & r & E & N); [lia|].
    unfold rbind. rewrite E. unfold rret. eexists g, _, r. split; [reflexivity | exact N]. }
  { lia. }
  unfold rbind at 1. rewrite E1. cbn [app].
  match goal with |- context [rbind (for_rand 0 n ?b pts0)] =>
    destruct (circle_loop n 0 (lit 1.3) one pts0 b) with (src := r1)
      as (r2 & pts1 & E2 & L2 & Q2 & N2) end.
  { intros i pts src' Hs. destruct (randn_some src') as (g & r & E & N); [lia|].
    unfold rbind. rewrite E. unfold rret. eexists g, _, r. split; [reflexivity | exact N]. }
  { lia. }
  unfold rbind at 1. rewrite E2. unfold rret.
  exists {| ds_name := "Concentric circles (classification)";
            ds_task := classification; points := pts0 ++ pts1 |}, r2, pts0, pts1.
  split; [reflexivity|]. split; [reflexivity|]. split; [exact L1|]. split; [exact L2|].
  split.
  - eapply Forall_impl; [exact Q1|]. intros p (g & Hr & Ht). cbv beta in *.
    rewrite Hr, Ht, zero_real. split; [|reflexivity].
    cbn [lit real_number]. change (0.6)%Q with (6 # 10)%Q. unfold Q2R. cbn [Qnum Qden]. lra.
  - eapply Forall_impl; [exact Q2|]. intros p (g & Hr & Ht). cbv beta in *.
    rewrite Hr, Ht, one_real. split; [|reflexivity].
    cbn [lit real_number]. change (1.3)%Q with (13 # 10)%Q. unfold Q2R. cbn [Qnum Qden]. lra.
Qed.

Lemma two_class_generators_emit_class_by_class_witness :
  (exists ds rest, gen.moons 1 (/ 10) 7 (repeat (/ 2) 8) = Some (ds, rest) /\
     map p_t (points ds) = replicate 1 zero ++ replicate 1 one) /\
  (exists ds rest, gen.circles 1 (/ 10) (repeat (/ 2) 8) = Some (ds, rest) /\
     map p_t (points ds) = replicate 1 zero ++ replicate 1 one) /\
  (exists ds rest, gen.spirals 1 (/ 10) (repeat (/ 2) 8) = Some (ds, rest) /\
     map p_t (points ds) = replicate 1 zero ++ replicate 1 one).
Proof.
  apply (two_class_generators_emit_class_by_class 1 (/ 10) 7 (repeat (/ 2) 8)).
  rewrite nonzero_draws_half. lia.
Defined.

Lemma regression_inputs_are_seeded_witness :
  (exists ds rest, gen.plane 1 (/ 10) 7 (repeat (/ 2) 2) = Some (ds, rest) /\
     length (points ds) = 1%nat /\
     forall k, (k < 1)%nat ->
       exists p, points ds !! k = Some p /\
         p_x p = xor_x 7 k /\ p_y p = xor_y 7 k /\
         (p_t p = lit 0.6 * xor_x 7 k - lit 0.3 * xor_y 7 k + lit 0.2
                  + randn_value (repeat (/ 2) 2) k * / 10)%js) /\
  (exists ds rest, gen.sinc 1 (/ 10) 7 (repeat (/ 2) 2) = Some (ds, rest) /\
     length (points ds) = 1%nat /\
     forall k, (k < 1)%nat ->
       exists p, points ds !! k = Some p /\
         p_x p = sinc_x 7 k /\ p_y p = sinc_y 7 k /\
         (p_t p = Math_sin (Math_hypot (sinc_x 7 k) (sinc_y 7 k) + lit 1e-6)
                  / (Math_hypot (sinc_x 7 k) (sinc_y 7 k) + lit 1e-6)
                  + randn_value (repeat (/ 2) 2) k * / 10)%js).
Proof.
  apply (regression_inputs_are_seeded 1 (/ 10) 7 (repeat (/ 2) 2)).
  rewrite nonzero_draws_half. lia.
Defined.

Lemma regression_inputs_in_the_box_witness :
  (exists ds rest, gen.plane 1 (/ 10) 7 (repeat (/ 2) 2) = Some (ds, rest) /\
     Forall (fun p => -2 <= p_x p < 2 /\ -2 <= p_y p < 2) (points ds)) /\
  (exists ds rest, gen.sinc 1 (/ 10) 7 (repeat (/ 2) 2) = Some (ds, rest) /\
     Forall (fun p => -3 <= p_x p < 3 /\ -3 <= p_y p < 3 /\
                      0 < Math_hypot (p_x p) (p_y p) + lit 1e-6) (points ds)).
Proof.
  apply (regression_inputs_in_the_box 1 (/ 10) 7 (repeat (/ 2) 2)).
  rewrite nonzero_draws_half. lia.
Defined.

Lemma xor_without_noise_is_reproducible_witness :
  exists ds1 rest1 ds2 rest2,
    gen.xor 1 0 7 [/ 2; / 4; / 2; / 4] = Some (ds1, rest1) /\
    gen.xor 1 0 7 (repeat (/ 2) 4) = Some (ds2, rest2) /\
    points ds1 = points ds2 /\
    points ds1 =
      map (fun k => {| p_x := xor_x 7 k; p_y := xor_y 7 k; p_t := xor_t 7 k |})
          (seq 0 1).
Proof.
  apply (xor_without_noise_is_reproducible 1 7 [/ 2; / 4; / 2; / 4] (repeat (/ 2) 4)).
  - rewrite !nonzero_draws_cons, !strict_eq_real_false by lra.
    unfold nonzero_draws. simpl. lia.
  - rewrite nonzero_draws_half. lia.
Defined.

Lemma circles_without_noise_are_circles_witness :
  exists ds rest pts0 pts1,
    gen.circles 1 0 (repeat (/ 2) 4) = Some (ds, rest) /\
    points ds = pts0 ++ pts1 /\ length pts0 = 1%nat /\ length pts1 = 1%nat /\
    Forall (fun p => p_x p * p_x p + p_y p * p_y p = 0.36 /\ p_t p = 0) pts0 /\
    Forall (fun p => p_x p * p_x p + p_y p * p_y p = 1.69 /\ p_t p = 1) pts1.
Proof.
  apply (circles_without_noise_are_circles 1 (repeat (/ 2) 4)).
  rewrite nonzero_draws_half. lia.
Defined.
End RealGenerators.

(* ------------------------------------------------------------------ *)
(** ** The batch the app trains on *)

Section AppBatch.
Context {num : Type} `{!Number num}.

Lemma dsObj_task (key : dsKey.t) (n : nat) (noise : num) (seed : Z)
    (src : list num) (ds : dataset num) (rest : list num) :
  App.dsObj key n noise seed src = Some (ds, rest) ->
  ds_task ds = match key with
               | dsKey.sinc | dsKey.plane => regression
               | _ => classification
               end.
Proof.
  destruct key; unfold App.dsObj, gen.moons, gen.circles, gen.xor, gen.spirals,
    gen.sinc, gen.plane, rbind, rret; cbv zeta;
    repeat match goal with
    | |- context [match for_rand ?a ?b ?c ?d ?e with _ => _ end] =>
        destruct (for_rand a b c d e) as [[? ?]|]
    end;
    intros E; try discriminate; injection E as <- _; reflexivity.
Qed.

(** X21. The batch of the app: given enough values of [Math.random()],
    the selected generator returns, the arrays [XY] and [yTrue] that the
    app derives from its points have the same length, which is
    [2 * nPerClass] for every dataset but [xor], where it is [nPerClass];
    [sinc] and [plane] make the task a regression, the others a
    classification. *)
Theorem app_batch (key : dsKey.t) (nPerClass : nat) (noise : num) (seed : Z)
    (src : list num) :
  (8 * nPerClass <= nonzero_draws src)%nat ->
  exists ds rest,
    App.dsObj key nPerClass noise seed src = Some (ds, rest) /\
    length (App.XY (points ds)) = length (App.yTrue (points ds)) /\
    length (App.XY (points ds)) =
      match key with dsKey.xor => nPerClass | _ => (2 * nPerClass)%nat end /\
    ds_task ds = match key with
                 | dsKey.sinc | dsKey.plane => regression
                 | _ => classification
                 end.
Proof.
  intros Hn.
  assert (Hgen : exists ds rest,
            App.dsObj key nPerClass noise seed src = Some (ds, rest) /\
            length (points ds) =
              match key with dsKey.xor => nPerClass | _ => (2 * nPerClass)%nat end).
  { destruct key; unfold App.dsObj; cbv zeta.
    - destruct (moons_points nPerClass noise seed src) as (ds & r & E & L & _); [lia|]; eauto.
    - destruct (circles_points nPerClass noise src) as (ds & r & E & L & _); [lia|]; eauto.
    - destruct (xor_points nPerClass noise seed src) as (ds & r & E & L & _); [lia|]; eauto.
    - destruct (spirals_points nPerClass noise src) as (ds & r & E & L & _); [lia|]; eauto.
    - destruct (sinc_points (nPerClass * 2) noise seed src) as (ds & r & E & L); [lia|].
      exists ds, r. split; [exact E | lia].
    - destruct (plane_points (nPerClass * 2) noise seed src) as (ds & r & E & L); [lia|].
      exists ds, r. split; [exact E | lia]. }
  destruct Hgen as (ds & rest & E & L).
  exists ds, rest. split; [exact E|].
  unfold App.XY, App.yTrue. rewrite !length_map.
  split; [reflexivity|]. split; [exact L|]. exact (dsObj_task _ _ _ _ _ _ _ E).
Qed.

(** X22. The history of the losses numbers its entries from 1: after the
    losses [Ls] have been appended one by one to the empty history, the
    [i]-th entry (from 0) has the step [i + 1] and the [i]-th loss. *)
Theorem lossHist_steps_count_from_one (Ls : list num) :
  fold_left (fun h L => App.lossHist_append L h) Ls [] =
  imap (fun i L => {| hist.step := (i + 1)%nat; hist.loss := L |}) Ls.
Proof.
  induction Ls as [|L Ls IH] using rev_ind; [reflexivity|].
  rewrite fold_left_app, IH. cbn [fold_left]. unfold App.lossHist_append.
  rewrite imap_app. cbn [imap]. f_equal. f_equal. f_equal.
  clear IH. destruct Ls as [|L0 Ls' _] using rev_ind; [reflexivity|].
  rewrite imap_app. cbn [imap]. rewrite last_snoc. cbn [hist.step]. rewrite length_app. simpl. lia.
Qed.
End AppBatch.

(* ------------------------------------------------------------------ *)
(** ** The metric under the decision field *)

Section MetricFacts.
#[local] Existing Instance real_number.
#[local] Existing Instance real_number_ui.
Local Open Scope R_scope.

(** X23. The accuracy that the app shows for a classification is a number
    between 0 and 1, whatever the predictions and the targets (a target
    that is missing counts as not 1); with no prediction it is 0. *)
Theorem accuracy_is_a_fraction (preds yTrue : list R) :
  exists m,
    App.metric classification preds yTrue = Some m /\
    label m = "Accuracy"%string /\ 0 <= value m <= 1 /\
    (preds = [] -> value m = 0).
Proof.
  unfold App.metric. destruct (Nat.eqb_spec (length preds) 0) as [E0|Hne].
  - eexists. split; [reflexivity|]. cbn [label value]. rewrite zero_real.
    split; [reflexivity|]. split; [lra | reflexivity].
  - match goal with |- context [for_up 0 (length preds) ?b ?z] =>
      destruct (for_up_inv (fun i (c : R) => 0 <= c <= INR i) (length preds) 0 b z)
        as (c & Ec & Hc) end.
    + rewrite zero_real. simpl. lra.
    + intros i c Hi Hc. destruct (lookup_lt_is_Some_2 preds i ltac:(lia)) as [p Ep].
      rewrite Ep. cbn [mbind option_bind]. cbv zeta. eexists. split; [reflexivity|].
      rewrite S_INR, zero_real, one_real. change (@add R real_number) with Rplus.
      destruct (Bool.eqb _ _); lra.
    + rewrite Ec. cbn [mbind option_bind]. eexists. split; [reflexivity|].
      cbn [label value]. split; [reflexivity|]. rewrite of_nat_real.
      change (@div R real_number) with Rdiv. simpl in Hc.
      assert (Hn : 0 < INR (length preds)) by (apply lt_0_INR; lia).
      split; [split|].
      * unfold Rdiv. apply Rmult_le_pos; [lra|]. left. apply Rinv_0_lt_compat, Hn.
      * apply Rmult_le_reg_r with (INR (length preds)); [exact Hn|].
        unfold Rdiv. rewrite Rmult_assoc, Rinv_l by lra. lra.
      * intros ->. simpl in Hne. lia.
Qed.


End MetricFacts.

(* ------------------------------------------------------------------ *)
(** ** The loss chart *)

Section LossChartFacts.
#[local] Existing Instance real_number.
#[local] Existing Instance real_number_ui.
Local Open Scope R_scope.

Lemma fold_Rmin_le (rest : list R) :
  forall x0 x, x = x0 \/ In x rest -> fold_left Rmin rest x0 <= x.
Proof.
  induction rest as [|y rest IH]; intros x0 x Hin; simpl.
  - destruct Hin as [->|[]]. lra.
  - destruct Hin as [->|[->|Hin]].
    + apply Rle_trans with (Rmin x0 y); [apply IH; left; reflexivity | apply Rmin_l].
    + apply Rle_trans with (Rmin x0 x); [apply IH; left; reflexivity | apply Rmin_r].
    + apply IH. right. exact Hin.
Qed.

Lemma fold_Rmax_ge (rest : list R) :
  forall x0 x, x = x0 \/ In x rest -> x <= fold_left Rmax rest x0.
Proof.
  induction rest as [|y rest IH]; intros x0 x Hin; simpl.
  - destruct Hin as [->|[]]. lra.
  - destruct Hin as [->|[->|Hin]].
    + apply Rle_trans with (Rmax x0 y); [apply Rmax_l | apply IH; left; reflexivity].
    + apply Rle_trans with (Rmax x0 x); [apply Rmax_r | apply IH; left; reflexivity].
    + apply IH. right. exact Hin.
Qed.

(** [Math.min(...xs)] is below, and [Math.max(...xs)] above, every entry. *)
Lemma Math_min_max_of (xs : list R) (x : R) :
  In x xs -> Math_min_of xs <= x <= Math_max_of xs.
Proof.
  destruct xs as [|x0 rest]; [intros []|]. intros Hin. cbn [Math_min_of Math_max_of real_number_ui].
  assert (Hin' : x = x0 \/ In x rest) by (destruct Hin; auto).
  split; [apply fold_Rmin_le | apply fold_Rmax_ge]; exact Hin'.
Qed.




End LossChartFacts.

(* ------------------------------------------------------------------ *)
(** ** The network diagram *)

Section DiagramSizes.
Context {num : Type} `{!Number num}.
Variable H : list nat.

Lemma tail_sizes_of : tail (sizes_of H) = map (fun l => size H (l + 1)) (seq 0 (depth H)).
Proof.
  apply (nth_ext _ _ 0%nat 0%nat).
  - rewrite length_tail_sizes, length_map, length_seq. reflexivity.
  - intros l Hl. rewrite length_tail_sizes in Hl.
    rewrite (nth_map_in _ _ l 0%nat) by (rewrite length_seq; exact Hl).
    rewrite seq_nth by exact Hl. unfold size, sizes_of. cbn [tail].
    replace (0 + l + 1)%nat with (Datatypes.S l) by lia. reflexivity.
Qed.

(** X26. The diagram reads the layer sizes off the weights: on parameters
    of the right shape, when no hidden layer is empty, it recovers the
    size sequence [[2, ...layers, 1]]; when a hidden layer has the size 0,
    reading the first row of the weights that leave it raises a
    [TypeError]. *)
Theorem diagram_sizes_from_weights (st : state num) :
  shape_ok H st ->
  (Forall (fun h => (1 <= h)%nat) H ->
     NetworkDiagram.sizes (W st) = Some (sizes_of H) /\
     NetworkDiagram.hiddenCount (sizes_of H) = Z.of_nat (length H)) /\
  (In 0%nat H -> NetworkDiagram.sizes (W st) = None).
Proof.
  intros (Lw & _ & Hs). split.
  - intros Hpos. split.
    + unfold NetworkDiagram.sizes.
      assert (E : mapM (fun layer : list (list num) =>
                          row ← layer !! 0%nat; Some (length row)) (W st)
                  = Some (tail (sizes_of H))).
      { apply mapM_Some. rewrite tail_sizes_of. apply Forall2_lookup. intros l.
        rewrite list_lookup_fmap.
        destruct (decide (l < depth H)%nat) as [Hl|Hl].
        - rewrite lookup_seq_lt by exact Hl.
          rewrite (lookup_nth (W st) l []) by lia. cbn [fmap option_fmap option_map].
          constructor.
          destruct (Hs l Hl) as (L1 & R1 & _).
          assert (Hsz : (1 <= size H l)%nat).
          { destruct l as [|l']; [rewrite size_0; lia|].
            unfold size, sizes_of. cbn [nth].
            rewrite depth_eq in Hl. rewrite app_nth1 by lia.
            rewrite Forall_forall in Hpos. apply Hpos, list_elem_of_In, nth_In. lia. }
          rewrite (lookup_nth (nth l (W st) []) 0 []) by lia.
          cbn [mbind option_bind]. rewrite R1 by lia. reflexivity.
        - rewrite lookup_ge_None_2 by lia. rewrite lookup_seq_ge by lia. constructor. }
      rewrite E. reflexivity.
    + unfold NetworkDiagram.hiddenCount. rewrite length_sizes_of. lia.
  - intros Hin. unfold NetworkDiagram.sizes.
    assert (E : mapM (fun layer : list (list num) =>
                        row ← layer !! 0%nat; Some (length row)) (W st) = None).
    { apply mapM_None. apply Exists_exists.
      apply In_nth with (d := 0%nat) in Hin. destruct Hin as (k & Hk & Ek).
      assert (Hl : (Datatypes.S k < depth H)%nat) by (rewrite depth_eq; lia).
      exists (nth (Datatypes.S k) (W st) []). split.
      - apply list_elem_of_In, nth_In. lia.
      - destruct (Hs _ Hl) as (L1 & _ & _).
        assert (Hz : size H (Datatypes.S k) = 0%nat).
        { unfold size, sizes_of. cbn [nth]. rewrite app_nth1 by lia. exact Ek. }
        rewrite Hz in L1. apply length_zero_iff_nil in L1. rewrite L1. reflexivity. }
    rewrite E. reflexivity.
Qed.
End DiagramSizes.

Section DiagramGeometry.
#[local] Existing Instance real_number.
#[local] Existing Instance real_number_ui.
Local Open Scope R_scope.




End DiagramGeometry.

(* ------------------------------------------------------------------ *)
(** ** The decision field *)

Section DecisionField.
#[local] Existing Instance real_number.
#[local] Existing Instance real_number_ui.
Local Open Scope R_scope.
Variable data : list (point R).
Variables width height padding : R.

Lemma lit_90 : lit 90 = 90.
Proof. cbn [lit real_number]. unfold Q2R. cbn. lra. Qed.

Lemma lit_60 : lit 60 = 60.
Proof. cbn [lit real_number]. unfold Q2R. cbn. lra. Qed.

Lemma of_nat_nx : of_nat DecisionCanvas.nx = 90.
Proof. rewrite of_nat_real. unfold DecisionCanvas.nx. simpl. lra. Qed.

Lemma of_nat_ny : of_nat DecisionCanvas.ny = 60.
Proof. rewrite of_nat_real. unfold DecisionCanvas.ny. simpl. lra. Qed.

(** The half unit of margin makes the two ranges at least 1 long. *)
Lemma canvas_ranges :
  data <> [] ->
  1 <= DecisionCanvas.xmax data - DecisionCanvas.xmin data /\
  1 <= DecisionCanvas.ymax data - DecisionCanvas.ymin data /\
  Forall (fun p => DecisionCanvas.xmin data < p_x p < DecisionCanvas.xmax data /\
                   DecisionCanvas.ymin data < p_y p < DecisionCanvas.ymax data) data.
Proof.
  intros Hne. unfold DecisionCanvas.xmax, DecisionCanvas.xmin, DecisionCanvas.ymax,
    DecisionCanvas.ymin, DecisionCanvas.xs, DecisionCanvas.ys.
  rewrite half_real.
  change (@add R real_number) with Rplus. change (@sub R real_number) with Rminus.
  destruct data as [|p0 rest] eqn:Ed; [congruence|]. rewrite <- Ed in *.
  assert (Hp0 : In p0 data) by (rewrite Ed; left; reflexivity).
  pose proof (Math_min_max_of (map p_x data) (p_x p0) (in_map p_x _ _ Hp0)) as Hx0.
  pose proof (Math_min_max_of (map p_y data) (p_y p0) (in_map p_y _ _ Hp0)) as Hy0.
  split; [lra|]. split; [lra|].
  apply Forall_forall. intros p Hp. apply list_elem_of_In in Hp.
  pose proof (Math_min_max_of (map p_x data) (p_x p) (in_map p_x _ _ Hp)) as Hx.
  pose proof (Math_min_max_of (map p_y data) (p_y p) (in_map p_y _ _ Hp)) as Hy.
  lra.
Qed.

(** X28. The decision field, for data that are not empty: the rectangle
    of the cell [(i, j)] of the grid has its left edge at
    [padding + i * w] and its top edge at
    [height - padding - (j + 1) * h], with [w] and [h] the width and the
    height of a rectangle, so the 90 by 60 rectangles tile the plot area
    without gap or overlap; and every data point is drawn strictly inside
    the plot area. *)
Theorem decision_field_tiles_the_plot (i j : nat) :
  data <> [] -> 2 * padding < width -> 2 * padding < height ->
  DecisionCanvas.rect_x data width padding (DecisionCanvas.gx data i)
    = padding + INR i * DecisionCanvas.rect_width width padding /\
  DecisionCanvas.rect_y data height padding (DecisionCanvas.gy data j)
    = height - padding - (INR j + 1) * DecisionCanvas.rect_height height padding /\
  90 * DecisionCanvas.rect_width width padding = width - 2 * padding /\
  60 * DecisionCanvas.rect_height height padding = height - 2 * padding /\
  Forall (fun p =>
            padding < DecisionCanvas.x2sx data width padding (p_x p) < width - padding /\
            padding < DecisionCanvas.y2sy data height padding (p_y p) < height - padding)
         data.
Proof.
  intros Hne Hw Hh. destruct (canvas_ranges Hne) as (Rx & Ry & Hin).
  unfold DecisionCanvas.rect_x, DecisionCanvas.rect_y, DecisionCanvas.rect_width,
    DecisionCanvas.rect_height, DecisionCanvas.x2sx, DecisionCanvas.y2sy,
    DecisionCanvas.gx, DecisionCanvas.gy.
  rewrite of_nat_nx, of_nat_ny, !of_nat_real, half_real, two_real, lit_90, lit_60.
  change (@add R real_number) with Rplus. change (@sub R real_number) with Rminus.
  change (@mul R real_number) with Rmult. change (@div R real_number) with Rdiv.
  set (dx := DecisionCanvas.xmax data - DecisionCanvas.xmin data) in *.
  set (dy := DecisionCanvas.ymax data - DecisionCanvas.ymin data) in *.
  split; [field; lra|]. split; [field; lra|]. split; [field|]. split; [field|].
  eapply Forall_impl; [exact Hin|]. intros p ((Hx1 & Hx2) & (Hy1 & Hy2)). cbv beta.
  assert (Fx : 0 < (p_x p - DecisionCanvas.xmin data) / dx < 1).
  { split.
    - apply Rdiv_lt_0_compat; lra.
    - apply Rmult_lt_reg_r with dx; [lra|].
      unfold Rdiv. rewrite Rmult_assoc, Rinv_l by lra. unfold dx. lra. }
  assert (Fy : 0 < (p_y p - DecisionCanvas.ymin data) / dy < 1).
  { split.
    - apply Rdiv_lt_0_compat; lra.
    - apply Rmult_lt_reg_r with dy; [lra|].
      unfold Rdiv. rewrite Rmult_assoc, Rinv_l by lra. unfold dy. lra. }
  split; split; nra.
Qed.
End DecisionField.

(* ------------------------------------------------------------------ *)
(** ** The grid of the decision field *)

Section DecisionGrid.
Context {num : Type} `{!Number num} `{!NumberUI num}.
Variable H : list nat.
Variable actFun : activation num.
Variable task : Task.

(** X29. The background of the decision field: on parameters of the
    right shape the grid has 90 times 60 cells, stored column by column,
    and the cell [(i, j)] carries the prediction of the network at its
    centre. *)
Theorem decision_field_grid (data : list (point num)) (st : state num) :
  shape_ok H st ->
  exists g,
    DecisionCanvas.grid data (predictBatch H actFun task st) = Some g /\
    length g = (90 * 60)%nat /\
    forall i j, (i < 90)%nat -> (j < 60)%nat ->
      g !! (i * 60 + j)%nat =
      Some (DecisionCanvas.gx data i, DecisionCanvas.gy data j,
            spec_yhat H actFun task st (DecisionCanvas.gx data i) (DecisionCanvas.gy data j)).
Proof.
  intros Hsh. unfold DecisionCanvas.grid.
  set (cell := fun i j => (DecisionCanvas.gx data i, DecisionCanvas.gy data j,
                 spec_yhat H actFun task st (DecisionCanvas.gx data i)
                   (DecisionCanvas.gy data j))).
  match goal with |- context [for_up 0 DecisionCanvas.nx ?b ?z] =>
    destruct (for_up_inv
      (fun i (g : list (num * num * num)) =>
         length g = (i * 60)%nat /\
         forall i' j, (i' < i)%nat -> (j < 60)%nat -> g !! (i' * 60 + j)%nat = Some (cell i' j))
      DecisionCanvas.nx 0 b z) as (g & Eg & Lg & Hg) end.
  - split; [reflexivity|]. intros i' j Hi. lia.
  - intros i g0 Hi (L0 & H0).
    match goal with |- context [for_up 0 DecisionCanvas.ny ?b g0] =>
      destruct (for_up_inv
        (fun j (g : list (num * num * num)) =>
           length g = (i * 60 + j)%nat /\
           (forall k, (k < i * 60)%nat -> g !! k = g0 !! k) /\
           forall j', (j' < j)%nat -> g !! (i * 60 + j')%nat = Some (cell i j'))
        DecisionCanvas.ny 0 b g0) as (g1 & Eg1 & L1 & K1 & C1) end.
    + split; [lia|]. split; [reflexivity|]. intros j' Hj. lia.
    + intros j g2 Hj (L2 & K2 & C2).
      destruct (predictBatch_spec H actFun task st
                  [(DecisionCanvas.gx data i, DecisionCanvas.gy data j)] Hsh)
        as (preds & Ep & Lp & Hp).
      rewrite Ep. cbn [mbind option_bind].
      destruct (Hp 0%nat _ eq_refl) as (E0 & _). rewrite E0. cbn [mbind option_bind fst snd].
      eexists. split; [reflexivity|].
      split; [rewrite length_app; simpl; lia|]. split.
      * intros k Hk. rewrite lookup_app_l by lia. apply K2, Hk.
      * intros j' Hj'. destruct (decide (j' = j)) as [->|Hne].
        -- rewrite lookup_app_r by lia. rewrite L2, Nat.sub_diag. reflexivity.
        -- rewrite lookup_app_l by lia. apply C2. lia.
    + exists g1. split; [exact Eg1|]. simpl in L1, K1, C1.
      split; [unfold DecisionCanvas.ny in L1; lia|].
      intros i' j Hi' Hj. destruct (decide (i' = i)) as [->|Hne].
      * apply C1. unfold DecisionCanvas.ny. exact Hj.
      * rewrite K1 by nia. apply H0; [lia | exact Hj].
  - exists g. split; [exact Eg|]. cbn beta in Lg, Hg. unfold DecisionCanvas.nx in *.
    split; [lia|]. intros i j Hi Hj. apply Hg; assumption.
Qed.
End DecisionGrid.

(* ------------------------------------------------------------------ *)
(** ** The app on the worked example *)

Section AppWitnesses.
#[local] Existing Instance real_number.
#[local] Existing Instance real_number_ui.
Local Open Scope R_scope.

Lemma app_batch_witness :
  exists ds rest,
    App.dsObj dsKey.xor 1 (/ 10) 7 (repeat (/ 2) 8) = Some (ds, rest) /\
    length (App.XY (points ds)) = length (App.yTrue (points ds)) /\
    length (App.XY (points ds)) = 1%nat /\
    ds_task ds = classification.
Proof.
  apply (app_batch dsKey.xor 1 (/ 10) 7 (repeat (/ 2) 8)).
  rewrite nonzero_draws_half. lia.
Defined.


Lemma diagram_sizes_from_weights_witness :
  (Forall (fun h => (1 <= h)%nat) example_layers ->
     NetworkDiagram.sizes (W example_state) = Some (sizes_of example_layers) /\
     NetworkDiagram.hiddenCount (sizes_of example_layers)
       = Z.of_nat (length example_layers)) /\
  (In 0%nat example_layers -> NetworkDiagram.sizes (W example_state) = None).
Proof.
  exact (diagram_sizes_from_weights example_layers example_state example_shape).
Defined.

Lemma decision_field_tiles_the_plot_witness :
  DecisionCanvas.rect_x [ {| p_x := 0; p_y := 0; p_t := 0 |} ] 520 24
      (DecisionCanvas.gx [ {| p_x := 0; p_y := 0; p_t := 0 |} ] 3)
    = 24 + INR 3 * DecisionCanvas.rect_width 520 24 /\
  DecisionCanvas.rect_y [ {| p_x := 0; p_y := 0; p_t := 0 |} ] 380 24
      (DecisionCanvas.gy [ {| p_x := 0; p_y := 0; p_t := 0 |} ] 5)
    = 380 - 24 - (INR 5 + 1) * DecisionCanvas.rect_height 380 24 /\
  90 * DecisionCanvas.rect_width 520 24 = 520 - 2 * 24 /\
  60 * DecisionCanvas.rect_height 380 24 = 380 - 2 * 24 /\
  Forall (fun p =>
            24 < DecisionCanvas.x2sx [ {| p_x := 0; p_y := 0; p_t := 0 |} ] 520 24 (p_x p)
               < 520 - 24 /\
            24 < DecisionCanvas.y2sy [ {| p_x := 0; p_y := 0; p_t := 0 |} ] 380 24 (p_y p)
               < 380 - 24)
         [ {| p_x := 0; p_y := 0; p_t := 0 |} ].
Proof.
  apply (decision_field_tiles_the_plot [ {| p_x := 0; p_y := 0; p_t := 0 |} ]
           520 380 24 3 5).
  - discriminate.
  - lra.
  - lra.
Defined.

Lemma decision_field_grid_witness :
  exists g,
    DecisionCanvas.grid [ {| p_x := 0; p_y := 0; p_t := 0 |} ]
      (predictBatch example_layers act.tanh regression example_state) = Some g /\
    length g = (90 * 60)%nat /\
    forall i j, (i < 90)%nat -> (j < 60)%nat ->
      g !! (i * 60 + j)%nat =
      Some (DecisionCanvas.gx [ {| p_x := 0; p_y := 0; p_t := 0 |} ] i,
            DecisionCanvas.gy [ {| p_x := 0; p_y := 0; p_t := 0 |} ] j,
            spec_yhat example_layers act.tanh regression example_state
              (DecisionCanvas.gx [ {| p_x := 0; p_y := 0; p_t := 0 |} ] i)
              (DecisionCanvas.gy [ {| p_x := 0; p_y := 0; p_t := 0 |} ] j)).
Proof.
  exact (decision_field_grid example_layers act.tanh regression
           [ {| p_x := 0; p_y := 0; p_t := 0 |} ] example_state example_shape).
Defined.
End AppWitnesses.
